(** * DM-VIO front end: immature-point depth filter and keyframe bookkeeping

    A shallow embedding of the parts of

      - [src/dso/FullSystem/ImmaturePoint.cpp]
          (constructor, [traceOn], [calcResidual], [linearizeResidual])
      - [src/dso/FullSystem/FullSystem.cpp]
          ([setGammaFunction], the initial guesses of [trackNewCoarse],
           [traceNewCoarse], [activatePointsMT], [flagPointsForRemoval],
           [makeNonKeyFrame], [makeKeyFrame], [initializeFromInitializer],
           [makeNewPoints])

    C++ [float] is IEEE-754 binary32 and [double] is binary64; both are
    modelled with the executable specification of the Rocq core library
    ([SpecFloat]), round-to-nearest-even, no NaN payload.  Every arithmetic
    expression is evaluated operation by operation in the type C++ gives
    it (no fused multiply-add, no extended precision). *)

From Stdlib Require Import ZArith Bool List Lia.
From Stdlib Require Import Floats.SpecFloat.
From stdpp Require Import base list.

Open Scope Z_scope.

(** ** IEEE-754 arithmetic *)

Definition float := spec_float.
Definition double := spec_float.

(** binary64, the type of unsuffixed literals such as [0.8] *)
Module D.
Definition prec : Z := 53.
Definition emax : Z := 1024.
Definition add : double -> double -> double := SFadd prec emax.
Definition sub : double -> double -> double := SFsub prec emax.
Definition mul : double -> double -> double := SFmul prec emax.
Definition div : double -> double -> double := SFdiv prec emax.
Definition ltb : double -> double -> bool := SFltb.
Definition of_Z (z : Z) : double := binary_normalize prec emax z 0 false.
(** the double nearest to the decimal literal [n / 10^k] or [n * 10^k] *)
Definition dec (n : Z) (k : Z) : double :=
  if k <? 0 then div (of_Z n) (of_Z (10 ^ (- k))) else of_Z (n * 10 ^ k).
End D.

(** binary32 *)
Module F.
Definition prec : Z := 24.
Definition emax : Z := 128.
Definition add : float -> float -> float := SFadd prec emax.
Definition sub : float -> float -> float := SFsub prec emax.
Definition mul : float -> float -> float := SFmul prec emax.
Definition div : float -> float -> float := SFdiv prec emax.
Definition sqrt : float -> float := SFsqrt prec emax.
Definition abs : float -> float := SFabs.
Definition opp : float -> float := SFopp.
Definition ltb : float -> float -> bool := SFltb.
Definition leb : float -> float -> bool := SFleb.
Definition gtb (x y : float) : bool := SFltb y x.
Definition geb (x y : float) : bool := SFleb y x.
Definition of_Z (z : Z) : float := binary_normalize prec emax z 0 false.
(** the float nearest to a decimal literal with suffix [f] *)
Definition dec (n : Z) (k : Z) : float :=
  if k <? 0 then div (of_Z n) (of_Z (10 ^ (- k))) else of_Z (n * 10 ^ k).

Definition zero : float := S754_zero false.
Definition one : float := of_Z 1.
Definition nan : float := S754_nan.

(** [std::isfinite] *)
Definition isfinite (x : float) : bool :=
  match x with
  | S754_zero _ | S754_finite _ _ _ => true
  | S754_infinity _ | S754_nan => false
  end.

Definition is_nan (x : float) : bool :=
  match x with S754_nan => true | _ => false end.

(** integer part towards zero and towards minus infinity of a finite
    value *)
Definition Ztrunc (x : float) : Z :=
  match x with
  | S754_finite s m e =>
      cond_Zopp s (match e with
                   | Zneg p => Z.shiftr (Zpos m) (Zpos p)
                   | _ => Z.shiftl (Zpos m) e
                   end)
  | _ => 0
  end.

Definition Zfloor (x : float) : Z :=
  match x with
  | S754_finite s m e =>
      match e with
      | Zneg p => Z.shiftr (cond_Zopp s (Zpos m)) (Zpos p)
      | _ => cond_Zopp s (Z.shiftl (Zpos m) e)
      end
  | _ => 0
  end.

(** [floorf]: zeros, infinities and NaN are returned as they are; a
    result that rounds to zero keeps the sign of the argument *)
Definition floor (x : float) : float :=
  match x with
  | S754_finite s _ _ => binary_normalize prec emax (Zfloor x) 0 s
  | _ => x
  end.

(** conversion [(int) x]: truncation; outside the range of [int] (and
    for NaN) C++ leaves the result undefined, the model returns
    [INT_MIN] as the x86-64 conversion instruction does *)
Definition to_int (x : float) : Z :=
  if isfinite x then
    let z := Ztrunc x in
    if (- 2 ^ 31 <=? z) && (z <? 2 ^ 31) then z else - 2 ^ 31
  else - 2 ^ 31.
End F.

(** value-preserving promotion [float -> double] and the rounding
    conversion [double -> float] *)
Definition to_double (x : float) : double :=
  match x with
  | S754_finite s m e => binary_normalize D.prec D.emax (cond_Zopp s (Zpos m)) e s
  | _ => x
  end.

Definition to_float (x : double) : float :=
  match x with
  | S754_finite s m e => binary_normalize F.prec F.emax (cond_Zopp s (Zpos m)) e s
  | _ => x
  end.

Declare Scope f32_scope.
Delimit Scope f32_scope with f32.
Infix "+" := F.add : f32_scope.
Infix "-" := F.sub : f32_scope.
Infix "*" := F.mul : f32_scope.
Infix "/" := F.div : f32_scope.
Infix "<?" := F.ltb : f32_scope.
Infix ">?" := F.gtb : f32_scope.
Infix "<=?" := F.leb : f32_scope.
Infix ">=?" := F.geb : f32_scope.

(** compound assignment of a [float] variable with a [double] operand
    ([x += 1e5], [x -= 0.8], [x *= 0.5]): the operation is carried out in
    [double] and the result converted back *)
Definition add_d (x : float) (d : double) : float := to_float (D.add (to_double x) d).
Definition sub_d (x : float) (d : double) : float := to_float (D.sub (to_double x) d).
Definition mul_d (x : float) (d : double) : float := to_float (D.mul (to_double x) d).

(** comparison of a [float] with a [double] literal *)
Definition lt_d (x : float) (d : double) : bool := D.ltb (to_double x) d.
Definition gt_d (x : float) (d : double) : bool := D.ltb d (to_double x).

(** the sign of a number; NaN has none *)
Definition has_sign (s : bool) (x : spec_float) : Prop :=
  match x with
  | S754_zero s' | S754_infinity s' | S754_finite s' _ _ => s' = s
  | S754_nan => False
  end.

(** a number that is not negative, or NaN *)
Definition nonneg_or_nan (x : spec_float) : Prop := x = S754_nan \/ has_sign false x.

(** a well-formed binary32 datum: the mantissa has at most 24 bits and is
    normalised, the exponent is in range *)
Definition valid32 (x : float) : Prop := valid_binary F.prec F.emax x = true.

(** the namespace of the sources *)
Module dso.

(** ** Eigen fixed-size vectors and matrices *)

Record Vec2f := V2 { v2x : float; v2y : float }.
Record Vec3f := V3 { v3x : float; v3y : float; v3z : float }.
Record Mat22f := M22 { m00 : float; m01 : float; m10 : float; m11 : float }.
Record Mat33f := M33 { row0 : Vec3f; row1 : Vec3f; row2 : Vec3f }.

Section Eigen.
Local Open Scope f32_scope.

Definition dot3 (a b : Vec3f) : float :=
  v3x a * v3x b + v3y a * v3y b + v3z a * v3z b.
(** [M * v] *)
Definition mat33_mul_vec (M : Mat33f) (x : Vec3f) : Vec3f :=
  V3 (dot3 (row0 M) x) (dot3 (row1 M) x) (dot3 (row2 M) x).
Definition vec3_add (a b : Vec3f) : Vec3f :=
  V3 (v3x a + v3x b) (v3y a + v3y b) (v3z a + v3z b).
Definition vec3_scale (a : Vec3f) (s : float) : Vec3f :=
  V3 (v3x a * s) (v3y a * s) (v3z a * s).
Definition vec2_scale (a : Vec2f) (s : float) : Vec2f :=
  V2 (v2x a * s) (v2y a * s).
(** [M.topLeftCorner<2,2>()] *)
Definition topLeftCorner22 (M : Mat33f) : Mat22f :=
  M22 (v3x (row0 M)) (v3y (row0 M)) (v3x (row1 M)) (v3y (row1 M)).
Definition mat22_mul_vec (M : Mat22f) (x : Vec2f) : Vec2f :=
  V2 (m00 M * v2x x + m01 M * v2y x) (m10 M * v2x x + m11 M * v2y x).
Definition mat22_add (A B : Mat22f) : Mat22f :=
  M22 (m00 A + m00 B) (m01 A + m01 B) (m10 A + m10 B) (m11 A + m11 B).
(** [g * g.transpose()] *)
Definition outer2 (g : Vec2f) : Mat22f :=
  M22 (v2x g * v2x g) (v2x g * v2y g) (v2y g * v2x g) (v2y g * v2y g).
Definition squaredNorm2 (g : Vec2f) : float := v2x g * v2x g + v2y g * v2y g.
(** [x.transpose() * M * x] *)
Definition quadform2 (x : Vec2f) (M : Mat22f) : float :=
  (v2x x * m00 M + v2y x * m10 M) * v2x x + (v2x x * m01 M + v2y x * m11 M) * v2y x.
Definition mat22_zero : Mat22f := M22 F.zero F.zero F.zero F.zero.
End Eigen.

(** ** Immature points *)

Inductive ImmaturePointStatus :=
| IPS_GOOD
| IPS_OOB
| IPS_OUTLIER
| IPS_SKIPPED
| IPS_BADCONDITION
| IPS_UNINITIALIZED.

Definition status_eqb (a b : ImmaturePointStatus) : bool :=
  match a, b with
  | IPS_GOOD, IPS_GOOD | IPS_OOB, IPS_OOB | IPS_OUTLIER, IPS_OUTLIER
  | IPS_SKIPPED, IPS_SKIPPED | IPS_BADCONDITION, IPS_BADCONDITION
  | IPS_UNINITIALIZED, IPS_UNINITIALIZED => true
  | _, _ => false
  end.

(** a keyframe is referred to by a handle, as the [FrameHessian*] of the
    source *)
Definition FrameRef := nat.

Record ImmaturePoint := mkImmaturePoint {
  color : list float;               (* float color[MAX_RES_PER_POINT] *)
  weights : list float;             (* float weights[MAX_RES_PER_POINT] *)
  gradH : Mat22f;
  energyTH : float;
  u : float;
  v : float;
  host : FrameRef;
  idxInImmaturePoints : Z;
  quality : float;
  point_type : float;
  idepth_min : float;
  idepth_max : float;
  idepth_GT : float;
  lastTraceStatus : ImmaturePointStatus;
  lastTraceUV : Vec2f;
  lastTracePixelInterval : float
}.

(** field assignments *)
Definition set_trace (p : ImmaturePoint) (uv : Vec2f) (w : float)
    (st : ImmaturePointStatus) : ImmaturePoint :=
  mkImmaturePoint (color p) (weights p) (gradH p) (energyTH p) (u p) (v p)
    (host p) (idxInImmaturePoints p) (quality p) (point_type p)
    (idepth_min p) (idepth_max p) (idepth_GT p) st uv w.

Definition set_quality (p : ImmaturePoint) (q : float) : ImmaturePoint :=
  mkImmaturePoint (color p) (weights p) (gradH p) (energyTH p) (u p) (v p)
    (host p) (idxInImmaturePoints p) q (point_type p)
    (idepth_min p) (idepth_max p) (idepth_GT p) (lastTraceStatus p)
    (lastTraceUV p) (lastTracePixelInterval p).

Definition set_idepth (p : ImmaturePoint) (lo hi : float) : ImmaturePoint :=
  mkImmaturePoint (color p) (weights p) (gradH p) (energyTH p) (u p) (v p)
    (host p) (idxInImmaturePoints p) (quality p) (point_type p)
    lo hi (idepth_GT p) (lastTraceStatus p)
    (lastTraceUV p) (lastTracePixelInterval p).

Definition set_idx (p : ImmaturePoint) (i : Z) : ImmaturePoint :=
  mkImmaturePoint (color p) (weights p) (gradH p) (energyTH p) (u p) (v p)
    (host p) i (quality p) (point_type p)
    (idepth_min p) (idepth_max p) (idepth_GT p) (lastTraceStatus p)
    (lastTraceUV p) (lastTracePixelInterval p).

(** ** Global settings ([util/settings.cpp], [util/globalCalib.cpp])

    These globals are defined outside the two files modelled here; the
    development is parametric in their values. *)
Record Settings := mkSettings {
  wG0 : Z;                                  (* wG[0] *)
  hG0 : Z;                                  (* hG[0] *)
  wG1 : Z;                                  (* wG[1] *)
  hG1 : Z;                                  (* hG[1] *)
  patternP : list (Z * Z);                  (* patternP[idx][0], patternP[idx][1] *)
  setting_maxPixSearch : float;
  setting_trace_stepsize : float;
  setting_trace_GNIterations : Z;
  setting_trace_GNThreshold : float;
  setting_trace_extraSlackOnTH : float;
  setting_trace_slackInterval : float;
  setting_trace_minImprovementFactor : float;
  setting_minTraceTestRadius : Z;
  setting_minTraceQuality : float;
  setting_huberTH : float;
  setting_outlierTH : float;
  setting_outlierTHSumComponent : float;
  setting_overallEnergyTHWeight : float;
  setting_desiredPointDensity : float;
  benchmark_initializerSlackFactor : float
}.

Definition patternNum (cfg : Settings) : nat := length (patternP cfg).

(** literals that occur in the sources *)
Definition f_0_2 : float := F.dec 2 (-1).            (* 0.2f *)
Definition f_1_9999 : float := F.dec 19999 (-4).     (* 1.9999f *)
Definition f_0_5 : float := F.dec 5 (-1).            (* 0.5 as an Eigen float scalar *)
Definition f_0_01 : float := to_float (D.dec 1 (-2)). (* 0.01 as an Eigen float scalar *)
Definition f_1e10 : float := to_float (D.dec 1 10).  (* (float) 1e10 *)
Definition f_1e5 : float := to_float (D.dec 1 5).    (* (float) 1e5 *)
Definition f_m1 : float := F.of_Z (-1).

Section ImmaturePointOps.
Local Open Scope f32_scope.

Variable cfg : Settings.

(** [Eigen::Vector3f* dI]: per pixel the intensity and its two
    derivatives.  The samplers of [util/globalFuncs.h] and [projectPoint]
    of [FullSystem/ResidualProjections.h] are defined outside the two files
    modelled here and are parameters; a sampler takes the image, the
    position and the image width. *)
Variable Image : Type.
Variable getInterpolatedElement31 : Image -> float -> float -> Z -> float.
Variable getInterpolatedElement33 : Image -> float -> float -> Z -> Vec3f.
Variable getInterpolatedElement33BiLin : Image -> float -> float -> Z -> Vec3f.

(** [color[idx]], [weights[idx]], [rotatetPattern[idx]] *)
Definition at_f (l : list float) (idx : nat) : float := nth idx l F.zero.
Definition at_v2 (l : list Vec2f) (idx : nat) : Vec2f := nth idx l (V2 F.zero F.zero).

(** [fabs(residual) < setting_huberTH ? 1 : setting_huberTH / fabs(residual)] *)
Definition huber_weight (residual : float) : float :=
  if F.abs residual <? setting_huberTH cfg then F.one
  else setting_huberTH cfg / F.abs residual.

(** *** Constructor, ImmaturePoint.cpp:34-63 *)

Record CtorAcc := mkCtorAcc {
  c_color : list float; c_weights : list float; c_gradH : Mat22f }.

(** the loop over the pattern; the flag is [false] after the early
    [return] on a non-finite colour *)
Fixpoint ctor_loop (dI : Image) (u v : float) (pat : list (Z * Z)) (acc : CtorAcc)
    : CtorAcc * bool :=
  match pat with
  | [] => (acc, true)
  | (dx, dy) :: pat' =>
      let ptc := getInterpolatedElement33BiLin dI
                   (u + F.of_Z dx) (v + F.of_Z dy) (wG0 cfg) in
      let c := v3x ptc in
      if negb (F.isfinite c)
      then (mkCtorAcc (c_color acc ++ [c]) (c_weights acc) (c_gradH acc), false)
      else
        let g := V2 (v3y ptc) (v3z ptc) in
        let w := F.sqrt (setting_outlierTHSumComponent cfg
                         / (setting_outlierTHSumComponent cfg + squaredNorm2 g)) in
        ctor_loop dI u v pat'
          (mkCtorAcc (c_color acc ++ [c]) (c_weights acc ++ [w])
                     (mat22_add (c_gradH acc) (outer2 g)))
  end.

(** [ImmaturePoint(u_, v_, host_, type, HCalib)].  Members the
    constructor does not assign keep the values of [raw] (they are
    indeterminate in C++); array entries it does not assign are absent
    from the lists. *)
Definition ImmaturePoint_new (raw : ImmaturePoint) (u_ v_ : Z) (host_ : FrameRef)
    (hostdI : Image) (type : float) : ImmaturePoint :=
  let '(acc, finished) :=
    ctor_loop hostdI (F.of_Z u_) (F.of_Z v_) (patternP cfg)
              (mkCtorAcc [] [] mat22_zero) in
  if finished then
    let eTH := F.of_Z (Z.of_nat (patternNum cfg)) * setting_outlierTH cfg in
    let eTH := eTH * (setting_overallEnergyTHWeight cfg
                      * setting_overallEnergyTHWeight cfg) in
    mkImmaturePoint (c_color acc) (c_weights acc) (c_gradH acc) eTH
      (F.of_Z u_) (F.of_Z v_) host_ (idxInImmaturePoints raw) (F.of_Z 10000) type
      F.zero F.nan F.zero IPS_UNINITIALIZED
      (lastTraceUV raw) (lastTracePixelInterval raw)
  else
    mkImmaturePoint (c_color acc) (c_weights acc) (c_gradH acc) F.nan
      (F.of_Z u_) (F.of_Z v_) host_ (idxInImmaturePoints raw) (quality raw) type
      F.zero F.nan (idepth_GT raw) IPS_UNINITIALIZED
      (lastTraceUV raw) (lastTracePixelInterval raw).

(** *** traceOn, ImmaturePoint.cpp:77-444 *)

(** every early exit that reports out-of-bounds *)
Definition ret_OOB (p : ImmaturePoint) : ImmaturePoint * ImmaturePointStatus :=
  (set_trace p (V2 f_m1 f_m1) F.zero IPS_OOB, IPS_OOB).

(** [x > boundU && y > boundV && x < wG[0]-boundU-1 && y < hG[0]-boundV-1] *)
Definition insideBounds (boundU boundV : Z) (x y : float) : bool :=
  (x >? F.of_Z boundU) && (y >? F.of_Z boundV)
  && (x <? F.of_Z (wG0 cfg - boundU - 1)) && (y <? F.of_Z (hG0 cfg - boundV - 1)).

Definition rotatePattern (Rplane : Mat22f) : list Vec2f :=
  map (fun d => mat22_mul_vec Rplane (V2 (F.of_Z (fst d)) (F.of_Z (snd d))))
      (patternP cfg).

Definition maxRotPatX (rot : list Vec2f) : Z :=
  fold_left (fun m r => Z.max (F.to_int (F.abs (v2x r))) m) rot 0%Z.
Definition maxRotPatY (rot : list Vec2f) : Z :=
  fold_left (fun m r => Z.max (F.to_int (F.abs (v2y r))) m) rot 0%Z.

(** energy of one step of the discrete search (lines 282-294) *)
Definition searchEnergy (p : ImmaturePoint) (frame : Image) (aff : Vec2f)
    (rot : list Vec2f) (ptx pty : float) : float :=
  fold_left
    (fun energy idx =>
       let hitColor := getInterpolatedElement31 frame
                         (ptx + v2x (at_v2 rot idx)) (pty + v2y (at_v2 rot idx))
                         (wG0 cfg) in
       if negb (F.isfinite hitColor) then add_d energy (D.dec 1 5)
       else
         let residual := hitColor - (v2x aff * at_f (color p) idx + v2y aff) in
         let hw := huber_weight residual in
         energy + hw * residual * residual * (F.of_Z 2 - hw))
    (seq 0 (patternNum cfg)) F.zero.

Record Search := mkSearch {
  s_ptx : float; s_pty : float;
  s_bestU : float; s_bestV : float; s_bestEnergy : float; s_bestIdx : Z;
  s_errors : list float }.

(** the loop [for(int i=0;i<numSteps;i++)] of lines 280-309; [n] is the
    number of iterations left *)
Fixpoint discreteSearch (p : ImmaturePoint) (frame : Image) (aff : Vec2f)
    (rot : list Vec2f) (dx dy : float) (n : nat) (i : Z) (s : Search) : Search :=
  match n with
  | O => s
  | S n' =>
      let energy := searchEnergy p frame aff rot (s_ptx s) (s_pty s) in
      let errors := s_errors s ++ [energy] in
      let s' :=
        if energy <? s_bestEnergy s
        then mkSearch (s_ptx s + dx) (s_pty s + dy) (s_ptx s) (s_pty s) energy i errors
        else mkSearch (s_ptx s + dx) (s_pty s + dy)
                      (s_bestU s) (s_bestV s) (s_bestEnergy s) (s_bestIdx s) errors in
      discreteSearch p frame aff rot dx dy n' (i + 1)%Z s'
  end.

(** best score outside a radius around the best index, lines 313-318 *)
Fixpoint secondBestLoop (bestIdx : Z) (errors : list float) (i : Z) (secondBest : float)
    : float :=
  match errors with
  | [] => secondBest
  | e :: errors' =>
      let secondBest' :=
        if ((i <? bestIdx - setting_minTraceTestRadius cfg)%Z
            || (i >? bestIdx + setting_minTraceTestRadius cfg)%Z)
           && (e <? secondBest)
        then e else secondBest in
      secondBestLoop bestIdx errors' (i + 1)%Z secondBest'
  end.

(** the pattern loop of one Gauss-Newton iteration, lines 331-353;
    [None] is the [return] on a sample outside the image *)
Record GNAcc := mkGNAcc { g_H : float; g_b : float; g_energy : float }.

Fixpoint gnPattern (p : ImmaturePoint) (frame : Image) (aff : Vec2f)
    (rot : list Vec2f) (dx dy bestU bestV : float) (idxs : list nat) (a : GNAcc)
    : option GNAcc :=
  match idxs with
  | [] => Some a
  | idx :: idxs' =>
      let posU := bestU + v2x (at_v2 rot idx) in
      let posV := bestV + v2y (at_v2 rot idx) in
      if (posU <? F.zero) || (posV <? F.zero)
         || (posU >=? F.of_Z (wG0 cfg - 1)) || (posV >=? F.of_Z (hG0 cfg - 1))
      then None
      else
        let hitColor := getInterpolatedElement33 frame posU posV (wG0 cfg) in
        if negb (F.isfinite (v3x hitColor))
        then gnPattern p frame aff rot dx dy bestU bestV idxs'
               (mkGNAcc (g_H a) (g_b a) (add_d (g_energy a) (D.dec 1 5)))
        else
          let residual := v3x hitColor - (v2x aff * at_f (color p) idx + v2y aff) in
          let dResdDist := dx * v3y hitColor + dy * v3z hitColor in
          let hw := huber_weight residual in
          let w := at_f (weights p) idx in
          gnPattern p frame aff rot dx dy bestU bestV idxs'
            (mkGNAcc (g_H a + hw * dResdDist * dResdDist)
                     (g_b a + hw * residual * dResdDist)
                     (g_energy a + w * w * hw * residual * residual * (F.of_Z 2 - hw)))
  end.

Record GN := mkGN {
  n_bestU : float; n_bestV : float; n_bestEnergy : float;
  n_uBak : float; n_vBak : float; n_stepBack : float }.

(** the loop [for(int it=0;it<setting_trace_GNIterations;it++)] of lines
    328-394; [n] is the number of iterations left, [None] the [return]
    inside the pattern loop *)
Fixpoint gnLoop (p : ImmaturePoint) (frame : Image) (aff : Vec2f)
    (rot : list Vec2f) (dx dy : float) (n : nat) (s : GN) : option GN :=
  match n with
  | O => Some s
  | S n' =>
      match gnPattern p frame aff rot dx dy (n_bestU s) (n_bestV s)
              (seq 0 (patternNum cfg)) (mkGNAcc F.one F.zero F.zero) with
      | None => None
      | Some a =>
          let s' :=
            if g_energy a >? n_bestEnergy s then
              let stepBack := mul_d (n_stepBack s) (D.dec 5 (-1)) in
              mkGN (n_uBak s + stepBack * dx) (n_vBak s + stepBack * dy)
                   (n_bestEnergy s) (n_uBak s) (n_vBak s) stepBack
            else
              let gnstepsize := F.one in
              let step := F.opp gnstepsize * g_b a / g_H a in
              let step := if lt_d step (D.dec (-5) (-1)) then to_float (D.dec (-5) (-1))
                          else if gt_d step (D.dec 5 (-1)) then to_float (D.dec 5 (-1))
                          else step in
              let step := if negb (F.isfinite step) then F.zero else step in
              mkGN (n_bestU s + step * dx) (n_bestV s + step * dy)
                   (g_energy a) (n_bestU s) (n_bestV s) step in
          if F.abs (n_stepBack s') <? setting_trace_GNThreshold cfg then Some s'
          else gnLoop p frame aff rot dx dy n' s'
      end
  end.

(** lines 419-428: the inverse depths of the pixels [errorInPixel] before
    and after the best match, along the dominant axis of the search *)
Definition reliftedInterval (pr Kt : Vec3f) (dx dy bestU bestV errorInPixel : float)
    : float * float :=
  if dx * dx >? dy * dy then
    ((v3z pr * (bestU - errorInPixel * dx) - v3x pr)
       / (v3x Kt - v3z Kt * (bestU - errorInPixel * dx)),
     (v3z pr * (bestU + errorInPixel * dx) - v3x pr)
       / (v3x Kt - v3z Kt * (bestU + errorInPixel * dx)))
  else
    ((v3z pr * (bestV - errorInPixel * dy) - v3y pr)
       / (v3y Kt - v3z Kt * (bestV - errorInPixel * dy)),
     (v3z pr * (bestV + errorInPixel * dy) - v3y pr)
       / (v3y Kt - v3z Kt * (bestV + errorInPixel * dy))).

(** line 429 *)
Definition ordered (lohi : float * float) : float * float :=
  if fst lohi >? snd lohi then (snd lohi, fst lohi) else lohi.

(** line 432 *)
Definition badInterval (lo hi : float) : bool :=
  negb (F.isfinite lo) || negb (F.isfinite hi) || (hi <? F.of_Z 0).

(** set new interval, lines 418-443 *)
Definition setNewInterval (p : ImmaturePoint) (pr Kt : Vec3f)
    (dx dy bestU bestV errorInPixel : float) : ImmaturePoint * ImmaturePointStatus :=
  let lohi := ordered (reliftedInterval pr Kt dx dy bestU bestV errorInPixel) in
  let p := set_idepth p (fst lohi) (snd lohi) in
  if badInterval (idepth_min p) (idepth_max p)
  then (set_trace p (V2 f_m1 f_m1) F.zero IPS_OUTLIER, IPS_OUTLIER)
  else (set_trace p (V2 bestU bestV) (F.of_Z 2 * errorInPixel) IPS_GOOD, IPS_GOOD).

(** energy-based outlier test, lines 401-415 *)
Definition energyGateFails (p : ImmaturePoint) (bestEnergy : float) : bool :=
  negb (bestEnergy <? energyTH p * setting_trace_extraSlackOnTH cfg).

Definition ret_energyOutlier (p : ImmaturePoint) : ImmaturePoint * ImmaturePointStatus :=
  if status_eqb (lastTraceStatus p) IPS_OUTLIER
  then (set_trace p (V2 f_m1 f_m1) F.zero IPS_OOB, IPS_OOB)
  else (set_trace p (V2 f_m1 f_m1) F.zero IPS_OUTLIER, IPS_OUTLIER).

(** the search segment in the target image, as lines 101-197 leave it *)
Record Segment := mkSegment {
  sg_pr : Vec3f; sg_ptpMin : Vec3f; sg_rot : list Vec2f;
  sg_uMin : float; sg_vMin : float; sg_uMax : float; sg_vMax : float;
  sg_dist : float }.

(** line 85 *)
Definition maxPixSearch : float :=
  F.of_Z (wG0 cfg + hG0 cfg) * setting_maxPixSearch cfg.

(** lines 101-197: project both ends of the interval; the left summand is
    an early [return] *)
Definition traceOn_segment (p : ImmaturePoint) (hostToFrame_KRKi : Mat33f)
    (hostToFrame_Kt : Vec3f) : (ImmaturePoint * ImmaturePointStatus) + Segment :=
  let pr := mat33_mul_vec hostToFrame_KRKi (V3 (u p) (v p) F.one) in
  let ptpMin := vec3_add pr (vec3_scale hostToFrame_Kt (idepth_min p)) in
  let uMin := v3x ptpMin / v3z ptpMin in
  let vMin := v3y ptpMin / v3z ptpMin in
  let rot := rotatePattern (topLeftCorner22 hostToFrame_KRKi) in
  let boundU := Z.max 4 (maxRotPatX rot + 2) in
  let boundV := Z.max 4 (maxRotPatY rot + 2) in
  if negb (insideBounds boundU boundV uMin vMin) then inl (ret_OOB p)
  else
  if F.isfinite (idepth_max p) then
    let ptpMax := vec3_add pr (vec3_scale hostToFrame_Kt (idepth_max p)) in
    let uMax := v3x ptpMax / v3z ptpMax in
    let vMax := v3y ptpMax / v3z ptpMax in
    if negb (insideBounds boundU boundV uMax vMax) then inl (ret_OOB p)
    else
    (* check their distance. everything below 2px is OK (-> skip). *)
    let dist := (uMin - uMax) * (uMin - uMax) + (vMin - vMax) * (vMin - vMax) in
    let dist := F.sqrt dist in
    if dist <? setting_trace_slackInterval cfg
    then inl (set_trace p (vec2_scale (V2 (uMax + uMin) (vMax + vMin)) f_0_5) dist
                        IPS_SKIPPED, IPS_SKIPPED)
    else inr (mkSegment pr ptpMin rot uMin vMin uMax vMax dist)
  else
    let dist := maxPixSearch in
    (* project to arbitrary depth to get direction. *)
    let ptpMax := vec3_add pr (vec3_scale hostToFrame_Kt f_0_01) in
    let uMax := v3x ptpMax / v3z ptpMax in
    let vMax := v3y ptpMax / v3z ptpMax in
    let dx := uMax - uMin in
    let dy := vMax - vMin in
    let d := F.one / F.sqrt (dx * dx + dy * dy) in
    let uMax := uMin + dist * dx * d in
    let vMax := vMin + dist * dy * d in
    (* may still be out! *)
    if negb (insideBounds boundU boundV uMax vMax) then inl (ret_OOB p)
    else inr (mkSegment pr ptpMin rot uMin vMin uMax vMax dist).

(** the pixel of the target image onto which the point projects at
    inverse depth [d] (lines 101-104 and 141-143) *)
Definition projectedPixel (p : ImmaturePoint) (KRKi : Mat33f) (Kt : Vec3f) (d : float)
    : Vec2f :=
  let pr := mat33_mul_vec KRKi (V3 (u p) (v p) F.one) in
  let ptp := vec3_add pr (vec3_scale Kt d) in
  V2 (v3x ptp / v3z ptp) (v3y ptp / v3z ptp).

(** the test of lines 126 and 146 on a projected pixel *)
Definition admissible (KRKi : Mat33f) (px : Vec2f) : bool :=
  let rot := rotatePattern (topLeftCorner22 KRKi) in
  insideBounds (Z.max 4 (maxRotPatX rot + 2)) (Z.max 4 (maxRotPatY rot + 2))
               (v2x px) (v2y px).

(** lines 157-158: the length of the projected interval *)
Definition endpointDistance (p : ImmaturePoint) (KRKi : Mat33f) (Kt : Vec3f) : float :=
  let pMin := projectedPixel p KRKi Kt (idepth_min p) in
  let pMax := projectedPixel p KRKi Kt (idepth_max p) in
  F.sqrt ((v2x pMin - v2x pMax) * (v2x pMin - v2x pMax)
          + (v2y pMin - v2y pMax) * (v2y pMin - v2y pMax)).

(** lines 211-217: [errorInPixel] before it is capped *)
Definition errorInPixel_raw (p : ImmaturePoint) (sg : Segment) : float :=
  let dx := setting_trace_stepsize cfg * (sg_uMax sg - sg_uMin sg) in
  let dy := setting_trace_stepsize cfg * (sg_vMax sg - sg_vMin sg) in
  let a := quadform2 (V2 dx dy) (gradH p) in
  let b := quadform2 (V2 dy (F.opp dx)) (gradH p) in
  f_0_2 + f_0_2 * (a + b) / a.

(** line 231 *)
Definition errorInPixel (p : ImmaturePoint) (sg : Segment) : float :=
  if errorInPixel_raw p sg >? F.of_Z 10 then F.of_Z 10 else errorInPixel_raw p sg.

(** lines 211-212 and 235-236: the unit step of the search *)
Definition search_dx (sg : Segment) : float :=
  setting_trace_stepsize cfg * (sg_uMax sg - sg_uMin sg) / sg_dist sg.
Definition search_dy (sg : Segment) : float :=
  setting_trace_stepsize cfg * (sg_vMax sg - sg_vMin sg) / sg_dist sg.

(** lines 248-255 and 278; lines 250-251 also move [uMax] and [vMax],
    which are not read again *)
Definition numSteps (sg : Segment) : Z :=
  let dist := if sg_dist sg >? maxPixSearch then maxPixSearch else sg_dist sg in
  let numSteps := F.to_int (f_1_9999 + dist / setting_trace_stepsize cfg) in
  if (numSteps >=? 100)%Z then 99%Z else numSteps.

(** lines 257-259 and 275-309: the discrete search *)
Definition traceOn_discrete (p : ImmaturePoint) (frame : Image) (aff : Vec2f)
    (sg : Segment) : Search :=
  let dx := search_dx sg in
  let dy := search_dy sg in
  let randShift := sg_uMin sg * F.of_Z 1000 - F.floor (sg_uMin sg * F.of_Z 1000) in
  let ptx := sg_uMin sg - randShift * dx in
  let pty := sg_vMin sg - randShift * dy in
  discreteSearch p frame aff (sg_rot sg) dx dy (Z.to_nat (numSteps sg)) 0%Z
    (mkSearch ptx pty F.zero F.zero f_1e10 (-1)%Z []).

(** lines 312-320: the quality score *)
Definition traceOn_quality (p : ImmaturePoint) (sg : Segment) (s : Search)
    : ImmaturePoint :=
  let secondBest := secondBestLoop (s_bestIdx s) (s_errors s) 0%Z f_1e10 in
  let newQuality := secondBest / s_bestEnergy s in
  if (newQuality <? quality p) || (numSteps sg >? 10)%Z
  then set_quality p newQuality else p.

(** lines 325-394: the Gauss-Newton refinement of the best match *)
Definition traceOn_GN (p : ImmaturePoint) (frame : Image) (aff : Vec2f)
    (sg : Segment) (s : Search) : option GN :=
  let bestEnergy := if (setting_trace_GNIterations cfg >? 0)%Z
                    then f_1e5 else s_bestEnergy s in
  gnLoop p frame aff (sg_rot sg) (search_dx sg) (search_dy sg)
    (Z.to_nat (setting_trace_GNIterations cfg))
    (mkGN (s_bestU s) (s_bestV s) bestEnergy (s_bestU s) (s_bestV s) F.zero).

(** lines 200-444: from the scale gate to the end *)
Definition traceOn_search (p : ImmaturePoint) (frame : Image) (Kt : Vec3f)
    (aff : Vec2f) (sg : Segment) : ImmaturePoint * ImmaturePointStatus :=
  (* set OOB if scale change too big. *)
  if negb ((idepth_min p <? F.of_Z 0)
           || (gt_d (v3z (sg_ptpMin sg)) (D.dec 75 (-2))
               && lt_d (v3z (sg_ptpMin sg)) (D.dec 15 (-1))))
  then ret_OOB p
  else
  (* if the new interval is not at least 1/2 of the old, SKIP *)
  if (errorInPixel_raw p sg * setting_trace_minImprovementFactor cfg >? sg_dist sg)
     && F.isfinite (idepth_max p)
  then (set_trace p (vec2_scale (V2 (sg_uMax sg + sg_uMin sg)
                                    (sg_vMax sg + sg_vMin sg)) f_0_5)
                  (sg_dist sg) IPS_BADCONDITION, IPS_BADCONDITION)
  else
  if negb (F.isfinite (search_dx sg)) || negb (F.isfinite (search_dy sg))
  then ret_OOB p
  else
  let s := traceOn_discrete p frame aff sg in
  let p := traceOn_quality p sg s in
  match traceOn_GN p frame aff sg s with
  | None => ret_OOB p
  | Some g =>
      (* energy-based outlier *)
      if energyGateFails p (n_bestEnergy g) then ret_energyOutlier p
      else setNewInterval p (sg_pr sg) Kt (search_dx sg) (search_dy sg)
             (n_bestU g) (n_bestV g) (errorInPixel p sg)
  end.

(** [ImmaturePoint::traceOn(frame, hostToFrame_KRKi, hostToFrame_Kt,
    hostToFrame_affine, HCalib, debugPrint)]: the point after the call and
    the returned status.  [debugPrint] is forced to [false] and [HCalib] is
    not read; [assert]s are not modelled. *)
Definition traceOn (p : ImmaturePoint) (frame : Image) (hostToFrame_KRKi : Mat33f)
    (hostToFrame_Kt : Vec3f) (hostToFrame_affine : Vec2f)
    : ImmaturePoint * ImmaturePointStatus :=
  if status_eqb (lastTraceStatus p) IPS_OOB then (p, lastTraceStatus p)
  else
    match traceOn_segment p hostToFrame_KRKi hostToFrame_Kt with
    | inl r => r
    | inr sg => traceOn_search p frame hostToFrame_Kt hostToFrame_affine sg
    end.

(** *** calcResidual, ImmaturePoint.cpp:467-501 *)

(** the entries of [host->targetPrecalc[tmpRes->target->idx]] that are read *)
Record FrameFramePrecalc := mkPrecalc {
  PRE_KRKiTll : Mat33f; PRE_KtTll : Vec3f; PRE_aff_mode : Vec2f }.

(** [projectPoint(u_pt, v_pt, idepth, KRKi, Kt, Ku, Kv)] of
    [ResidualProjections.h]: [None] when it returns [false], else the
    projected pixel [(Ku, Kv)] *)
Variable projectPoint : float -> float -> float -> Mat33f -> Vec3f -> option (float * float).

(** the loop over the pattern; [None] is either [return 1e10] *)
Fixpoint calcResidual_loop (p : ImmaturePoint) (dIl : Image)
    (precalc : FrameFramePrecalc) (idepth : float)
    (idx : nat) (pat : list (Z * Z)) (energyLeft : float) : option float :=
  match pat with
  | [] => Some energyLeft
  | d :: pat' =>
      match projectPoint (u p + F.of_Z (fst d)) (v p + F.of_Z (snd d)) idepth
              (PRE_KRKiTll precalc) (PRE_KtTll precalc) with
      | None => None
      | Some (Ku, Kv) =>
          let hitColor := getInterpolatedElement33 dIl Ku Kv (wG0 cfg) in
          if negb (F.isfinite (v3x hitColor)) then None
          else
            let affLL := PRE_aff_mode precalc in
            let residual := v3x hitColor - (v2x affLL * at_f (color p) idx + v2y affLL) in
            let hw := huber_weight residual in
            let w := at_f (weights p) idx in
            calcResidual_loop p dIl precalc idepth (S idx) pat'
              (energyLeft + w * w * hw * residual * residual * (F.of_Z 2 - hw))
      end
  end.

(** [ImmaturePoint::calcResidual(HCalib, outlierTHSlack, tmpRes, idepth)];
    [dIl] is [tmpRes->target->dI] *)
Definition calcResidual (p : ImmaturePoint) (outlierTHSlack : float)
    (precalc : FrameFramePrecalc) (dIl : Image) (idepth : float) : float :=
  match calcResidual_loop p dIl precalc idepth 0 (patternP cfg) F.zero with
  | None => f_1e10
  | Some energyLeft =>
      if energyLeft >? energyTH p * outlierTHSlack
      then energyTH p * outlierTHSlack
      else energyLeft
  end.

End ImmaturePointOps.

(** ** FullSystem *)

Global Instance float_inhabited : Inhabited float := populate F.zero.

(** *** setGammaFunction, FullSystem.cpp:227-252 *)

(** the gamma tables of [CalibHessian] *)
Record CalibHessian := mkCalib {
  Binv : list float;      (* float Binv[256] *)
  B : list float          (* float B[256] *)
}.

Section Gamma.
Local Open Scope f32_scope.

Definition of_nat (n : nat) : float := F.of_Z (Z.of_nat n).

(** [BInv[s] <= i && BInv[s+1] >= i] *)
Definition gamma_brackets (BInv : list float) (i s : nat) : bool :=
  (BInv !!! s <=? of_nat i) && (BInv !!! (S s) >=? of_nat i).

(** [s+(i - BInv[s]) / (BInv[s+1]-BInv[s])] *)
Definition gamma_interp (BInv : list float) (i s : nat) : float :=
  of_nat s + (of_nat i - BInv !!! s) / (BInv !!! (S s) - BInv !!! s).

(** the inner loop over [s], left at the first hit *)
Fixpoint gamma_inner (BInv : list float) (i : nat) (ss : list nat) (Bt : list float)
    : list float :=
  match ss with
  | [] => Bt
  | s :: ss' =>
      if gamma_brackets BInv i s then <[i := gamma_interp BInv i s]> Bt
      else gamma_inner BInv i ss' Bt
  end.

(** the outer loop over [i] *)
Definition gamma_outer (BInv : list float) (idxs : list nat) (Bt : list float)
    : list float :=
  fold_left (fun Bt i => gamma_inner BInv i (seq 1 254) Bt) idxs Bt.

(** [FullSystem::setGammaFunction(float* BInv)]; [None] is the null
    pointer.  [memcpy] copies the first 256 entries. *)
Definition setGammaFunction (Hcalib : CalibHessian) (BInv : option (list float))
    : CalibHessian :=
  match BInv with
  | None => Hcalib
  | Some BInv =>
      let Bt := gamma_outer BInv (seq 1 254) (B Hcalib) in
      let Bt := <[0%nat := F.of_Z 0]> Bt in
      let Bt := <[255%nat := F.of_Z 255]> Bt in
      mkCalib (take 256 BInv ++ drop 256 (Binv Hcalib)) Bt
  end.
End Gamma.

(** *** Initialisation check of makeKeyFrame, FullSystem.cpp:1426-1444 *)

(** the value of [initFailed] after the block; [nKF] is
    [allKeyFramesHistory.size()], [rmse] the result of [optimize] *)
Definition makeKeyFrame_initCheck (cfg : Settings) (nKF : nat) (rmse : float)
    (initFailed : bool) : bool :=
  if (nKF <=? 4)%nat then
    let initFailed :=
      if (nKF =? 2)%nat
         && F.gtb rmse (F.mul (F.of_Z 20) (benchmark_initializerSlackFactor cfg))
      then true else initFailed in
    let initFailed :=
      if (nKF =? 3)%nat
         && F.gtb rmse (F.mul (F.of_Z 13) (benchmark_initializerSlackFactor cfg))
      then true else initFailed in
    let initFailed :=
      if (nKF =? 4)%nat
         && F.gtb rmse (F.mul (F.of_Z 9) (benchmark_initializerSlackFactor cfg))
      then true else initFailed in
    initFailed
  else initFailed.

(** *** Density control of activatePointsMT, FullSystem.cpp:612-631 *)

(** [nPoints] is [ef->nPoints]; the products with an unsuffixed literal
    and the compound assignments are evaluated in [double] *)
Definition adjustMinActDist (cfg : Settings) (nPoints : Z) (currentMinActDist : float)
    : float :=
  let dens := setting_desiredPointDensity cfg in
  let below (k : double) := D.ltb (D.of_Z nPoints) (D.mul (to_double dens) k) in
  let above (k : double) := D.ltb (D.mul (to_double dens) k) (D.of_Z nPoints) in
  let c := currentMinActDist in
  let c := if below (D.dec 66 (-2)) then sub_d c (D.dec 8 (-1)) else c in
  let c := if below (D.dec 8 (-1)) then sub_d c (D.dec 5 (-1))
           else if below (D.dec 9 (-1)) then sub_d c (D.dec 2 (-1))
           else if F.ltb (F.of_Z nPoints) dens then sub_d c (D.dec 1 (-1))
           else c in
  let c := if above (D.dec 15 (-1)) then add_d c (D.dec 8 (-1)) else c in
  let c := if above (D.dec 13 (-1)) then add_d c (D.dec 5 (-1)) else c in
  let c := if above (D.dec 115 (-2)) then add_d c (D.dec 2 (-1)) else c in
  let c := if F.gtb (F.of_Z nPoints) dens then add_d c (D.dec 1 (-1)) else c in
  let c := if F.ltb c (F.of_Z 0) then F.of_Z 0 else c in
  let c := if F.gtb c (F.of_Z 4) then F.of_Z 4 else c in
  c.

(** the constructor's [currentMinActDist=2], FullSystem.cpp:165 *)
Definition currentMinActDist_init : float := F.of_Z 2.

(** *** Active points and keyframes *)

Inductive PtStatus := ACTIVE | INACTIVE | OUTLIER | OOB | MARGINALIZED.

(** a residual is referred to by a handle *)
Definition PointFrameResidual := nat.

(** the members of [PointHessian] that the functions below touch *)
Record PointHessian := mkPointHessian {
  ph_host : FrameRef;
  ph_energyTH : float;
  idepth_scaled : float;
  idepth : float;
  idepth_zero : float;
  hasDepthPrior : bool;
  status : PtStatus;
  residuals : list PointFrameResidual
}.

(** [immaturePoints[i] = nullptr] is [None] *)
Record FrameHessian := mkFrameHessian {
  fh_ref : FrameRef;
  flaggedForMarginalization : bool;
  pointHessians : list PointHessian;
  immaturePoints : list (option ImmaturePoint)
}.

Definition set_immaturePoints (fh : FrameHessian) (l : list (option ImmaturePoint))
    : FrameHessian :=
  mkFrameHessian (fh_ref fh) (flaggedForMarginalization fh) (pointHessians fh) l.

Definition push_pointHessian (fh : FrameHessian) (ph : PointHessian) : FrameHessian :=
  mkFrameHessian (fh_ref fh) (flaggedForMarginalization fh) (pointHessians fh ++ [ph])
    (immaturePoints fh).

(** dereferencing a [FrameHessian*] in the window *)
Definition deref (frames : list FrameHessian) (r : FrameRef) : option FrameHessian :=
  find (fun fh => Nat.eqb (fh_ref fh) r) frames.

(** assignment through a [FrameHessian*] *)
Definition update (frames : list FrameHessian) (r : FrameRef)
    (f : FrameHessian -> FrameHessian) : list FrameHessian :=
  map (fun fh => if Nat.eqb (fh_ref fh) r then f fh else fh) frames.

(** *** The activation pass, FullSystem.cpp:608-776 *)

Section Activation.
Local Open Scope f32_scope.

Variable cfg : Settings.

(** [CoarseDistanceMap], [EnergyFunctional], the relative pose of a host
    and the newest keyframe and the point optimiser are defined outside the
    two files modelled here *)
Variable DistanceMap : Type.
Variable makeDistanceMap : list FrameHessian -> FrameHessian -> DistanceMap.
Variable fwdWarpedIDDistFinal : DistanceMap -> Z -> float.
Variable addIntoDistFinal : DistanceMap -> Z -> Z -> DistanceMap.
Variable EnergyFunctional : Type.
Variable nPoints : EnergyFunctional -> Z.
Variable insertPoint : EnergyFunctional -> PointHessian -> EnergyFunctional.
Variable insertResidual : EnergyFunctional -> PointFrameResidual -> EnergyFunctional.
(** [KRKi] and [Kt] of lines 654-656 for a host and the newest keyframe *)
Variable hostToNew : FrameHessian -> FrameHessian -> Mat33f * Vec3f.

(** result of [optimizeImmaturePoint]: a new point, the null pointer or
    the sentinel [(PointHessian* )((long)(-1))] *)
Inductive Optimized := Opt_point (ph : PointHessian) | Opt_null | Opt_minus1.
Variable optimizeImmaturePoint : list FrameHessian -> ImmaturePoint -> Optimized.

(** [immature_point->host->flaggedForMarginalization] *)
Definition host_flagged (frames : list FrameHessian) (p : ImmaturePoint) : bool :=
  match deref frames (host p) with
  | Some fh => flaggedForMarginalization fh
  | None => false
  end.

(** lines 675-681 *)
Definition canActivate (p : ImmaturePoint) : bool :=
  (status_eqb (lastTraceStatus p) IPS_GOOD
   || status_eqb (lastTraceStatus p) IPS_SKIPPED
   || status_eqb (lastTraceStatus p) IPS_BADCONDITION
   || status_eqb (lastTraceStatus p) IPS_OOB)
  && (lastTracePixelInterval p <? F.of_Z 8)
  && (quality p >? setting_minTraceQuality cfg)
  && (idepth_max p + idepth_min p >? F.of_Z 0).

Record Act := mkAct { a_dm : DistanceMap; a_toOptimize : list ImmaturePoint }.

(** the body of the loop over [host->immaturePoints], lines 661-719: the
    entry left at index [i], the distance map and [toOptimize] *)
Definition activatePoint (frames : list FrameHessian) (KRKi : Mat33f) (Kt : Vec3f)
    (currentMinActDist : float) (i : Z) (immature_point : ImmaturePoint) (st : Act)
    : option ImmaturePoint * Act :=
  let p := set_idx immature_point i in
  (* delete points that have never been traced successfully, or that are
     outlier on the last trace. *)
  if negb (F.isfinite (idepth_max p)) || status_eqb (lastTraceStatus p) IPS_OUTLIER
  then (None, st)
  else
  (* if I cannot activate the point, skip it. Maybe also delete it. *)
  if negb (canActivate p) then
    if host_flagged frames p || status_eqb (lastTraceStatus p) IPS_OOB
    then (None, st)
    else (Some p, st)
  else
  (* see if we need to activate point due to distance map. *)
  let ptp := vec3_add (mat33_mul_vec KRKi (V3 (u p) (v p) F.one))
               (vec3_scale Kt (f_0_5 * (idepth_max p + idepth_min p))) in
  let iu := F.to_int (v3x ptp / v3z ptp + f_0_5) in
  let iv := F.to_int (v3y ptp / v3z ptp + f_0_5) in
  if (iu >? 0)%Z && (iv >? 0)%Z && (iu <? wG1 cfg)%Z && (iv <? hG1 cfg)%Z then
    let dist := fwdWarpedIDDistFinal (a_dm st) (iu + wG1 cfg * iv)
                + (v3x ptp - F.floor (v3x ptp)) in
    if dist >=? currentMinActDist * point_type p
    then (Some p, mkAct (addIntoDistFinal (a_dm st) iu iv) (a_toOptimize st ++ [p]))
    else (Some p, st)
  else (None, st).

(** the loop over the immature points of one host; an entry that is
    already null cannot occur here and is passed over *)
Fixpoint activateHost (frames : list FrameHessian) (KRKi : Mat33f) (Kt : Vec3f)
    (currentMinActDist : float) (i : Z) (pts : list (option ImmaturePoint)) (st : Act)
    : list (option ImmaturePoint) * Act :=
  match pts with
  | [] => ([], st)
  | None :: pts' =>
      let '(out, st') := activateHost frames KRKi Kt currentMinActDist (i + 1)%Z pts' st in
      (None :: out, st')
  | Some p :: pts' =>
      let '(slot, st1) := activatePoint frames KRKi Kt currentMinActDist i p st in
      let '(out, st') := activateHost frames KRKi Kt currentMinActDist (i + 1)%Z pts' st1 in
      (slot :: out, st')
  end.

(** the loop over [frameHessians], lines 650-721; [frames] is the window
    as it was on entry, [todo] the hosts still to visit *)
Fixpoint activateFrames (frames : list FrameHessian) (latest : FrameHessian)
    (currentMinActDist : float) (todo : list FrameHessian) (st : Act)
    : list FrameHessian * Act :=
  match todo with
  | [] => ([], st)
  | fh :: todo' =>
      if Nat.eqb (fh_ref fh) (fh_ref latest) then
        let '(out, st') := activateFrames frames latest currentMinActDist todo' st in
        (fh :: out, st')
      else
        let '(KRKi, Kt) := hostToNew fh latest in
        let '(pts, st1) :=
          activateHost frames KRKi Kt currentMinActDist 0%Z (immaturePoints fh) st in
        let '(out, st') := activateFrames frames latest currentMinActDist todo' st1 in
        (set_immaturePoints fh pts :: out, st')
  end.

(** [host->immaturePoints[idx] = nullptr] through a host pointer *)
Definition clearSlot (frames : list FrameHessian) (r : FrameRef) (idx : Z)
    : list FrameHessian :=
  update frames r
    (fun fh => set_immaturePoints fh (<[Z.to_nat idx := None]> (immaturePoints fh))).

(** the body of the loop over [toOptimize], lines 737-758 *)
Definition commitOptimized (sys : list FrameHessian * EnergyFunctional)
    (point_hessian : ImmaturePoint) (newpoint : Optimized)
    : list FrameHessian * EnergyFunctional :=
  let '(frames, ef) := sys in
  match newpoint with
  | Opt_point ph =>
      let frames := clearSlot frames (ph_host ph) (idxInImmaturePoints point_hessian) in
      let frames := update frames (ph_host ph) (fun fh => push_pointHessian fh ph) in
      let ef := insertPoint ef ph in
      let ef := fold_left insertResidual (residuals ph) ef in
      (frames, ef)
  | Opt_minus1 =>
      (clearSlot frames (host point_hessian) (idxInImmaturePoints point_hessian), ef)
  | Opt_null =>
      if status_eqb (lastTraceStatus point_hessian) IPS_OOB
      then (clearSlot frames (host point_hessian) (idxInImmaturePoints point_hessian), ef)
      else (frames, ef)
  end.

(** removal of the null entries of one host, lines 764-772: a null
    entry is overwritten with the last one, which is popped; [n] bounds the
    number of iterations *)
Fixpoint compactLoop (n : nat) (i : nat) (l : list (option ImmaturePoint))
    : list (option ImmaturePoint) :=
  match n with
  | O => l
  | S n' =>
      match l !! i with
      | None => l
      | Some (Some _) => compactLoop n' (S i) l
      | Some None =>
          compactLoop n' i
            (take (pred (length l)) (<[i := default None (last l)]> l))
      end
  end.

Definition compact (l : list (option ImmaturePoint)) : list (option ImmaturePoint) :=
  compactLoop (length l) 0 l.

(** [FullSystem::activatePointsMT()] on the window, [currentMinActDist]
    and the energy functional *)
Definition activatePointsMT (frameHessians : list FrameHessian)
    (currentMinActDist : float) (ef : EnergyFunctional)
    : list FrameHessian * float * EnergyFunctional :=
  let currentMinActDist := adjustMinActDist cfg (nPoints ef) currentMinActDist in
  match last frameHessians with
  | None => (frameHessians, currentMinActDist, ef)
  | Some latest_frame_hessian =>
      let dm := makeDistanceMap frameHessians latest_frame_hessian in
      let '(frames, st) :=
        activateFrames frameHessians latest_frame_hessian currentMinActDist
          frameHessians (mkAct dm []) in
      let toOptimize := a_toOptimize st in
      let optimized := map (optimizeImmaturePoint frames) toOptimize in
      let '(frames, ef) :=
        fold_left (fun sys po => commitOptimized sys (fst po) (snd po))
                  (combine toOptimize optimized) (frames, ef) in
      (map (fun fh => set_immaturePoints fh (compact (immaturePoints fh))) frames,
       currentMinActDist, ef)
  end.

End Activation.

(** *** initializeFromInitializer, FullSystem.cpp:1553-1648 *)

Record Vec3d := V3d { d3x : double; d3y : double; d3z : double }.

(** a candidate of the coarse initialiser *)
Record Pnt := mkPnt { pnt_u : float; pnt_v : float; iR : float; pnt_type : float }.

Section Initializer.
Local Open Scope f32_scope.

Variable cfg : Settings.
Variable Image : Type.
Variable getInterpolatedElement33BiLin : Image -> float -> float -> Z -> Vec3f.
(** [PointHessian(rawPoint, Hcalib)] of [HessianBlocks.cpp], the constant
    [SCALE_IDEPTH_INVERSE], [RAND_MAX] and the sequence of values of
    [rand()] are declared outside the two files modelled here *)
Variable PointHessian_new : ImmaturePoint -> PointHessian.
Variable SCALE_IDEPTH_INVERSE : float.
Variable RAND_MAX : Z.
Variable rand : nat -> Z.
(** the indeterminate members of a fresh [ImmaturePoint] *)
Variable raw : ImmaturePoint.

(** Modelled from the spec: the inline setters of [HessianBlocks.h] are
    missing; [setIdepthScaled] stores the inverse depth it is given and
    its unscaled value, [setIdepthZero] the linearisation point. *)
Definition setIdepthScaled (ph : PointHessian) (x : float) : PointHessian :=
  mkPointHessian (ph_host ph) (ph_energyTH ph) x (SCALE_IDEPTH_INVERSE * x)
    (idepth_zero ph) (hasDepthPrior ph) (status ph) (residuals ph).
Definition setIdepthZero (ph : PointHessian) (x : float) : PointHessian :=
  mkPointHessian (ph_host ph) (ph_energyTH ph) (idepth_scaled ph) (idepth ph)
    x (hasDepthPrior ph) (status ph) (residuals ph).
Definition set_prior_status (ph : PointHessian) (b : bool) (s : PtStatus) : PointHessian :=
  mkPointHessian (ph_host ph) (ph_energyTH ph) (idepth_scaled ph) (idepth ph)
    (idepth_zero ph) b s (residuals ph).

Definition f_1em5 : float := to_float (D.dec 1 (-5)).   (* float x = 1e-5 *)

(** lines 1573-1582: [sumID] and [numID] after the loop *)
Definition sumID_numID (points : list Pnt) : float * float :=
  fold_left (fun acc pt => (fst acc + iR pt, snd acc + F.one)) points (f_1em5, f_1em5).

(** lines 1587-1589 *)
Definition rescaleFactor (points : list Pnt) : float :=
  let '(sumID, numID) := sumID_numID points in
  F.of_Z 1 / (sumID / numID).

(** line 1593, [firstToNew.translation() /= rescaleFactor] *)
Definition rescaleTranslation (t : Vec3d) (rescale : float) : Vec3d :=
  V3d (D.div (d3x t) (to_double rescale)) (D.div (d3y t) (to_double rescale))
      (D.div (d3z t) (to_double rescale)).

(** lines 1604-1620 for one candidate: [None] on each [continue];
    [k] counts the calls of [rand()] *)
Definition makeActivePoint (firstFrame : FrameRef) (dI : Image)
    (keepPercentage rescale : float) (k : nat) (point : Pnt) : option PointHessian :=
  if F.of_Z (rand k) / F.of_Z RAND_MAX >? keepPercentage then None
  else
    let pt := ImmaturePoint_new cfg Image getInterpolatedElement33BiLin raw
                (F.to_int (pnt_u point + f_0_5)) (F.to_int (pnt_v point + f_0_5))
                firstFrame dI (pnt_type point) in
    if negb (F.isfinite (energyTH pt)) then None
    else
      let pt := set_idepth pt (F.of_Z 1) (F.of_Z 1) in
      let ph := PointHessian_new pt in
      if negb (F.isfinite (ph_energyTH ph)) then None
      else
        let ph := setIdepthScaled ph (iR point * rescale) in
        let ph := setIdepthZero ph (idepth ph) in
        Some (set_prior_status ph true ACTIVE).

(** the loop of lines 1602-1624: the points pushed to
    [firstFrame->pointHessians], in order *)
Fixpoint makeActivePoints (firstFrame : FrameRef) (dI : Image)
    (keepPercentage rescale : float) (k : nat) (points : list Pnt)
    : list PointHessian :=
  match points with
  | [] => []
  | point :: points' =>
      match makeActivePoint firstFrame dI keepPercentage rescale k point with
      | None => makeActivePoints firstFrame dI keepPercentage rescale (S k) points'
      | Some ph =>
          ph :: makeActivePoints firstFrame dI keepPercentage rescale (S k) points'
      end
  end.

Record Initialized := mkInitialized {
  init_rescaleFactor : float;
  init_firstToNew_translation : Vec3d;
  init_pointHessians : list PointHessian
}.

(** the part of [initializeFromInitializer] between lines 1573 and 1624;
    [points] is [coarseInitializer->points[0]] with its
    [numPoints[0]] entries, [thisToNext_t] the translation of
    [coarseInitializer->thisToNext] *)
Definition initializeFromInitializer (firstFrame : FrameRef) (dI : Image)
    (points : list Pnt) (thisToNext_t : Vec3d) : Initialized :=
  let rescale := rescaleFactor points in
  let keepPercentage :=
    setting_desiredPointDensity cfg / F.of_Z (Z.of_nat (length points)) in
  mkInitialized rescale (rescaleTranslation thisToNext_t rescale)
    (makeActivePoints firstFrame dI keepPercentage rescale 0 points).

End Initializer.

(** *** Runs of the activation pass *)

Section ActivationRuns.
Variable cfg : Settings.
Variable DistanceMap : Type.
Variable makeDistanceMap : list FrameHessian -> FrameHessian -> DistanceMap.
Variable fwdWarpedIDDistFinal : DistanceMap -> Z -> float.
Variable addIntoDistFinal : DistanceMap -> Z -> Z -> DistanceMap.
Variable EnergyFunctional : Type.
Variable nPoints : EnergyFunctional -> Z.
Variable insertPoint : EnergyFunctional -> PointHessian -> EnergyFunctional.
Variable insertResidual : EnergyFunctional -> PointFrameResidual -> EnergyFunctional.
Variable hostToNew : FrameHessian -> FrameHessian -> Mat33f * Vec3f.
Variable optimizeImmaturePoint : list FrameHessian -> ImmaturePoint -> Optimized.

(** [currentMinActDist] is written by the constructor and by
    [activatePointsMT] only.  Its value after a sequence of activation
    passes, each entered with the window and the energy functional that
    the rest of the system has produced by then: *)
Fixpoint currentMinActDist_after (calls : list (list FrameHessian * EnergyFunctional))
    (currentMinActDist : float) : float :=
  match calls with
  | [] => currentMinActDist
  | (frameHessians, ef) :: calls' =>
      currentMinActDist_after calls'
        (snd (fst (activatePointsMT cfg DistanceMap makeDistanceMap
                     fwdWarpedIDDistFinal addIntoDistFinal EnergyFunctional nPoints
                     insertPoint insertResidual hostToNew optimizeImmaturePoint
                     frameHessians currentMinActDist ef)))
  end.
End ActivationRuns.

(** *** Vocabulary of the activation pass *)

(** a point the pass deletes at once (line 665) *)
Definition dropped (p : ImmaturePoint) : Prop :=
  F.isfinite (idepth_max p) = false \/ lastTraceStatus p = IPS_OUTLIER.

(** a point that may be activated *)
Definition eligible (cfg : Settings) (p : ImmaturePoint) : Prop :=
  (lastTraceStatus p = IPS_GOOD \/ lastTraceStatus p = IPS_SKIPPED
   \/ lastTraceStatus p = IPS_BADCONDITION \/ lastTraceStatus p = IPS_OOB)
  /\ F.ltb (lastTracePixelInterval p) (F.of_Z 8) = true
  /\ F.gtb (quality p) (setting_minTraceQuality cfg) = true
  /\ F.gtb (F.add (idepth_max p) (idepth_min p)) (F.of_Z 0) = true.

(** the entry an ineligible point leaves in [host->immaturePoints] *)
Definition ineligible_entry (frames : list FrameHessian) (p : ImmaturePoint) (i : Z)
    : option ImmaturePoint :=
  if host_flagged frames p || status_eqb (lastTraceStatus p) IPS_OOB
  then None else Some (set_idx p i).

(** *** Vocabulary of calcResidual and of the initialiser *)

Section ResidualVocabulary.
Variable cfg : Settings.
Variable Image : Type.
Variable getInterpolatedElement33 : Image -> float -> float -> Z -> Vec3f.
Variable projectPoint : float -> float -> float -> Mat33f -> Vec3f -> option (float * float).

(** the pattern pixel with offset [d] cannot be used: its projection
    fails or the colour it hits is not finite *)
Definition pixelFails (p : ImmaturePoint) (dIl : Image) (precalc : FrameFramePrecalc)
    (idepth : float) (d : Z * Z) : Prop :=
  match projectPoint (F.add (u p) (F.of_Z (fst d))) (F.add (v p) (F.of_Z (snd d))) idepth
          (PRE_KRKiTll precalc) (PRE_KtTll precalc) with
  | None => True
  | Some (Ku, Kv) =>
      F.isfinite (v3x (getInterpolatedElement33 dIl Ku Kv (wG0 cfg))) = false
  end.
(** the data [calcResidual] reads are well-formed numbers and the Huber
    threshold is a positive finite number *)
Definition residualInputsValid (p : ImmaturePoint) (dIl : Image)
    (precalc : FrameFramePrecalc) : Prop :=
  valid32 (setting_huberTH cfg) /\ F.isfinite (setting_huberTH cfg) = true
  /\ F.ltb F.zero (setting_huberTH cfg) = true
  /\ valid32 (v2x (PRE_aff_mode precalc)) /\ valid32 (v2y (PRE_aff_mode precalc))
  /\ Forall valid32 (color p)
  /\ forall x y : float, valid32 (v3x (getInterpolatedElement33 dIl x y (wG0 cfg))).
End ResidualVocabulary.

(** a sum and a count accumulated in [float], in index order *)
Definition float_sum (init : float) (l : list float) : float := fold_left F.add l init.
Definition float_count (init : float) (n : nat) : float :=
  Nat.iter n (fun x => F.add x F.one) init.

(** the mean as the specification words it: the sum of the [iR] over
    their number *)
Definition mean_iR (points : list Pnt) : float :=
  F.div (float_sum F.zero (map iR points)) (of_nat (length points)).

(** the interval [0, 4] of [currentMinActDist] *)
Definition in_0_4 (c : float) : Prop :=
  F.leb (F.of_Z 0) c = true /\ F.leb c (F.of_Z 4) = true.

(** the point at index [k] of a host, as the loop enqueues it *)
Definition enqueued (cfg : Settings) (pts : list (option ImmaturePoint)) (i0 : Z)
    (q : ImmaturePoint) : Prop :=
  exists (k : nat) (p : ImmaturePoint),
    pts !! k = Some (Some p) /\ q = set_idx p (i0 + Z.of_nat k)
    /\ ~ dropped p /\ eligible cfg p.

(** *** Vocabulary of the trace *)

Section TraceVocabulary.
Variable cfg : Settings.
Variable Image : Type.
Variable getInterpolatedElement31 : Image -> float -> float -> Z -> float.
Variable getInterpolatedElement33 : Image -> float -> float -> Z -> Vec3f.

(** the ways [traceOn] comes back *)
Inductive Exit (p : ImmaturePoint) (frame : Image) (KRKi : Mat33f) (Kt : Vec3f)
    (aff : Vec2f) (r : ImmaturePoint * ImmaturePointStatus) : Prop :=
| exit_early :
    (* out of bounds, skipped or badly conditioned: the interval is kept *)
    snd r = IPS_OOB \/ snd r = IPS_SKIPPED \/ snd r = IPS_BADCONDITION ->
    lastTraceStatus (fst r) = snd r ->
    idepth_min (fst r) = idepth_min p -> idepth_max (fst r) = idepth_max p ->
    Exit p frame KRKi Kt aff r
| exit_energy :
    (* first strike of the energy gate *)
    snd r = IPS_OUTLIER -> lastTraceStatus p <> IPS_OUTLIER ->
    lastTraceStatus (fst r) = IPS_OUTLIER ->
    idepth_min (fst r) = idepth_min p -> idepth_max (fst r) = idepth_max p ->
    Exit p frame KRKi Kt aff r
| exit_interval (sg : Segment) (g : GN) :
    (* the interval update was reached *)
    traceOn_segment cfg p KRKi Kt = inr sg ->
    traceOn_GN cfg Image getInterpolatedElement33 (traceOn_quality cfg p sg (traceOn_discrete cfg Image getInterpolatedElement31 p frame aff sg))
               frame aff sg (traceOn_discrete cfg Image getInterpolatedElement31 p frame aff sg) = Some g ->
    r = setNewInterval (traceOn_quality cfg p sg (traceOn_discrete cfg Image getInterpolatedElement31 p frame aff sg))
          (sg_pr sg) Kt (search_dx cfg sg) (search_dy cfg sg)
          (n_bestU g) (n_bestV g) (errorInPixel cfg p sg) ->
    Exit p frame KRKi Kt aff r.
End TraceVocabulary.

(** *** What a trace leaves alone *)

(** the members of a point that only its constructor writes (and
    [idxInImmaturePoints], which the activation pass writes) *)
Definition same_data (p q : ImmaturePoint) : Prop :=
  color q = color p /\ weights q = weights p /\ gradH q = gradH p
  /\ energyTH q = energyTH p /\ u q = u p /\ v q = v p /\ host q = host p
  /\ idxInImmaturePoints q = idxInImmaturePoints p
  /\ point_type q = point_type p /\ idepth_GT q = idepth_GT p.

(** the shape of a result of [traceOn]: the point is left as it is (it
    was out of bounds already), or the trace members are written over a
    point [q] that differs from [p] in the quality and the interval at
    most *)
Inductive Traced (p : ImmaturePoint) (r : ImmaturePoint * ImmaturePointStatus) : Prop :=
| traced_gave_up :
    lastTraceStatus p = IPS_OOB -> r = (p, IPS_OOB) -> Traced p r
| traced_wrote (q : ImmaturePoint) (uv : Vec2f) (w : float) :
    lastTraceStatus p <> IPS_OOB ->
    r = (set_trace q uv w (snd r), snd r) ->
    same_data p q ->
    snd r <> IPS_UNINITIALIZED ->
    (snd r = IPS_OOB \/ snd r = IPS_OUTLIER -> uv = V2 f_m1 f_m1 /\ w = F.zero) ->
    (snd r = IPS_SKIPPED \/ snd r = IPS_BADCONDITION ->
     F.isfinite (idepth_max p) = true /\ q = p) ->
    Traced p r.

(** *** traceNewCoarse, FullSystem.cpp:541-584 *)

(** the local counters; they are [int]s that count points, one step per
    point in memory, so they are written without wrap-around *)
Record TraceStats := mkTraceStats {
  trace_total : Z; trace_good : Z; trace_oob : Z; trace_out : Z;
  trace_skip : Z; trace_badcondition : Z; trace_uninitialized : Z }.

Section TraceNewCoarse.
Variable cfg : Settings.
Variable Image : Type.
Variable getInterpolatedElement31 : Image -> float -> float -> Z -> float.
Variable getInterpolatedElement33 : Image -> float -> float -> Z -> Vec3f.

(** the frame [fh] that has been tracked, with its image [fh->dI]; the
    camera matrix, the relative pose of a host and [fh] and the brightness
    transfer (lines 548-561) come from [Hcalib], Sophus and [AffLight],
    which are defined outside the two files modelled here *)
Variable Frame : Type.
Variable dI : Frame -> Image.
Variable hostToFrame : FrameHessian -> Frame -> Mat33f * Vec3f * Vec2f.

(** [if(c) n++] *)
Definition incr_if (c : bool) (n : Z) : Z := if c then (n + 1)%Z else n.

(** lines 565-573 *)
Definition tracePoint (fh : Frame) (KRKi : Mat33f) (Kt : Vec3f) (aff : Vec2f)
    (ph : ImmaturePoint) (st : TraceStats) : ImmaturePoint * TraceStats :=
  let ph := fst (traceOn cfg Image getInterpolatedElement31 getInterpolatedElement33
                   ph (dI fh) KRKi Kt aff) in
  let s := lastTraceStatus ph in
  (ph,
   mkTraceStats (trace_total st + 1)
     (incr_if (status_eqb s IPS_GOOD) (trace_good st))
     (incr_if (status_eqb s IPS_OOB) (trace_oob st))
     (incr_if (status_eqb s IPS_OUTLIER) (trace_out st))
     (incr_if (status_eqb s IPS_SKIPPED) (trace_skip st))
     (incr_if (status_eqb s IPS_BADCONDITION) (trace_badcondition st))
     (incr_if (status_eqb s IPS_UNINITIALIZED) (trace_uninitialized st))).

(** the loop over [host->immaturePoints], lines 563-574; a null entry is
    dereferenced, the result is then [None] *)
Fixpoint traceHost (fh : Frame) (KRKi : Mat33f) (Kt : Vec3f) (aff : Vec2f)
    (pts : list (option ImmaturePoint)) (st : TraceStats)
    : option (list (option ImmaturePoint) * TraceStats) :=
  match pts with
  | [] => Some ([], st)
  | None :: _ => None
  | Some ph :: pts' =>
      let '(ph', st1) := tracePoint fh KRKi Kt aff ph st in
      match traceHost fh KRKi Kt aff pts' st1 with
      | None => None
      | Some (out, st') => Some (Some ph' :: out, st')
      end
  end.

(** the loop over [frameHessians], lines 554-575 *)
Fixpoint traceHosts (fh : Frame) (hosts : list FrameHessian) (st : TraceStats)
    : option (list FrameHessian * TraceStats) :=
  match hosts with
  | [] => Some ([], st)
  | host :: hosts' =>
      let '(KRKi, Kt, aff) := hostToFrame host fh in
      match traceHost fh KRKi Kt aff (immaturePoints host) st with
      | None => None
      | Some (pts, st1) =>
          match traceHosts fh hosts' st1 with
          | None => None
          | Some (out, st') => Some (set_immaturePoints host pts :: out, st')
          end
      end
  end.

(** [FullSystem::traceNewCoarse(fh)]: the window after the call, and the
    counters as they stand at the end *)
Definition traceNewCoarse (frameHessians : list FrameHessian) (fh : Frame)
    : option (list FrameHessian * TraceStats) :=
  traceHosts fh frameHessians (mkTraceStats 0 0 0 0 0 0 0).

(** the point [p] of [host] after the call (lines 557-565) *)
Definition tracedAt (fh : Frame) (host : FrameHessian) (p : ImmaturePoint)
    : ImmaturePoint :=
  let '(KRKi, Kt, aff) := hostToFrame host fh in
  fst (traceOn cfg Image getInterpolatedElement31 getInterpolatedElement33
         p (dI fh) KRKi Kt aff).

(** *** makeNonKeyFrame, FullSystem.cpp:1332-1345 *)

(** lines 1337-1341 set the pose of [fh] from its tracking reference
    ([FrameShell], [setEvalPT_scaled]) *)
Variable setPoseFromTrackingRef : Frame -> Frame.

Definition makeNonKeyFrame (frameHessians : list FrameHessian) (fh : Frame)
    : option (list FrameHessian) :=
  option_map fst (traceNewCoarse frameHessians (setPoseFromTrackingRef fh)).

(** the window after a sequence of frames that were not made keyframes *)
Fixpoint makeNonKeyFrames (frameHessians : list FrameHessian) (fhs : list Frame)
    : option (list FrameHessian) :=
  match fhs with
  | [] => Some frameHessians
  | fh :: fhs' =>
      match makeNonKeyFrame frameHessians fh with
      | None => None
      | Some frames => makeNonKeyFrames frames fhs'
      end
  end.

End TraceNewCoarse.

(** no null entry in the immature points of any host *)
Definition noNullPoints (frames : list FrameHessian) : Prop :=
  Forall (fun fh => Forall is_Some (immaturePoints fh)) frames.

(** number of immature points in the window *)
Definition numImmature (frames : list FrameHessian) : Z :=
  fold_right (fun fh n => (Z.of_nat (length (immaturePoints fh)) + n)%Z) 0%Z frames.

(** *** Removal of null entries *)

(** the idiom of FullSystem.cpp:764-772 and 871-879 on a vector of
    pointers: a null entry is overwritten with the last entry, which is
    popped, and the index is tried again; [n] bounds the number of
    iterations *)
Fixpoint removeNullsLoop {A : Type} (n : nat) (i : nat) (l : list (option A))
    : list (option A) :=
  match n with
  | O => l
  | S n' =>
      match l !! i with
      | None => l
      | Some (Some _) => removeNullsLoop n' (S i) l
      | Some None =>
          removeNullsLoop n' i
            (take (pred (length l)) (<[i := default None (last l)]> l))
      end
  end.

Definition removeNulls {A : Type} (l : list (option A)) : list (option A) :=
  removeNullsLoop (length l) 0 l.

(** *** Vocabulary of the discrete search *)

(** a loop variable after [k] additions of the step ([ptx+=dx], line 307) *)
Definition stepped (x0 d : float) (k : nat) : float :=
  Nat.iter k (fun x => F.add x d) x0.

Section SearchVocabulary.
Variable cfg : Settings.

(** lines 257-259: the first sample of the search *)
Definition search_start (sg : Segment) : float * float :=
  let randShift := F.sub (F.mul (sg_uMin sg) (F.of_Z 1000))
                         (F.floor (F.mul (sg_uMin sg) (F.of_Z 1000))) in
  (F.sub (sg_uMin sg) (F.mul randShift (search_dx cfg sg)),
   F.sub (sg_vMin sg) (F.mul randShift (search_dy cfg sg))).
End SearchVocabulary.

(** *** makeNewPoints, FullSystem.cpp:1650-1676 *)

Section MakeNewPoints.
Variable cfg : Settings.
Variable Image : Type.
Variable getInterpolatedElement33BiLin : Image -> float -> float -> Z -> Vec3f.
(** [patternPadding] of [util/settings.h] *)
Variable patternPadding : Z.
(** the indeterminate members of the point allocated for a pixel index *)
Variable raw : Z -> ImmaturePoint.

(** lines 1666-1671, the body of the loops for the pixel [(x, y)]:
    [None] is a read outside [selectionMap], [Some None] a pixel that
    gets no point *)
Definition makeNewPoint (newFrame : FrameRef) (dI : Image) (selectionMap : list float)
    (x y : Z) : option (option ImmaturePoint) :=
  let i := (x + y * wG0 cfg)%Z in
  if (i <? 0)%Z then None
  else
    match (selectionMap !! Z.to_nat i : option float) with
    | None => None
    | Some sel =>
        if SFeqb sel (F.of_Z 0) then Some None
        else
          let impt := ImmaturePoint_new cfg Image getInterpolatedElement33BiLin
                        (raw i) x y newFrame dI sel in
          if negb (F.isfinite (energyTH impt)) then Some None else Some (Some impt)
    end.

(** the loop over [x] for one row, pushing to [newFrame->immaturePoints] *)
Fixpoint makeNewPoints_row (newFrame : FrameRef) (dI : Image) (selectionMap : list float)
    (y : Z) (xs : list Z) (pts : list (option ImmaturePoint))
    : option (list (option ImmaturePoint)) :=
  match xs with
  | [] => Some pts
  | x :: xs' =>
      match makeNewPoint newFrame dI selectionMap x y with
      | None => None
      | Some None => makeNewPoints_row newFrame dI selectionMap y xs' pts
      | Some (Some impt) =>
          makeNewPoints_row newFrame dI selectionMap y xs' (pts ++ [Some impt])
      end
  end.

(** the loop over [y] *)
Fixpoint makeNewPoints_rows (newFrame : FrameRef) (dI : Image) (selectionMap : list float)
    (ys xs : list Z) (pts : list (option ImmaturePoint))
    : option (list (option ImmaturePoint)) :=
  match ys with
  | [] => Some pts
  | y :: ys' =>
      match makeNewPoints_row newFrame dI selectionMap y xs pts with
      | None => None
      | Some pts' => makeNewPoints_rows newFrame dI selectionMap ys' xs pts'
      end
  end.

(** the values of a loop variable [for(int k=lo; k<hi; k++)] *)
Definition loopRange (lo hi : Z) : list Z := seqZ lo (hi - lo).

(** [FullSystem::makeNewPoints(newFrame, gtDepth)]; [dI] is
    [newFrame->dI] and [selectionMap] the map as [pixelSelector->makeMaps]
    has filled it (line 1655).  The calls of [reserve] change no contents;
    [gtDepth] is not read. *)
Definition makeNewPoints (newFrame : FrameHessian) (dI : Image)
    (selectionMap : list float) : option FrameHessian :=
  let ys := loopRange (patternPadding + 1) (hG0 cfg - patternPadding - 2) in
  let xs := loopRange (patternPadding + 1) (wG0 cfg - patternPadding - 2) in
  option_map (set_immaturePoints newFrame)
    (makeNewPoints_rows (fh_ref newFrame) dI selectionMap ys xs
       (immaturePoints newFrame)).

End MakeNewPoints.

(** *** Vocabulary of the constructor *)

Section CtorVocabulary.
Variable cfg : Settings.
Variable Image : Type.
Variable getInterpolatedElement33BiLin : Image -> float -> float -> Z -> Vec3f.

(** the sample of the host image under the pattern pixel with offset [d] *)
Definition patternSample (dI : Image) (u_ v_ : Z) (d : Z * Z) : Vec3f :=
  getInterpolatedElement33BiLin dI (F.add (F.of_Z u_) (F.of_Z (fst d)))
    (F.add (F.of_Z v_) (F.of_Z (snd d))) (wG0 cfg).

(** every pattern pixel of the host has a finite intensity *)
Definition patternFinite (dI : Image) (u_ v_ : Z) : Prop :=
  Forall (fun d => F.isfinite (v3x (patternSample dI u_ v_ d)) = true) (patternP cfg).

(** line 55 *)
Definition patternWeight (ptc : Vec3f) : float :=
  F.sqrt (F.div (setting_outlierTHSumComponent cfg)
            (F.add (setting_outlierTHSumComponent cfg)
               (squaredNorm2 (V2 (v3y ptc) (v3z ptc))))).
End CtorVocabulary.

(** *** flagPointsForRemoval, FullSystem.cpp:788-882 *)

Inductive EFPointStatus := PS_GOOD | PS_MARGINALIZE | PS_DROP.

(** an active point with the members that the removal pass reads and
    writes besides those above: [idepth_hessian] and, through [efPoint],
    the state flag of its entry in the energy functional *)
Record ActivePoint := mkActivePoint {
  ap_point : PointHessian;
  idepth_hessian : float;
  efPoint_stateFlag : EFPointStatus }.

Definition set_stateFlag (ph : ActivePoint) (s : EFPointStatus) : ActivePoint :=
  mkActivePoint (ap_point ph) (idepth_hessian ph) s.

(** a keyframe with its three vectors of active points; a null entry of
    [pointHessians] is [None] *)
Record KeyFrame := mkKeyFrame {
  kf_ref : FrameRef;
  kf_flaggedForMarginalization : bool;
  kf_pointHessians : list (option ActivePoint);
  kf_pointHessiansMarginalized : list ActivePoint;
  kf_pointHessiansOutlier : list ActivePoint }.

Section FlagPoints.
Local Open Scope f32_scope.

(** thresholds of [util/settings.h] *)
Variable setting_minIdepth : float.
Variable setting_minIdepthH_marg : float.

(** the residuals with their entries in the energy functional, and the
    energy functional, are objects of [Residuals.h] and
    [OptimizationBackend]: their state is [World], their methods are
    parameters.  [isOOB] and [isInlierNew] are methods of [PointHessian]
    in [HessianBlocks.h] that read the residuals of the point. *)
Variable World : Type.
Variable isOOB : World -> ActivePoint -> list FrameRef -> list FrameRef -> bool.
Variable isInlierNew : World -> ActivePoint -> bool.
Variable resetOOB : PointFrameResidual -> World -> World.
Variable linearize : PointFrameResidual -> World -> World.
Variable clearIsLinearized : PointFrameResidual -> World -> World.
Variable applyRes : bool -> PointFrameResidual -> World -> World.
Variable isActive : PointFrameResidual -> World -> bool.
Variable fixLinearizationF : PointFrameResidual -> World -> World.

(** the loop of line 797,
    [for(int i=size-1; i>=0 && i >= size; i--)]; [n] bounds the number of
    iterations *)
Fixpoint keepLoop (frameHessians : list KeyFrame) (n : nat) (i : Z)
    (fhsToKeepPoints : list FrameRef) : list FrameRef :=
  match n with
  | O => fhsToKeepPoints
  | S n' =>
      if (i >=? 0)%Z && (i >=? Z.of_nat (length frameHessians))%Z then
        match frameHessians !! Z.to_nat i with
        | Some fh =>
            keepLoop frameHessians n' (i - 1)%Z
              (if negb (kf_flaggedForMarginalization fh)
               then fhsToKeepPoints ++ [kf_ref fh] else fhsToKeepPoints)
        | None => fhsToKeepPoints
        end
      else fhsToKeepPoints
  end.

Definition fhsToKeepPoints (frameHessians : list KeyFrame) : list FrameRef :=
  keepLoop frameHessians (length frameHessians)
    (Z.of_nat (length frameHessians) - 1) [].

(** the loop of line 800 *)
Definition fhsToMargPoints (frameHessians : list KeyFrame) : list FrameRef :=
  map kf_ref (filter (fun fh => kf_flaggedForMarginalization fh = true) frameHessians).

(** lines 833-841, the body of the loop over the residuals of a point *)
Definition relinearize (w : World) (r : PointFrameResidual) : World :=
  let w := resetOOB r w in
  let w := linearize r w in
  let w := clearIsLinearized r w in
  let w := applyRes true r w in
  if isActive r w then fixLinearizationF r w else w.

(** the point at index [i] leaves [pointHessians] for
    [pointHessiansOutlier], flagged [PS_DROP] *)
Definition dropAt (host : KeyFrame) (i : nat) (ph : ActivePoint) : KeyFrame :=
  mkKeyFrame (kf_ref host) (kf_flaggedForMarginalization host)
    (<[i := None]> (kf_pointHessians host))
    (kf_pointHessiansMarginalized host)
    (kf_pointHessiansOutlier host ++ [set_stateFlag ph PS_DROP]).

(** ... or for [pointHessiansMarginalized], flagged [PS_MARGINALIZE] *)
Definition marginalizeAt (host : KeyFrame) (i : nat) (ph : ActivePoint) : KeyFrame :=
  mkKeyFrame (kf_ref host) (kf_flaggedForMarginalization host)
    (<[i := None]> (kf_pointHessians host))
    (kf_pointHessiansMarginalized host ++ [set_stateFlag ph PS_MARGINALIZE])
    (kf_pointHessiansOutlier host).

(** lines 817-867 for the non-null point [ph] at index [i]; the local
    counters are never read and are left out.  The methods of the
    residuals write the residuals and the energy functional, not the
    members [idepth_scaled], [idepth_hessian] and [residuals] of the
    point *)
Definition flagPoint (toKeep toMarg : list FrameRef) (host : KeyFrame) (i : nat)
    (ph : ActivePoint) (w : World) : KeyFrame * World :=
  if (idepth_scaled (ap_point ph) <? setting_minIdepth)
     || Nat.eqb (length (residuals (ap_point ph))) 0
  then (dropAt host i ph, w)
  else if isOOB w ph toKeep toMarg || kf_flaggedForMarginalization host then
    if isInlierNew w ph then
      let w := fold_left relinearize (residuals (ap_point ph)) w in
      if idepth_hessian ph >? setting_minIdepthH_marg
      then (marginalizeAt host i ph, w)
      else (dropAt host i ph, w)
    else (dropAt host i ph, w)
  else (host, w).

(** the loop over the indices of [host->pointHessians], lines 812-868 *)
Fixpoint flagHost (toKeep toMarg : list FrameRef) (idxs : list nat) (host : KeyFrame)
    (w : World) : KeyFrame * World :=
  match idxs with
  | [] => (host, w)
  | i :: idxs' =>
      match kf_pointHessians host !! i with
      | Some (Some ph) =>
          let '(host', w') := flagPoint toKeep toMarg host i ph w in
          flagHost toKeep toMarg idxs' host' w'
      | _ => flagHost toKeep toMarg idxs' host w
      end
  end.

(** lines 871-879 *)
Definition compactHost (host : KeyFrame) : KeyFrame :=
  mkKeyFrame (kf_ref host) (kf_flaggedForMarginalization host)
    (removeNulls (kf_pointHessians host))
    (kf_pointHessiansMarginalized host) (kf_pointHessiansOutlier host).

(** the loop over the window, lines 810-880 *)
Fixpoint flagHosts (toKeep toMarg : list FrameRef) (hosts : list KeyFrame) (w : World)
    : list KeyFrame * World :=
  match hosts with
  | [] => ([], w)
  | host :: hosts' =>
      let '(host1, w1) :=
        flagHost toKeep toMarg (seq 0 (length (kf_pointHessians host))) host w in
      let '(out, w') := flagHosts toKeep toMarg hosts' w1 in
      (compactHost host1 :: out, w')
  end.

(** [FullSystem::flagPointsForRemoval()]; [assert]s are not modelled *)
Definition flagPointsForRemoval (frameHessians : list KeyFrame) (w : World)
    : list KeyFrame * World :=
  flagHosts (fhsToKeepPoints frameHessians) (fhsToMargPoints frameHessians)
    frameHessians w.

(** the test of line 817 *)
Definition unusable (ph : ActivePoint) : bool :=
  (idepth_scaled (ap_point ph) <? setting_minIdepth)
  || Nat.eqb (length (residuals (ap_point ph))) 0.

End FlagPoints.

(** the points of a vector, without their state flags *)
Definition pointsOf (l : list ActivePoint) : list (PointHessian * float) :=
  map (fun ph => (ap_point ph, idepth_hessian ph)) l.

(** *** linearizeResidual, ImmaturePoint.cpp:506-573 *)

(** [enum class ResState] *)
Module ResState.
Inductive t := IN | OOB | OUTLIER.
Definition eqb (a b : t) : bool :=
  match a, b with
  | IN, IN | OOB, OOB | OUTLIER, OUTLIER => true
  | _, _ => false
  end.
End ResState.

(** the members of [ImmaturePointTemporaryResidual] that the function
    reads and writes *)
Record ImmaturePointTemporaryResidual := mkTmpRes {
  state_state : ResState.t;
  state_energy : double;
  state_NewState : ResState.t;
  state_NewEnergy : double
}.

(** what the long form of [projectPoint] hands back *)
Record Projected := mkProjected {
  pj_drescale : float; pj_u : float; pj_v : float;
  pj_Ku : float; pj_Kv : float; pj_KliP : Vec3f; pj_new_idepth : float }.

(** [energyLeft] and the two sums [Hdd] and [bd] *)
Record LinAcc := mkLinAcc { l_energyLeft : float; l_Hdd : float; l_bd : float }.

Section LinearizeResidual.
Local Open Scope f32_scope.

Variable cfg : Settings.
Variable Image : Type.
Variable getInterpolatedElement33 : Image -> float -> float -> Z -> Vec3f.
(** the calibration with its focal lengths, the long form of
    [projectPoint] and [derive_idepth] ([HessianBlocks.h],
    [ResidualProjections.h]) are defined outside the two files modelled
    here *)
Variable Calib : Type.
Variable fxl : Calib -> float.
Variable fyl : Calib -> float.
Variable projectPointFull :
  float -> float -> float -> Z -> Z -> Calib -> Mat33f -> Vec3f -> option Projected.
Variable derive_idepth :
  Vec3f -> float -> float -> Z -> Z -> float -> float -> float -> float.

(** the loop over the pattern, lines 527-558; the flag is [false] after a
    [return] from inside the loop, and the sums are those reached by then *)
Fixpoint linearize_loop (p : ImmaturePoint) (HCalib : Calib) (dIl : Image)
    (PRE_RTll : Mat33f) (PRE_tTll : Vec3f) (affLL : Vec2f) (idepth : float)
    (idx : nat) (pat : list (Z * Z)) (a : LinAcc) : LinAcc * bool :=
  match pat with
  | [] => (a, true)
  | (dx, dy) :: pat' =>
      match projectPointFull (u p) (v p) idepth dx dy HCalib PRE_RTll PRE_tTll with
      | None => (a, false)
      | Some pj =>
          let hitColor := getInterpolatedElement33 dIl (pj_Ku pj) (pj_Kv pj) (wG0 cfg) in
          if negb (F.isfinite (v3x hitColor)) then (a, false)
          else
            let residual := v3x hitColor - (v2x affLL * at_f (color p) idx + v2y affLL) in
            let hw := huber_weight cfg residual in
            let w := at_f (weights p) idx in
            let energyLeft := l_energyLeft a
                              + w * w * hw * residual * residual * (F.of_Z 2 - hw) in
            (* depth derivatives. *)
            let dxInterp := v3y hitColor * fxl HCalib in
            let dyInterp := v3z hitColor * fyl HCalib in
            let d_idepth := derive_idepth PRE_tTll (pj_u pj) (pj_v pj) dx dy
                              dxInterp dyInterp (pj_drescale pj) in
            let hw := hw * (w * w) in
            linearize_loop p HCalib dIl PRE_RTll PRE_tTll affLL idepth (S idx) pat'
              (mkLinAcc energyLeft
                 (l_Hdd a + (hw * d_idepth) * d_idepth)
                 (l_bd a + (hw * residual) * d_idepth))
      end
  end.

Definition set_NewState (tmpRes : ImmaturePointTemporaryResidual) (s : ResState.t)
    : ImmaturePointTemporaryResidual :=
  mkTmpRes (state_state tmpRes) (state_energy tmpRes) s (state_NewEnergy tmpRes).

Record Linearized := mkLinearized {
  lin_return : double;
  lin_tmpRes : ImmaturePointTemporaryResidual;
  lin_Hdd : float;
  lin_bd : float }.

(** [ImmaturePoint::linearizeResidual(HCalib, outlierTHSlack, tmpRes, Hdd,
    bd, idepth)]: the value returned, [*tmpRes] and the two sums passed by
    reference.  [PRE_RTll], [PRE_tTll] and [PRE_aff_mode] are those of
    [host->targetPrecalc[tmpRes->target->idx]], [dIl] is
    [tmpRes->target->dI]. *)
Definition linearizeResidual (p : ImmaturePoint) (HCalib : Calib)
    (outlierTHSlack : float) (tmpRes : ImmaturePointTemporaryResidual)
    (Hdd bd : float) (idepth : float)
    (PRE_RTll : Mat33f) (PRE_tTll : Vec3f) (PRE_aff_mode : Vec2f) (dIl : Image)
    : Linearized :=
  if ResState.eqb (state_state tmpRes) ResState.OOB
  then mkLinearized (state_energy tmpRes) (set_NewState tmpRes ResState.OOB) Hdd bd
  else
    let '(a, finished) :=
      linearize_loop p HCalib dIl PRE_RTll PRE_tTll PRE_aff_mode idepth 0
        (patternP cfg) (mkLinAcc F.zero Hdd bd) in
    if negb finished
    then mkLinearized (state_energy tmpRes) (set_NewState tmpRes ResState.OOB)
           (l_Hdd a) (l_bd a)
    else
      if l_energyLeft a >? energyTH p * outlierTHSlack then
        let energyLeft := energyTH p * outlierTHSlack in
        mkLinearized (to_double energyLeft)
          (mkTmpRes (state_state tmpRes) (state_energy tmpRes) ResState.OUTLIER
             (to_double energyLeft))
          (l_Hdd a) (l_bd a)
      else
        mkLinearized (to_double (l_energyLeft a))
          (mkTmpRes (state_state tmpRes) (state_energy tmpRes) ResState.IN
             (to_double (l_energyLeft a)))
          (l_Hdd a) (l_bd a).

(** a pattern pixel whose projection fails or hits a colour that is not
    finite *)
Definition pixelFailsFull (p : ImmaturePoint) (HCalib : Calib) (dIl : Image)
    (PRE_RTll : Mat33f) (PRE_tTll : Vec3f) (idepth : float) (d : Z * Z) : Prop :=
  match projectPointFull (u p) (v p) idepth (fst d) (snd d) HCalib PRE_RTll PRE_tTll with
  | None => True
  | Some pj =>
      F.isfinite (v3x (getInterpolatedElement33 dIl (pj_Ku pj) (pj_Kv pj) (wG0 cfg)))
      = false
  end.

End LinearizeResidual.

(** *** The initial guesses of trackNewCoarse, FullSystem.cpp:311-410 *)

(** [AffLight(a, b)] *)
Record AffLight := mkAffLight { aff_a : double; aff_b : double }.

Section InitialGuesses.

(** rigid motions come from Sophus: the identity [SE3d()], the product,
    the inverse, [SE3d::exp(x.log()*0.5)], and the rotation
    [SE3d(Quaterniond(w,x,y,z), Vec3(0,0,0))] *)
Variable SE3 : Type.
Variable se3_identity : SE3.
Variable se3_mul : SE3 -> SE3 -> SE3.
Variable se3_inverse : SE3 -> SE3.
Variable se3_half : SE3 -> SE3.
Variable se3_rotation : double -> double -> double -> double -> SE3.

(** the members of [FrameShell] that are read; a [FrameShell*] is the
    [id] of the shell, the null pointer is [None] *)
Record FrameShell := mkFrameShell {
  shell_id : nat;
  camToWorld : SE3;
  poseValid : bool;
  trackingWasGood : bool;
  shell_aff_g2l : AffLight;
  trackingRef : option nat
}.

(** lines 326-340, over [allFrameHistory[size-2]], ..., [allFrameHistory[0]] *)
Fixpoint affFromHistory (lastF_shell : FrameShell) (lastF_aff_g2l : AffLight)
    (earlier : list FrameShell) : AffLight :=
  match earlier with
  | [] => mkAffLight (D.of_Z 0) (D.of_Z 0)
  | slast :: earlier' =>
      if trackingWasGood slast then shell_aff_g2l slast
      else if negb (bool_decide (trackingRef slast = Some (shell_id lastF_shell)))
      then lastF_aff_g2l
      else affFromHistory lastF_shell lastF_aff_g2l earlier'
  end.

(** the signs of the quaternion entries in lines 376-401, in order *)
Definition rotationSigns : list (Z * Z * Z) :=
  [ (1, 0, 0); (0, 1, 0); (0, 0, 1); (-1, 0, 0); (0, -1, 0); (0, 0, -1);
    (1, 1, 0); (0, 1, 1); (1, 0, 1); (-1, 1, 0); (0, -1, 1); (-1, 0, 1);
    (1, -1, 0); (0, 1, -1); (1, 0, -1); (-1, -1, 0); (0, -1, -1); (-1, 0, -1);
    (-1, -1, -1); (-1, -1, 1); (-1, 1, -1); (-1, 1, 1);
    (1, -1, -1); (1, -1, 1); (1, 1, -1); (1, 1, 1) ].

(** [rotDelta], [-rotDelta] or [0] as a [double] argument *)
Definition signed (rotDelta : float) (s : Z) : double :=
  if (s =? 0)%Z then D.of_Z 0
  else if (s <? 0)%Z then to_double (F.opp rotDelta) else to_double rotDelta.

(** the body of the loop, lines 376-401: [base] is
    [fh_2_slast.inverse() * lastF_2_slast] *)
Definition rotations (base : SE3) (rotDelta : float) : list SE3 :=
  map (fun s => se3_mul base
                  (se3_rotation (D.of_Z 1) (signed rotDelta (fst (fst s)))
                     (signed rotDelta (snd (fst s))) (signed rotDelta (snd s))))
      rotationSigns.

(** [for(float rotDelta=0.02; rotDelta < 0.05; rotDelta++)]; [None]
    when [n] iterations do not bring the loop to its end *)
Fixpoint rotationLoop (n : nat) (rotDelta : float) (base : SE3) (tries : list SE3)
    : option (list SE3) :=
  if lt_d rotDelta (D.dec 5 (-2)) then
    match n with
    | O => None
    | S n' =>
        rotationLoop n' (F.add rotDelta F.one) base (tries ++ rotations base rotDelta)
    end
  else Some tries.

(** lines 311-410: [lastF_2_fh_tries] and [aff_last_2_l].  [lastF] is
    [coarseTracker->lastRef]; [None] is a read outside [allFrameHistory],
    or a rotation loop that does not end within 64 iterations.  The locks
    are not modelled. *)
Definition initialGuesses (allFrameHistory : list FrameShell)
    (lastF_shell : FrameShell) (lastF_aff_g2l : AffLight)
    (referenceToFrameHint : option SE3) : option (list SE3 * AffLight) :=
  let size := length allFrameHistory in
  match referenceToFrameHint with
  | Some hint =>
      Some ([hint],
            affFromHistory lastF_shell lastF_aff_g2l
              (rev (take (size - 1) allFrameHistory)))
  | None =>
      if Nat.eqb size 2 then Some ([], mkAffLight (D.of_Z 0) (D.of_Z 0))
      else
        match (if Nat.ltb size 2 then None else allFrameHistory !! (size - 2)%nat),
              (if Nat.ltb size 3 then None else allFrameHistory !! (size - 3)%nat) with
        | Some slast, Some sprelast =>
            let slast_2_sprelast :=
              se3_mul (se3_inverse (camToWorld sprelast)) (camToWorld slast) in
            let lastF_2_slast :=
              se3_mul (se3_inverse (camToWorld slast)) (camToWorld lastF_shell) in
            let aff_last_2_l := shell_aff_g2l slast in
            let fh_2_slast := slast_2_sprelast in
            let base := se3_mul (se3_inverse fh_2_slast) lastF_2_slast in
            let tries :=
              [ base;
                se3_mul (se3_mul (se3_inverse fh_2_slast) (se3_inverse fh_2_slast))
                        lastF_2_slast;
                se3_mul (se3_inverse (se3_half fh_2_slast)) lastF_2_slast;
                lastF_2_slast;
                se3_identity ] in
            match rotationLoop 64 (to_float (D.dec 2 (-2))) base tries with
            | None => None
            | Some tries =>
                if negb (poseValid slast) || negb (poseValid sprelast)
                   || negb (poseValid lastF_shell)
                then Some ([se3_identity], aff_last_2_l)
                else Some (tries, aff_last_2_l)
            end
        | _, _ => None
        end
  end.

End InitialGuesses.

(** *** Vocabulary of the Gauss-Newton refinement *)

Section GNVocabulary.
Variable cfg : Settings.
Variable Image : Type.
Variable getInterpolatedElement33 : Image -> float -> float -> Z -> Vec3f.

(** the energy that one iteration sums over the pattern placed at
    [(u, v)] (lines 331-353); [None] if a pattern pixel is outside the
    image *)
Definition gnEnergy (p : ImmaturePoint) (frame : Image) (aff : Vec2f)
    (rot : list Vec2f) (dx dy u v : float) : option float :=
  option_map g_energy
    (gnPattern cfg Image getInterpolatedElement33 p frame aff rot dx dy u v
       (seq 0 (patternNum cfg)) (mkGNAcc F.one F.zero F.zero)).

End GNVocabulary.

(** *** The frames that leave the window, FullSystem.cpp:1524-1534 *)

Section MarginalizeFrames.

(** [marginalizeFrame] is defined in [FullSystemMarginalize.cpp]: the
    window after the call [marginalizeFrame(frameHessians[i])] *)
Variable marginalizeFrame : list FrameHessian -> nat -> list FrameHessian.

(** the loop
    [for(unsigned int i=0;i<frameHessians.size();i++)
       if(frameHessians[i]->flaggedForMarginalization)
         { marginalizeFrame(frameHessians[i]); i=0; ... }]:
    after a call the index is set to 0 and then incremented by the loop
    header; [n] bounds the number of iterations, [None] is a loop that has
    not ended within them *)
Fixpoint marginalizeFramesLoop (n : nat) (i : nat) (frameHessians : list FrameHessian)
    : option (list FrameHessian) :=
  match n with
  | O => None
  | S n' =>
      match frameHessians !! i with
      | None => Some frameHessians
      | Some fh =>
          if flaggedForMarginalization fh
          then marginalizeFramesLoop n' 1 (marginalizeFrame frameHessians i)
          else marginalizeFramesLoop n' (i + 1) frameHessians
      end
  end.

End MarginalizeFrames.

(** what the loop reads of a frame: which frame it is, and its flag *)
Definition frameTag (fh : FrameHessian) : FrameRef * bool :=
  (fh_ref fh, flaggedForMarginalization fh).

Definition unflagged (l : list (FrameRef * bool)) : list (FrameRef * bool) :=
  filter (fun t => snd t = false) l.

(** the frames of a window without the flagged ones, except that the
    frame which follows a flagged first frame is kept whatever its flag *)
Definition leftInWindow (l : list (FrameRef * bool)) : list (FrameRef * bool) :=
  match l with
  | [] => []
  | (r, false) :: rest => (r, false) :: unflagged rest
  | (_, true) :: [] => []
  | (_, true) :: t :: rest => t :: unflagged rest
  end.

(** *** The way to the energy gate *)

Section GateVocabulary.
Variable cfg : Settings.
Variable Image : Type.
Variable getInterpolatedElement31 : Image -> float -> float -> Z -> float.
Variable getInterpolatedElement33 : Image -> float -> float -> Z -> Vec3f.

(** the call gets to the energy gate of lines 401-415, with the search
    segment [sg] and the refined match [g]: the point is not out of bounds
    (line 81), both ends of its interval are projected into the image
    (lines 101-197), the tests of the scale (line 201), of the improvement
    (line 222) and of the step (line 264) let it pass, and the Gauss-Newton
    refinement does not leave the image (line 336) *)
Definition reachesEnergyGate (p : ImmaturePoint) (frame : Image) (KRKi : Mat33f)
    (Kt : Vec3f) (aff : Vec2f) (sg : Segment) (g : GN) : Prop :=
  let s := traceOn_discrete cfg Image getInterpolatedElement31 p frame aff sg in
  lastTraceStatus p <> IPS_OOB
  /\ traceOn_segment cfg p KRKi Kt = inr sg
  /\ F.ltb (idepth_min p) (F.of_Z 0)
     || (gt_d (v3z (sg_ptpMin sg)) (D.dec 75 (-2))
         && lt_d (v3z (sg_ptpMin sg)) (D.dec 15 (-1))) = true
  /\ F.gtb (F.mul (errorInPixel_raw cfg p sg) (setting_trace_minImprovementFactor cfg))
           (sg_dist sg)
     && F.isfinite (idepth_max p) = false
  /\ F.isfinite (search_dx cfg sg) = true
  /\ F.isfinite (search_dy cfg sg) = true
  /\ traceOn_GN cfg Image getInterpolatedElement33 (traceOn_quality cfg p sg s)
       frame aff sg s = Some g.

End GateVocabulary.

End dso.
Import dso.

(** * A concrete scene

    Values for the parameters of the development: settings for a 640x480
    image and an 8-pixel pattern (step size 1, 3 Gauss-Newton iterations,
    slack 1.2, test radius 2 and an energy threshold of 12 * 12 * 8, as the
    comments of [traceOn] quote them), images given by their interpolant, an
    identity rotation and a translation along x. *)
Module Scene.

Definition cfg : Settings :=
  mkSettings 640 480 320 240
    [(0, -2); (-1, -1); (1, -1); (-2, 0); (0, 0); (2, 0); (-1, 1); (0, 2)]
    (F.dec 27 (-3))   (* setting_maxPixSearch *)
    (F.of_Z 1)        (* setting_trace_stepsize *)
    3                 (* setting_trace_GNIterations *)
    (F.dec 1 (-1))    (* setting_trace_GNThreshold *)
    (F.dec 12 (-1))   (* setting_trace_extraSlackOnTH *)
    (F.dec 15 (-1))   (* setting_trace_slackInterval *)
    (F.of_Z 2)        (* setting_trace_minImprovementFactor *)
    2                 (* setting_minTraceTestRadius *)
    (F.of_Z 3)        (* setting_minTraceQuality *)
    (F.of_Z 9)        (* setting_huberTH *)
    (F.of_Z 144)      (* setting_outlierTH *)
    (F.of_Z 2500)     (* setting_outlierTHSumComponent *)
    (F.of_Z 1)        (* setting_overallEnergyTHWeight *)
    (F.of_Z 2000)     (* setting_desiredPointDensity *)
    (F.of_Z 1).       (* benchmark_initializerSlackFactor *)

(** an image, given by intensity and gradient at every position *)
Definition Image : Type := float -> float -> Vec3f.
Definition sample31 (im : Image) (x y : float) (w : Z) : float := v3x (im x y).
Definition sample33 (im : Image) (x y : float) (w : Z) : Vec3f := im x y.

(** constant intensity [c] *)
Definition uniform (c : float) : Image := fun _ _ => V3 c F.zero F.zero.
(** intensity [g * (x + s)]: a ramp of slope [g] along x, shifted by [s] *)
Definition ramp (g s : Z) : Image :=
  fun x _ => V3 (F.mul (F.of_Z g) (F.add x (F.of_Z s))) (F.of_Z g) F.zero.

Definition identity33 : Mat33f :=
  M33 (V3 F.one F.zero F.zero) (V3 F.zero F.one F.zero) (V3 F.zero F.zero F.one).
Definition Kt_x : Vec3f := V3 F.one F.zero F.zero.
Definition Kt_0 : Vec3f := V3 F.zero F.zero F.zero.
Definition aff_id : Vec2f := V2 F.one F.zero.

Definition raw : ImmaturePoint :=
  mkImmaturePoint [] [] mat22_zero F.zero F.zero F.zero 0%nat 0 F.zero F.zero
    F.zero F.zero F.zero IPS_UNINITIALIZED (V2 F.zero F.zero) F.zero.

(** a fresh point at pixel (100, 100) of a host that shows the ramp *)
Definition fresh : ImmaturePoint :=
  ImmaturePoint_new cfg Image sample33 raw 100 100 0%nat (ramp 1 0) F.one.

Definition trace (p : ImmaturePoint) (frame : Image) (Kt : Vec3f)
    : ImmaturePoint * ImmaturePointStatus :=
  traceOn cfg Image sample31 sample33 p frame identity33 Kt aff_id.

(** the point with the interval [1, 1] *)
Definition certain : ImmaturePoint := set_idepth fresh F.one F.one.
(** the same, given up as out of bounds by an earlier trace *)
Definition certain_OOB : ImmaturePoint :=
  set_trace certain (V2 f_m1 f_m1) F.zero IPS_OOB.

(** [projectPoint] as a pinhole projection with a test against the image
    border *)
Definition projectPoint (u_pt v_pt idepth : float) (KRKi : Mat33f) (Kt : Vec3f)
    : option (float * float) :=
  let ptp := vec3_add (mat33_mul_vec KRKi (V3 u_pt v_pt F.one)) (vec3_scale Kt idepth) in
  let Ku := F.div (v3x ptp) (v3z ptp) in
  let Kv := F.div (v3y ptp) (v3z ptp) in
  if F.gtb Ku (F.dec 11 (-1)) && F.gtb Kv (F.dec 11 (-1))
     && F.ltb Ku (F.of_Z (wG0 cfg - 3)) && F.ltb Kv (F.of_Z (hG0 cfg - 3))
  then Some (Ku, Kv) else None.

Definition precalc (a : float) : FrameFramePrecalc :=
  mkPrecalc identity33 Kt_x (V2 a F.zero).

Definition residual (a : float) (target : Image) : float :=
  calcResidual cfg Image sample33 projectPoint fresh F.one (precalc a) target F.zero.

(** the activation pass: no distance map, every host at the identity *)
Definition fwdWarpedIDDistFinal (dm : unit) (i : Z) : float := F.zero.
Definition addIntoDistFinal (dm : unit) (iu iv : Z) : unit := tt.
Definition hostToNew (fh latest : FrameHessian) : Mat33f * Vec3f := (identity33, Kt_x).

Definition outlier : ImmaturePoint :=
  set_trace certain (V2 f_m1 f_m1) F.zero IPS_OUTLIER.
Definition host0 : FrameHessian :=
  mkFrameHessian 0%nat false [] [Some outlier; Some fresh].
Definition newest : FrameHessian := mkFrameHessian 1%nat false [] [].
Definition window : list FrameHessian := [host0; newest].

(** the initialiser: one candidate with [iR = 2] *)
Definition PointHessian_new (p : ImmaturePoint) : PointHessian :=
  mkPointHessian (host p) (energyTH p) F.zero F.zero F.zero false INACTIVE [].
Definition candidates : list Pnt := [mkPnt (F.of_Z 100) (F.of_Z 100) (F.of_Z 2) F.one].
Definition initialized : Initialized :=
  initializeFromInitializer cfg Image sample33 PointHessian_new F.one 2147483647
    (fun _ => 0) raw 0%nat (ramp 1 0) candidates (V3d (D.of_Z 1) (D.of_Z 0) (D.of_Z 0)).

(** an identity inverse-gamma table *)
Definition BInv_id : list float := map of_nat (seq 0 256).
Definition calib0 : CalibHessian := mkCalib (repeat F.zero 256) (repeat F.zero 256).

(** frames that are traced but not made keyframes: a frame is its image,
    seen from every host at the identity rotation *)
Definition hostToFrame (host : FrameHessian) (fh : Image) : Mat33f * Vec3f * Vec2f :=
  (identity33, Kt_x, aff_id).
Definition host_OOB : FrameHessian :=
  mkFrameHessian 0%nat false [] [Some certain_OOB; Some fresh].
Definition window_OOB : list FrameHessian := [host_OOB; newest].
Definition after_two_frames : option (list FrameHessian) :=
  makeNonKeyFrames cfg Image sample31 sample33 Image (fun im => im) hostToFrame
    (fun fh => fh) window_OOB [uniform (F.of_Z 200); ramp 1 0].

(** the whole activation pass, with an energy functional that holds
    nothing and an optimisation that gives every point up *)
Definition makeDistanceMap (frames : list FrameHessian) (latest : FrameHessian) : unit := tt.
Definition nPoints (ef : unit) : Z := 0.
Definition insertPoint (ef : unit) (ph : PointHessian) : unit := tt.
Definition insertResidual (ef : unit) (r : PointFrameResidual) : unit := tt.
Definition optimizeImmaturePoint (frames : list FrameHessian) (p : ImmaturePoint)
    : Optimized := Opt_null.
Definition activated : list FrameHessian :=
  fst (fst (activatePointsMT cfg unit makeDistanceMap fwdWarpedIDDistFinal
              addIntoDistFinal unit nPoints insertPoint insertResidual hostToNew
              optimizeImmaturePoint window (F.of_Z 2) tt)).

(** a 16x12 image whose selection map marks the pixel (5, 5) *)
Definition cfg_small : Settings :=
  mkSettings 16 12 8 6 (patternP cfg)
    (setting_maxPixSearch cfg) (setting_trace_stepsize cfg)
    (setting_trace_GNIterations cfg) (setting_trace_GNThreshold cfg)
    (setting_trace_extraSlackOnTH cfg) (setting_trace_slackInterval cfg)
    (setting_trace_minImprovementFactor cfg) (setting_minTraceTestRadius cfg)
    (setting_minTraceQuality cfg) (setting_huberTH cfg) (setting_outlierTH cfg)
    (setting_outlierTHSumComponent cfg) (setting_overallEnergyTHWeight cfg)
    (setting_desiredPointDensity cfg) (benchmark_initializerSlackFactor cfg).
Definition selectionMap : list float :=
  <[ 85%nat := F.one ]> (repeat F.zero 192).
Definition selected : option FrameHessian :=
  makeNewPoints cfg_small Image sample33 2 (fun _ => raw) newest (ramp 1 0)
    selectionMap.

(** two keyframes with one active point each, the first keyframe flagged
    for marginalisation; the residuals carry no state *)
Definition activePoint : ActivePoint :=
  mkActivePoint
    (mkPointHessian 0%nat F.one F.one F.one F.one false ACTIVE [7%nat])
    (F.of_Z 100) PS_GOOD.
Definition keyframe0 : KeyFrame := mkKeyFrame 0%nat true [Some activePoint] [] [].
Definition keyframe1 : KeyFrame := mkKeyFrame 1%nat false [Some activePoint] [] [].
Definition keyframes : list KeyFrame := [keyframe0; keyframe1].
Definition flagged : list KeyFrame :=
  fst (flagPointsForRemoval F.zero (F.of_Z 50) unit
         (fun _ _ _ _ => false) (fun _ _ => true)
         (fun _ w => w) (fun _ w => w) (fun _ w => w) (fun _ _ w => w)
         (fun _ _ => true) (fun _ w => w) keyframes tt).

(** a window whose first two frames are flagged for marginalisation, and
    a [marginalizeFrame] that takes the frame out of the window *)
Definition marginalizeFrame (frames : list FrameHessian) (i : nat) : list FrameHessian :=
  delete i frames.
Definition flagged0 : FrameHessian := mkFrameHessian 0%nat true [] [].
Definition flagged1 : FrameHessian := mkFrameHessian 1%nat true [] [].
Definition unflagged2 : FrameHessian := mkFrameHessian 2%nat false [] [].
Definition window_flagged : list FrameHessian := [flagged0; flagged1; unflagged2].

(** the fresh point after a first failure of the energy gate (against a
    frame of a very different brightness), and the segment and the match
    with which a second trace against that frame gets to the gate *)
Definition grey : Image := uniform (F.of_Z 200).
Definition outlier_once : ImmaturePoint := fst (trace fresh grey Kt_x).
Definition gate_segment : Segment :=
  match traceOn_segment cfg outlier_once identity33 Kt_x with
  | inr sg => sg
  | inl _ => mkSegment Kt_0 Kt_0 [] F.zero F.zero F.zero F.zero F.zero
  end.
Definition gate_match : GN :=
  let s := traceOn_discrete cfg Image sample31 outlier_once grey aff_id gate_segment in
  match traceOn_GN cfg Image sample33 (traceOn_quality cfg outlier_once gate_segment s)
          grey aff_id gate_segment s with
  | Some g => g
  | None => mkGN F.zero F.zero F.zero F.zero F.zero F.zero
  end.

End Scene.

(** * Properties *)

(** ** Facts on IEEE-754 comparison *)

Section FloatFacts.

Lemma SFcompare_antisym (x y : spec_float) :
  SFcompare y x = option_map CompOpp (SFcompare x y).
Proof.
  destruct x as [sx | sx | | sx mx ex], y as [sy | sy | | sy my ey]; simpl;
    try reflexivity;
    try (destruct sx; reflexivity); try (destruct sy; reflexivity);
    try (destruct sx, sy; reflexivity).
  destruct sx, sy; simpl; try reflexivity.
  - rewrite (Z.compare_antisym ey ex).
    destruct (ey ?= ex)%Z; simpl; try reflexivity.
    rewrite (Pos.compare_cont_antisym mx my Eq). reflexivity.
  - rewrite (Z.compare_antisym ey ex).
    destruct (ey ?= ex)%Z; simpl; try reflexivity.
    rewrite (Pos.compare_cont_antisym mx my Eq). reflexivity.
Qed.

Lemma SFcompare_not_nan (x y : spec_float) :
  F.is_nan x = false -> F.is_nan y = false -> SFcompare x y <> None.
Proof.
  destruct x, y; simpl; intros; congruence.
Qed.

(** for numbers, [not (x < y)] is [y <= x] *)
Lemma ltb_false_leb (x y : float) :
  F.is_nan x = false -> F.is_nan y = false ->
  F.ltb x y = false -> F.leb y x = true.
Proof.
  intros Hx Hy. unfold F.ltb, F.leb, SFltb, SFleb.
  rewrite (SFcompare_antisym x y).
  pose proof (SFcompare_not_nan x y Hx Hy) as Hc.
  destruct (SFcompare x y) as [[ | | ] | ]; simpl; congruence.
Qed.

Lemma isfinite_not_nan (x : float) : F.isfinite x = true -> F.is_nan x = false.
Proof. destruct x; simpl; congruence. Qed.

Lemma ltb_irrefl (x : float) : F.ltb x x = false.
Proof.
  unfold F.ltb, SFltb.
  destruct x as [s | s | | s m e]; simpl; try reflexivity.
  - destruct s; reflexivity.
  - destruct s; rewrite Z.compare_refl;
      change (Pos.compare_cont Eq m m) with (Pos.compare m m);
      rewrite Pos.compare_refl; reflexivity.
Qed.

End FloatFacts.

(** ** The epipolar trace *)

Lemma status_eqb_eq (a b : ImmaturePointStatus) : status_eqb a b = true <-> a = b.
Proof. destruct a, b; simpl; split; intros; congruence. Qed.

Lemma status_eqb_neq (a b : ImmaturePointStatus) : status_eqb a b = false <-> a <> b.
Proof. destruct a, b; simpl; split; intros; congruence. Qed.

Section TraceOnFacts.
Variable cfg : Settings.
Variable Image : Type.
Variable getInterpolatedElement31 : Image -> float -> float -> Z -> float.
Variable getInterpolatedElement33 : Image -> float -> float -> Z -> Vec3f.

Local Abbreviation traceOn := (traceOn cfg Image getInterpolatedElement31 getInterpolatedElement33).
Local Abbreviation traceOn_search :=
  (traceOn_search cfg Image getInterpolatedElement31 getInterpolatedElement33).
Local Abbreviation traceOn_discrete := (traceOn_discrete cfg Image getInterpolatedElement31).
Local Abbreviation traceOn_GN := (traceOn_GN cfg Image getInterpolatedElement33).

Local Abbreviation Exit :=
  (Exit cfg Image getInterpolatedElement31 getInterpolatedElement33).
Local Abbreviation reachesEnergyGate :=
  (reachesEnergyGate cfg Image getInterpolatedElement31 getInterpolatedElement33).

Lemma traceOn_segment_inl (p : ImmaturePoint) (KRKi : Mat33f) (Kt : Vec3f)
    (r : ImmaturePoint * ImmaturePointStatus) :
  traceOn_segment cfg p KRKi Kt = inl r ->
  (snd r = IPS_OOB \/ snd r = IPS_SKIPPED) /\ lastTraceStatus (fst r) = snd r
  /\ idepth_min (fst r) = idepth_min p /\ idepth_max (fst r) = idepth_max p.
Proof.
  unfold traceOn_segment, ret_OOB.
  repeat match goal with
         | |- context [if ?c then _ else _] => destruct c
         end;
    intros H; inversion H; subst;
    cbn [fst snd set_trace lastTraceStatus idepth_min idepth_max]; auto.
Qed.

Lemma errorInPixel_quality (p : ImmaturePoint) (sg : Segment) (s : Search) :
  errorInPixel cfg (traceOn_quality cfg p sg s) sg = errorInPixel cfg p sg.
Proof.
  unfold traceOn_quality.
  destruct (_ || _); reflexivity.
Qed.

Lemma traceOn_quality_keeps (p : ImmaturePoint) (sg : Segment) (s : Search) :
  let q := traceOn_quality cfg p sg s in
  lastTraceStatus q = lastTraceStatus p
  /\ idepth_min q = idepth_min p /\ idepth_max q = idepth_max p
  /\ energyTH q = energyTH p.
Proof.
  unfold traceOn_quality. destruct (_ || _); cbn [fst snd set_trace set_quality lastTraceStatus idepth_min idepth_max energyTH]; auto.
Qed.

Lemma traceOn_search_exit (p : ImmaturePoint) (frame : Image) (KRKi : Mat33f)
    (Kt : Vec3f) (aff : Vec2f) (sg : Segment) :
  traceOn_segment cfg p KRKi Kt = inr sg ->
  Exit p frame KRKi Kt aff (traceOn_search p frame Kt aff sg).
Proof.
  intros Hsg. unfold traceOn_search, ret_OOB.
  destruct (negb (_ || _)).
  { apply exit_early; cbn [fst snd set_trace set_quality lastTraceStatus idepth_min idepth_max energyTH]; auto. }
  destruct (_ && F.isfinite _).
  { apply exit_early; cbn [fst snd set_trace set_quality lastTraceStatus idepth_min idepth_max energyTH]; auto. }
  destruct (negb (F.isfinite _) || _).
  { apply exit_early; cbn [fst snd set_trace set_quality lastTraceStatus idepth_min idepth_max energyTH]; auto. }
  set (s := traceOn_discrete p frame aff sg).
  destruct (traceOn_quality_keeps p sg s) as (Hst & Hlo & Hhi & _).
  destruct (traceOn_GN _ frame aff sg s) as [g | ] eqn:Hg.
  2:{ apply exit_early; cbn [fst snd set_trace set_quality lastTraceStatus idepth_min idepth_max energyTH]; auto. }
  destruct (energyGateFails _ _ _).
  - unfold ret_energyOutlier.
    destruct (status_eqb _ IPS_OUTLIER) eqn:Ho.
    + apply exit_early; cbn [fst snd set_trace set_quality lastTraceStatus idepth_min idepth_max energyTH]; auto.
    + apply exit_energy; cbn [fst snd set_trace set_quality lastTraceStatus idepth_min idepth_max energyTH]; auto.
      rewrite <- Hst. apply status_eqb_neq. exact Ho.
  - apply exit_interval with (sg := sg) (g := g); auto.
    rewrite errorInPixel_quality. reflexivity.
Qed.

(** every call of [traceOn] ends in one of the three ways *)
Lemma traceOn_exit (p : ImmaturePoint) (frame : Image) (KRKi : Mat33f)
    (Kt : Vec3f) (aff : Vec2f) :
  Exit p frame KRKi Kt aff (traceOn p frame KRKi Kt aff).
Proof.
  unfold dso.traceOn.
  destruct (status_eqb (lastTraceStatus p) IPS_OOB) eqn:Hoob.
  { apply status_eqb_eq in Hoob. apply exit_early; cbn [fst snd set_trace set_quality lastTraceStatus idepth_min idepth_max energyTH]; auto. }
  destruct (traceOn_segment cfg p KRKi Kt) as [r | sg] eqn:Hsg.
  - destruct (traceOn_segment_inl _ _ _ _ Hsg) as (Hs & Hl & Hlo & Hhi).
    apply exit_early; auto. destruct Hs; auto.
  - apply traceOn_search_exit with (KRKi := KRKi). exact Hsg.
Qed.

Lemma ordered_sorted (lohi : float * float) :
  F.gtb (fst (ordered lohi)) (snd (ordered lohi)) = false.
Proof.
  unfold ordered. destruct (F.gtb (fst lohi) (snd lohi)) eqn:H; cbn [fst snd].
  - unfold F.gtb, F.ltb, SFltb in *.
    rewrite (SFcompare_antisym (snd lohi) (fst lohi)).
    destruct (SFcompare (snd lohi) (fst lohi)) as [[ | | ] | ]; simpl in *; congruence.
  - exact H.
Qed.

Lemma goodInterval_facts (lo hi : float) :
  F.gtb lo hi = false -> badInterval lo hi = false ->
  F.isfinite lo = true /\ F.isfinite hi = true
  /\ F.leb lo hi = true /\ F.leb (F.of_Z 0) hi = true.
Proof.
  unfold badInterval, F.gtb. intros Hs Hb.
  apply orb_false_elim in Hb. destruct Hb as (Hb & Hneg).
  apply orb_false_elim in Hb. destruct Hb as (Hlo & Hhi).
  apply negb_false_iff in Hlo. apply negb_false_iff in Hhi.
  repeat split; auto.
  - apply ltb_false_leb; auto using isfinite_not_nan.
  - apply ltb_false_leb; auto using isfinite_not_nan.
Qed.

(** what the interval update stores and returns *)
Lemma setNewInterval_cases (p : ImmaturePoint) (pr Kt : Vec3f)
    (dx dy bestU bestV errorInPixel : float) :
  let lohi := ordered (reliftedInterval pr Kt dx dy bestU bestV errorInPixel) in
  let r := setNewInterval p pr Kt dx dy bestU bestV errorInPixel in
  idepth_min (fst r) = fst lohi /\ idepth_max (fst r) = snd lohi
  /\ F.gtb (idepth_min (fst r)) (idepth_max (fst r)) = false
  /\ lastTraceStatus (fst r) = snd r
  /\ (if badInterval (fst lohi) (snd lohi)
      then snd r = IPS_OUTLIER
           /\ lastTracePixelInterval (fst r) = F.zero
           /\ lastTraceUV (fst r) = V2 f_m1 f_m1
      else snd r = IPS_GOOD
           /\ lastTracePixelInterval (fst r) = F.mul (F.of_Z 2) errorInPixel
           /\ lastTraceUV (fst r) = V2 bestU bestV).
Proof.
  intros lohi r. subst r. unfold setNewInterval. fold lohi.
  cbn [set_idepth idepth_min idepth_max].
  pose proof (ordered_sorted (reliftedInterval pr Kt dx dy bestU bestV errorInPixel))
    as Hs. fold lohi in Hs.
  destruct (badInterval (fst lohi) (snd lohi));
    cbn [fst snd set_trace idepth_min idepth_max lastTraceStatus
         lastTracePixelInterval lastTraceUV];
    repeat split; auto.
Qed.

(** C2 (as amended) -- the interval update of [traceOn], lines 418-443.
    The re-lifted endpoints are put in order and stored.  If one of them is
    not finite or the upper one is negative, the status is OUTLIER (never
    OOB), with [lastTracePixelInterval = 0] and [lastTraceUV = (-1,-1)];
    otherwise the status is GOOD, the stored interval is finite and ordered
    with a non-negative upper end, [lastTracePixelInterval] is
    [2 * errorInPixel] and [lastTraceUV] is the best match. *)
Theorem setNewInterval_outcome (p : ImmaturePoint) (pr Kt : Vec3f)
    (dx dy bestU bestV errorInPixel : float) :
  let relifted := reliftedInterval pr Kt dx dy bestU bestV errorInPixel in
  let r := setNewInterval p pr Kt dx dy bestU bestV errorInPixel in
  let lo := idepth_min (fst r) in
  let hi := idepth_max (fst r) in
  (lo, hi) = (if F.gtb (fst relifted) (snd relifted)
              then (snd relifted, fst relifted) else relifted)
  /\ lastTraceStatus (fst r) = snd r
  /\ snd r <> IPS_OOB
  /\ (if negb (F.isfinite lo) || negb (F.isfinite hi) || F.ltb hi (F.of_Z 0)
      then snd r = IPS_OUTLIER
           /\ lastTracePixelInterval (fst r) = F.zero
           /\ lastTraceUV (fst r) = V2 f_m1 f_m1
      else snd r = IPS_GOOD
           /\ F.leb lo hi = true /\ F.leb (F.of_Z 0) hi = true
           /\ lastTracePixelInterval (fst r) = F.mul (F.of_Z 2) errorInPixel
           /\ lastTraceUV (fst r) = V2 bestU bestV).
Proof.
  intros relifted r lo hi.
  pose proof (setNewInterval_cases p pr Kt dx dy bestU bestV errorInPixel) as C.
  cbv zeta in C. fold relifted r in C. fold lo hi in C.
  destruct C as (Hlo & Hhi & Hord & Hst & Hcase).
  rewrite <- Hlo, <- Hhi in Hcase.
  split; [ | split; [exact Hst | ]].
  - rewrite Hlo, Hhi. unfold ordered.
    destruct (F.gtb (fst relifted) (snd relifted)); [reflexivity | ].
    destruct relifted; reflexivity.
  - fold (badInterval lo hi). destruct (badInterval lo hi) eqn:Hbad.
    + destruct Hcase as (Hs & Hw & Huv). rewrite Hs. repeat split; auto; discriminate.
    + destruct Hcase as (Hs & Hw & Huv). rewrite Hs.
      destruct (goodInterval_facts lo hi Hord Hbad) as (_ & _ & F3 & F4).
      repeat split; auto; discriminate.
Qed.

(** C9 -- the status returned by [traceOn] is the one it stores, so only a
    GOOD return leaves [lastTraceStatus = GOOD]; and on GOOD the stored
    interval is ordered, finite, with a non-negative upper end,
    [lastTracePixelInterval] is twice the (capped) [errorInPixel] of the
    search segment and [lastTraceUV] is the Gauss-Newton refined best
    match. *)
Theorem traceOn_GOOD (p : ImmaturePoint) (frame : Image) (KRKi : Mat33f) (Kt : Vec3f)
    (aff : Vec2f) (p' : ImmaturePoint) (st : ImmaturePointStatus) :
  traceOn p frame KRKi Kt aff = (p', st) ->
  lastTraceStatus p' = st
  /\ (st = IPS_GOOD ->
      F.leb (idepth_min p') (idepth_max p') = true
      /\ F.isfinite (idepth_min p') = true /\ F.isfinite (idepth_max p') = true
      /\ F.leb (F.of_Z 0) (idepth_max p') = true
      /\ exists (sg : Segment) (g : GN),
           traceOn_segment cfg p KRKi Kt = inr sg
           /\ traceOn_GN (traceOn_quality cfg p sg (traceOn_discrete p frame aff sg))
                frame aff sg (traceOn_discrete p frame aff sg) = Some g
           /\ lastTracePixelInterval p' = F.mul (F.of_Z 2) (errorInPixel cfg p sg)
           /\ lastTraceUV p' = V2 (n_bestU g) (n_bestV g)).
Proof.
  intros H. pose proof (traceOn_exit p frame KRKi Kt aff) as E.
  rewrite H in E.
  destruct E as [Hs Hl _ _ | Hs _ Hl _ _ | sg g Hsg Hg Hr]; cbn [fst snd] in *.
  - split; [exact Hl | ]. intros ->. destruct Hs as [Hs | [Hs | Hs]]; discriminate.
  - split; [congruence | ]. intros ->. discriminate.
  - pose proof (setNewInterval_cases
                  (traceOn_quality cfg p sg (traceOn_discrete p frame aff sg))
                  (sg_pr sg) Kt (search_dx cfg sg) (search_dy cfg sg)
                  (n_bestU g) (n_bestV g) (errorInPixel cfg p sg)) as O.
    cbv zeta in O. rewrite <- Hr in O. cbn [fst snd] in O.
    destruct O as (Hlo & Hhi & Hord & Hst & Hcase).
    split; [exact Hst | ]. intros ->.
    rewrite <- Hlo, <- Hhi in Hcase.
    destruct (badInterval (idepth_min p') (idepth_max p')) eqn:Hbad.
    + destruct Hcase as (Hc & _). discriminate.
    + destruct Hcase as (_ & Hw & Huv).
      destruct (goodInterval_facts _ _ Hord Hbad) as (F1 & F2 & F3 & F4).
      repeat split; auto.
      exists sg, g. auto.
Qed.

(** what [traceOn] returns once it is at the energy gate *)
Lemma traceOn_at_gate (p : ImmaturePoint) (frame : Image) (KRKi : Mat33f)
    (Kt : Vec3f) (aff : Vec2f) (sg : Segment) (g : GN) :
  reachesEnergyGate p frame KRKi Kt aff sg g ->
  let q := traceOn_quality cfg p sg (traceOn_discrete p frame aff sg) in
  traceOn p frame KRKi Kt aff
  = if F.ltb (n_bestEnergy g) (F.mul (energyTH p) (setting_trace_extraSlackOnTH cfg))
    then setNewInterval q (sg_pr sg) Kt (search_dx cfg sg) (search_dy cfg sg)
           (n_bestU g) (n_bestV g) (errorInPixel cfg p sg)
    else ret_energyOutlier q.
Proof.
  intros (Hoob & Hsg & Hscale & Hbad & Hdx & Hdy & Hg) q.
  unfold dso.traceOn.
  rewrite (proj2 (status_eqb_neq _ _) Hoob), Hsg.
  unfold dso.traceOn_search.
  rewrite Hscale, Hbad, Hdx, Hdy. cbn [negb orb].
  cbv zeta in Hg. rewrite Hg. subst q.
  unfold energyGateFails.
  destruct (traceOn_quality_keeps p sg (traceOn_discrete p frame aff sg))
    as (_ & _ & _ & Hth).
  rewrite Hth, errorInPixel_quality.
  destruct (F.ltb (n_bestEnergy g) _); reflexivity.
Qed.

(** a call that returns OUTLIER has been at the energy gate *)
Lemma traceOn_OUTLIER_at_gate (p : ImmaturePoint) (frame : Image) (KRKi : Mat33f)
    (Kt : Vec3f) (aff : Vec2f) :
  snd (traceOn p frame KRKi Kt aff) = IPS_OUTLIER ->
  exists (sg : Segment) (g : GN), reachesEnergyGate p frame KRKi Kt aff sg g.
Proof.
  unfold dso.traceOn.
  destruct (status_eqb (lastTraceStatus p) IPS_OOB) eqn:Hoob.
  { apply status_eqb_eq in Hoob. cbn [snd]. congruence. }
  apply status_eqb_neq in Hoob.
  destruct (traceOn_segment cfg p KRKi Kt) as [r | sg] eqn:Hsg.
  { destruct (traceOn_segment_inl _ _ _ _ Hsg) as ([Hs | Hs] & _); congruence. }
  unfold dso.traceOn_search, ret_OOB.
  destruct (F.ltb (idepth_min p) (F.of_Z 0) || _) eqn:Hscale; cbn [negb];
    [ | cbn [snd]; discriminate].
  destruct (_ && F.isfinite (idepth_max p)) eqn:Hbad; [cbn [snd]; discriminate | ].
  destruct (F.isfinite (search_dx cfg sg)) eqn:Hdx; cbn [negb orb];
    [ | cbn [snd]; discriminate].
  destruct (F.isfinite (search_dy cfg sg)) eqn:Hdy; cbn [negb];
    [ | cbn [snd]; discriminate].
  destruct (traceOn_GN _ frame aff sg _) as [g | ] eqn:Hg;
    [ | cbn [snd]; discriminate].
  intros _. exists sg, g. unfold dso.reachesEnergyGate. cbv zeta.
  repeat (split; [assumption | ]). exact Hg.
Qed.

(** C1 (as amended) -- the second strike.  For a point whose stored status
    is OUTLIER: whenever the call gets to the energy gate and the gate fails
    ([bestEnergy < energyTH * setting_trace_extraSlackOnTH] does not hold),
    [traceOn] returns OOB, stores it, resets [lastTraceUV] and
    [lastTracePixelInterval] and leaves the interval alone.  The call can
    still return OUTLIER, but then it has passed the gate and OUTLIER comes
    from the interval update: the re-lifted interval it has stored has an end
    that is not finite, or a negative upper end. *)
Theorem traceOn_second_OUTLIER (p : ImmaturePoint) (frame : Image) (KRKi : Mat33f)
    (Kt : Vec3f) (aff : Vec2f) :
  lastTraceStatus p = IPS_OUTLIER ->
  let r := traceOn p frame KRKi Kt aff in
  (forall (sg : Segment) (g : GN),
      reachesEnergyGate p frame KRKi Kt aff sg g ->
      F.ltb (n_bestEnergy g) (F.mul (energyTH p) (setting_trace_extraSlackOnTH cfg))
      = false ->
      snd r = IPS_OOB /\ lastTraceStatus (fst r) = IPS_OOB
      /\ lastTraceUV (fst r) = V2 f_m1 f_m1
      /\ lastTracePixelInterval (fst r) = F.zero
      /\ idepth_min (fst r) = idepth_min p /\ idepth_max (fst r) = idepth_max p)
  /\ (snd r = IPS_OUTLIER ->
      exists (sg : Segment) (g : GN),
        reachesEnergyGate p frame KRKi Kt aff sg g
        /\ F.ltb (n_bestEnergy g)
                 (F.mul (energyTH p) (setting_trace_extraSlackOnTH cfg)) = true
        /\ r = setNewInterval
                 (traceOn_quality cfg p sg (traceOn_discrete p frame aff sg))
                 (sg_pr sg) Kt (search_dx cfg sg) (search_dy cfg sg)
                 (n_bestU g) (n_bestV g) (errorInPixel cfg p sg)
        /\ badInterval (idepth_min (fst r)) (idepth_max (fst r)) = true).
Proof.
  intros Hout r.
  assert (Hstrike : forall sg g,
             reachesEnergyGate p frame KRKi Kt aff sg g ->
             F.ltb (n_bestEnergy g)
                   (F.mul (energyTH p) (setting_trace_extraSlackOnTH cfg)) = false ->
             r = (set_trace (traceOn_quality cfg p sg (traceOn_discrete p frame aff sg))
                    (V2 f_m1 f_m1) F.zero IPS_OOB, IPS_OOB)).
  { intros sg g Hgate Hfail. subst r.
    rewrite (traceOn_at_gate _ _ _ _ _ _ _ Hgate). cbv zeta. rewrite Hfail.
    unfold ret_energyOutlier.
    destruct (traceOn_quality_keeps p sg (traceOn_discrete p frame aff sg))
      as (Hst & _).
    rewrite Hst, Hout. reflexivity. }
  split.
  - intros sg g Hgate Hfail. rewrite (Hstrike sg g Hgate Hfail).
    destruct (traceOn_quality_keeps p sg (traceOn_discrete p frame aff sg))
      as (_ & Hlo & Hhi & _).
    cbn [fst snd set_trace lastTraceStatus lastTraceUV lastTracePixelInterval
         idepth_min idepth_max].
    repeat split; assumption.
  - intros Hr.
    destruct (traceOn_OUTLIER_at_gate _ _ _ _ _ Hr) as (sg & g & Hgate).
    exists sg, g. split; [exact Hgate | ].
    destruct (F.ltb (n_bestEnergy g)
                (F.mul (energyTH p) (setting_trace_extraSlackOnTH cfg))) eqn:Hpass.
    + split; [reflexivity | ].
      assert (E : r = setNewInterval
                        (traceOn_quality cfg p sg (traceOn_discrete p frame aff sg))
                        (sg_pr sg) Kt (search_dx cfg sg) (search_dy cfg sg)
                        (n_bestU g) (n_bestV g) (errorInPixel cfg p sg)).
      { subst r. rewrite (traceOn_at_gate _ _ _ _ _ _ _ Hgate). cbv zeta.
        rewrite Hpass. reflexivity. }
      split; [exact E | ].
      pose proof (setNewInterval_cases
                    (traceOn_quality cfg p sg (traceOn_discrete p frame aff sg))
                    (sg_pr sg) Kt (search_dx cfg sg) (search_dy cfg sg)
                    (n_bestU g) (n_bestV g) (errorInPixel cfg p sg)) as O.
      cbv zeta in O. rewrite <- E in O.
      destruct O as (Hlo & Hhi & _ & _ & Hcase).
      rewrite <- Hlo, <- Hhi in Hcase.
      destruct (badInterval (idepth_min (fst r)) (idepth_max (fst r)));
        [reflexivity | ].
      destruct Hcase as (Hc & _). fold r in Hr. congruence.
    + rewrite (Hstrike sg g Hgate Hpass) in Hr. discriminate.
Qed.

Lemma between_isfinite (a x b : float) :
  F.gtb x a = true -> F.ltb x b = true -> F.isfinite x = true.
Proof.
  unfold F.gtb, F.ltb, SFltb.
  destruct x as [s | s | | s m e]; try reflexivity.
  - destruct a as [sa | sa | | sa ma ea], b as [sb | sb | | sb mb eb], s;
      simpl; try destruct sa; try destruct sb; congruence.
  - destruct a; simpl; congruence.
Qed.

Lemma admissible_isfinite (KRKi : Mat33f) (px : Vec2f) :
  admissible cfg KRKi px = true ->
  F.isfinite (v2x px) = true /\ F.isfinite (v2y px) = true.
Proof.
  unfold admissible, insideBounds. intros H.
  apply andb_prop in H. destruct H as (H & Hy2).
  apply andb_prop in H. destruct H as (H & Hx2).
  apply andb_prop in H. destruct H as (Hx1 & Hy1).
  split; eapply between_isfinite; eauto.
Qed.

Lemma sub_diag_finite (x : float) : F.isfinite x = true -> F.sub x x = F.zero.
Proof.
  destruct x as [s | s | | s m e]; simpl; try discriminate; intros _.
  - destruct s; reflexivity.
  - unfold F.sub, SFsub. rewrite Z.sub_diag. reflexivity.
Qed.

(** a projected interval whose two ends coincide has length zero *)
Lemma endpointDistance_zero (p : ImmaturePoint) (KRKi : Mat33f) (Kt : Vec3f) :
  idepth_max p = idepth_min p ->
  admissible cfg KRKi (projectedPixel p KRKi Kt (idepth_min p)) = true ->
  endpointDistance p KRKi Kt = F.zero.
Proof.
  intros Heq Hadm. unfold endpointDistance. rewrite Heq.
  destruct (admissible_isfinite _ _ Hadm) as (Hx & Hy).
  rewrite (sub_diag_finite _ Hx), (sub_diag_finite _ Hy). reflexivity.
Qed.

Lemma traceOn_skips (p : ImmaturePoint) (frame : Image) (KRKi : Mat33f) (Kt : Vec3f)
    (aff : Vec2f) :
  lastTraceStatus p <> IPS_OOB ->
  F.isfinite (idepth_max p) = true ->
  admissible cfg KRKi (projectedPixel p KRKi Kt (idepth_min p)) = true ->
  admissible cfg KRKi (projectedPixel p KRKi Kt (idepth_max p)) = true ->
  F.ltb (endpointDistance p KRKi Kt) (setting_trace_slackInterval cfg) = true ->
  let r := traceOn p frame KRKi Kt aff in
  snd r = IPS_SKIPPED /\ lastTraceStatus (fst r) = IPS_SKIPPED
  /\ idepth_min (fst r) = idepth_min p /\ idepth_max (fst r) = idepth_max p.
Proof.
  intros Hst Hfin Hmin Hmax Hd r. subst r.
  unfold dso.traceOn.
  apply status_eqb_neq in Hst. rewrite Hst.
  unfold traceOn_segment.
  unfold admissible, projectedPixel in Hmin, Hmax. cbn [v2x v2y] in Hmin, Hmax.
  unfold endpointDistance, projectedPixel in Hd. cbn [v2x v2y] in Hd.
  cbv zeta in *.
  rewrite Hmin, Hfin, Hmax, Hd.
  cbn [negb fst snd set_trace lastTraceStatus idepth_min idepth_max]. auto.
Qed.

(** C3 (as amended) -- for a point whose last status is not OOB and whose
    [idepth_max] is finite, with the projection at [idepth_min] inside the
    admissible bounds: if [idepth_max] equals [idepth_min] and
    [setting_trace_slackInterval] is positive, [traceOn] returns SKIPPED
    and keeps the interval, whatever the baseline [Kt] (a zero baseline
    included); and whenever the projection at [idepth_max] is admissible
    too and the projected length is below [setting_trace_slackInterval],
    [traceOn] returns SKIPPED and keeps the interval. *)
Theorem traceOn_SKIPPED (p : ImmaturePoint) (frame : Image) (KRKi : Mat33f) (Kt : Vec3f)
    (aff : Vec2f) :
  lastTraceStatus p <> IPS_OOB ->
  F.isfinite (idepth_max p) = true ->
  admissible cfg KRKi (projectedPixel p KRKi Kt (idepth_min p)) = true ->
  let r := traceOn p frame KRKi Kt aff in
  (idepth_max p = idepth_min p ->
   F.ltb F.zero (setting_trace_slackInterval cfg) = true ->
   snd r = IPS_SKIPPED
   /\ idepth_min (fst r) = idepth_min p /\ idepth_max (fst r) = idepth_max p)
  /\ (admissible cfg KRKi (projectedPixel p KRKi Kt (idepth_max p)) = true ->
      F.ltb (endpointDistance p KRKi Kt) (setting_trace_slackInterval cfg) = true ->
      snd r = IPS_SKIPPED
      /\ idepth_min (fst r) = idepth_min p /\ idepth_max (fst r) = idepth_max p).
Proof.
  intros Hst Hfin Hmin r. split.
  - intros Heq Hslack.
    assert (Hmax : admissible cfg KRKi (projectedPixel p KRKi Kt (idepth_max p)) = true)
      by (rewrite Heq; exact Hmin).
    assert (Hd : F.ltb (endpointDistance p KRKi Kt) (setting_trace_slackInterval cfg)
                 = true)
      by (rewrite (endpointDistance_zero p KRKi Kt Heq Hmin); exact Hslack).
    destruct (traceOn_skips p frame KRKi Kt aff Hst Hfin Hmin Hmax Hd)
      as (H1 & _ & H2 & H3).
    auto.
  - intros Hmax Hd.
    destruct (traceOn_skips p frame KRKi Kt aff Hst Hfin Hmin Hmax Hd)
      as (H1 & _ & H2 & H3).
    auto.
Qed.

End TraceOnFacts.

(** ** Initialisation check *)

(** C6 -- [initFailed] is set exactly at the tiered thresholds: with 2, 3
    or 4 keyframes in the history when [rmse] exceeds 20, 13 or 9 times
    [benchmark_initializerSlackFactor]; it is never cleared, and with 5 or
    more keyframes (as with fewer than 2) it is left as it is. *)
Theorem makeKeyFrame_initFailed (cfg : Settings) (nKF : nat) (rmse : float)
    (initFailed : bool) :
  let slack := benchmark_initializerSlackFactor cfg in
  makeKeyFrame_initCheck cfg nKF rmse initFailed
  = initFailed
    || (Nat.eqb nKF 2 && F.gtb rmse (F.mul (F.of_Z 20) slack))
    || (Nat.eqb nKF 3 && F.gtb rmse (F.mul (F.of_Z 13) slack))
    || (Nat.eqb nKF 4 && F.gtb rmse (F.mul (F.of_Z 9) slack))
  /\ makeKeyFrame_initCheck cfg (5 + nKF) rmse initFailed = initFailed
  /\ makeKeyFrame_initCheck cfg 0 rmse initFailed = initFailed
  /\ makeKeyFrame_initCheck cfg 1 rmse initFailed = initFailed.
Proof.
  intros slack. subst slack. unfold makeKeyFrame_initCheck.
  repeat split; try reflexivity.
  destruct nKF as [ | [ | [ | [ | [ | n]]]]]; cbn [Nat.leb Nat.eqb andb];
    repeat match goal with
           | |- context [F.gtb ?a ?b] => destruct (F.gtb a b)
           end;
    destruct initFailed; reflexivity.
Qed.

(** ** Rounding never yields NaN *)

Section NoNaN.
Variable prec emax : Z.

Lemma has_sign_not_nan (s : bool) (x : spec_float) : has_sign s x -> F.is_nan x = false.
Proof. destruct x; simpl; intros; auto; contradiction. Qed.

Lemma shr_1_nonneg (mrs : shr_record) : 0 <= shr_m mrs -> 0 <= shr_m (shr_1 mrs).
Proof.
  destruct mrs as [m r s]. simpl.
  destruct m as [ | [p | p | ] | [p | p | ]]; simpl; intros; lia.
Qed.

Lemma iter_pos_invariant {A : Type} (P : A -> Prop) (f : A -> A) :
  (forall x, P x -> P (f x)) -> forall n x, P x -> P (SpecFloat.iter_pos f n x).
Proof.
  intros Hf. induction n as [n IH | n IH | ]; intros x Hx; simpl; auto.
Qed.

Lemma shr_nonneg (mrs : shr_record) (e n : Z) :
  0 <= shr_m mrs -> 0 <= shr_m (fst (shr mrs e n)).
Proof.
  intros H. unfold shr. destruct n; simpl; auto.
  apply (iter_pos_invariant (fun x => 0 <= shr_m x)); auto using shr_1_nonneg.
Qed.

Lemma shr_fexp_nonneg (m e : Z) (l : location) :
  0 <= m -> 0 <= shr_m (fst (shr_fexp prec emax m e l)).
Proof.
  intros H. unfold shr_fexp. apply shr_nonneg.
  destruct l as [ | [ | | ]]; simpl; exact H.
Qed.

Lemma round_nearest_even_nonneg (m : Z) (l : location) :
  0 <= m -> 0 <= round_nearest_even m l.
Proof.
  unfold round_nearest_even. intros H.
  destruct l as [ | [ | | ]]; try destruct (Z.even m); lia.
Qed.

Lemma binary_round_aux_sign (sx : bool) (mx ex : Z) (lx : location) :
  0 <= mx -> has_sign sx (binary_round_aux prec emax sx mx ex lx).
Proof.
  intros H. unfold binary_round_aux.
  pose proof (shr_fexp_nonneg mx ex lx H) as H1.
  destruct (shr_fexp prec emax mx ex lx) as [mrs' e'].
  cbn [fst] in H1.
  pose proof (shr_fexp_nonneg _ e' loc_Exact
                (round_nearest_even_nonneg _ (loc_of_shr_record mrs') H1)) as H2.
  destruct (shr_fexp prec emax _ e' loc_Exact) as [mrs'' e''].
  cbn [fst] in H2.
  destruct (shr_m mrs'') as [ | m | m]; simpl.
  - reflexivity.
  - destruct (e'' <=? emax - prec)%Z; reflexivity.
  - pose proof (Pos2Z.neg_is_neg m). lia.
Qed.

Lemma binary_round_sign (sx : bool) (mx : positive) (ex : Z) :
  has_sign sx (binary_round prec emax sx mx ex).
Proof.
  unfold binary_round. destruct (shl_align _ _ _) as [mz ez].
  apply binary_round_aux_sign. lia.
Qed.

Lemma binary_normalize_not_nan (m e : Z) (szero : bool) :
  F.is_nan (binary_normalize prec emax m e szero) = false.
Proof.
  destruct m; simpl; auto; eapply has_sign_not_nan, binary_round_sign.
Qed.

(** adding or subtracting a finite number keeps a number a number *)
Lemma SFadd_finite_not_nan (x d : spec_float) :
  F.is_nan x = false -> F.isfinite d = true -> F.is_nan (SFadd prec emax x d) = false.
Proof.
  destruct x as [sx | sx | | sx mx ex], d as [sd | sd | | sd md ed];
    simpl; try congruence; intros _ _.
  - destruct sx, sd; reflexivity.
  - apply binary_normalize_not_nan.
Qed.

Lemma SFsub_finite_not_nan (x d : spec_float) :
  F.is_nan x = false -> F.isfinite d = true -> F.is_nan (SFsub prec emax x d) = false.
Proof.
  destruct x as [sx | sx | | sx mx ex], d as [sd | sd | | sd md ed];
    simpl; try congruence; intros _ _.
  - destruct sx, sd; reflexivity.
  - apply binary_normalize_not_nan.
Qed.
End NoNaN.

Lemma to_double_not_nan (x : float) : F.is_nan x = false -> F.is_nan (to_double x) = false.
Proof.
  destruct x; simpl; auto. intros _. apply binary_normalize_not_nan.
Qed.

Lemma to_float_not_nan (x : double) : F.is_nan x = false -> F.is_nan (to_float x) = false.
Proof.
  destruct x; simpl; auto. intros _. apply binary_normalize_not_nan.
Qed.

Lemma sub_d_not_nan (x : float) (d : double) :
  F.is_nan x = false -> F.isfinite d = true -> F.is_nan (sub_d x d) = false.
Proof.
  intros Hx Hd. unfold sub_d, D.sub.
  apply to_float_not_nan, SFsub_finite_not_nan; auto using to_double_not_nan.
Qed.

Lemma add_d_not_nan (x : float) (d : double) :
  F.is_nan x = false -> F.isfinite d = true -> F.is_nan (add_d x d) = false.
Proof.
  intros Hx Hd. unfold add_d, D.add.
  apply to_float_not_nan, SFadd_finite_not_nan; auto using to_double_not_nan.
Qed.

(** ** Rounding: canonical results and a bound for division *)

Lemma digits2_pos_lt (p : positive) : Zpos p < 2 ^ Zpos (digits2_pos p).
Proof.
  induction p as [p IH | p IH | ]; simpl digits2_pos.
  - rewrite Pos2Z.inj_succ, Z.pow_succ_r by lia. lia.
  - rewrite Pos2Z.inj_succ, Z.pow_succ_r by lia. lia.
  - reflexivity.
Qed.

Lemma digits2_pos_ge (p : positive) : 2 ^ (Zpos (digits2_pos p) - 1) <= Zpos p.
Proof.
  induction p as [p IH | p IH | ]; simpl digits2_pos.
  - rewrite Pos2Z.inj_succ.
    replace (Z.succ (Zpos (digits2_pos p)) - 1) with (Z.succ (Zpos (digits2_pos p) - 1)) by lia.
    rewrite Z.pow_succ_r by lia. lia.
  - rewrite Pos2Z.inj_succ.
    replace (Z.succ (Zpos (digits2_pos p)) - 1) with (Z.succ (Zpos (digits2_pos p) - 1)) by lia.
    rewrite Z.pow_succ_r by lia. lia.
  - simpl. lia.
Qed.

Lemma Zdigits2_bounds (m : Z) :
  0 < m -> 2 ^ (Zdigits2 m - 1) <= m < 2 ^ Zdigits2 m /\ 0 < Zdigits2 m.
Proof.
  destruct m as [ | p | p]; try lia. intros _.
  change (Zdigits2 (Zpos p)) with (Zpos (digits2_pos p)).
  pose proof (digits2_pos_lt p). pose proof (digits2_pos_ge p). lia.
Qed.

Lemma Zdigits2_unique (m d : Z) :
  0 < m -> 2 ^ (d - 1) <= m < 2 ^ d -> Zdigits2 m = d.
Proof.
  intros Hm (H1 & H2).
  destruct (Zdigits2_bounds m Hm) as ((B1 & B2) & Bd).
  assert (0 < d).
  { destruct (Z.ltb_spec 0 d); auto. rewrite Z.pow_neg_r in H1 by lia.
    assert (d = 0) by (destruct (Z.eq_dec d 0); auto; rewrite Z.pow_neg_r in H2 by lia; lia).
    subst d. simpl in H2. lia. }
  assert (Zdigits2 m - 1 < d).
  { apply (Z.pow_lt_mono_r_iff 2); lia. }
  assert (d - 1 < Zdigits2 m).
  { apply (Z.pow_lt_mono_r_iff 2); lia. }
  lia.
Qed.

Lemma Zdigits2_le_pow (m j : Z) : 0 <= j -> 0 < m -> m <= 2 ^ j -> Zdigits2 m <= j + 1.
Proof.
  intros Hj Hm H.
  destruct (Zdigits2_bounds m Hm) as ((B1 & B2) & Bd).
  assert (Zdigits2 m - 1 < j + 1).
  { apply (Z.pow_lt_mono_r_iff 2); try lia.
    rewrite Z.pow_add_r by lia. simpl (2 ^ 1). lia. }
  lia.
Qed.

Lemma shr_1_div2 (mrs : shr_record) : 0 <= shr_m mrs -> shr_m (shr_1 mrs) = shr_m mrs / 2.
Proof.
  destruct mrs as [m r s].
  destruct m as [ | [p | p | ] | p]; cbn [shr_1 shr_m]; intros H; try lia.
  - reflexivity.
  - apply Z.div_unique with (r := 1); lia.
  - apply Z.div_unique with (r := 0); lia.
  - reflexivity.
Qed.

Lemma shr_1_nonneg' (mrs : shr_record) : 0 <= shr_m mrs -> 0 <= shr_m (shr_1 mrs).
Proof.
  intros H. rewrite shr_1_div2 by auto. apply Z.div_pos; lia.
Qed.

Lemma iter_shr_1 (p : positive) : forall mrs,
  0 <= shr_m mrs ->
  shr_m (SpecFloat.iter_pos shr_1 p mrs) = shr_m mrs / 2 ^ Zpos p.
Proof.
  induction p as [p IH | p IH | ]; intros mrs H; simpl SpecFloat.iter_pos.
  - assert (H1 : 0 <= shr_m (shr_1 mrs)) by (apply shr_1_nonneg'; auto).
    assert (H2 : 0 <= shr_m (SpecFloat.iter_pos shr_1 p (shr_1 mrs))).
    { rewrite IH by auto. apply Z.div_pos; lia. }
    rewrite IH, IH, shr_1_div2 by auto.
    rewrite !Z.div_div by lia. f_equal.
    replace (Z.pos p~1) with (1 + Z.pos p + Z.pos p) by lia.
    rewrite !Z.pow_add_r by lia. change (2 ^ 1) with 2. lia.
  - assert (H2 : 0 <= shr_m (SpecFloat.iter_pos shr_1 p mrs)).
    { rewrite IH by auto. apply Z.div_pos; lia. }
    rewrite IH, IH by auto.
    rewrite !Z.div_div by lia. f_equal.
    replace (Z.pos p~0) with (Z.pos p + Z.pos p) by lia.
    rewrite !Z.pow_add_r by lia. lia.
  - rewrite shr_1_div2 by auto. reflexivity.
Qed.

Lemma shr_spec (mrs : shr_record) (e n : Z) :
  0 <= shr_m mrs ->
  (0 < n -> shr_m (fst (shr mrs e n)) = shr_m mrs / 2 ^ n /\ snd (shr mrs e n) = e + n)
  /\ (n <= 0 -> shr mrs e n = (mrs, e)).
Proof.
  intros H. unfold shr. destruct n; split; intros; try lia; auto.
  simpl. split; auto. apply iter_shr_1. exact H.
Qed.

Lemma Zdigits2_div (m n : Z) :
  0 < m -> 0 <= n -> n < Zdigits2 m ->
  Zdigits2 (m / 2 ^ n) = Zdigits2 m - n /\ 0 < m / 2 ^ n.
Proof.
  intros Hm Hn Hd.
  destruct (Zdigits2_bounds m Hm) as ((B1 & B2) & Bd).
  set (d := Zdigits2 m) in *.
  assert (P : 0 < 2 ^ n) by (apply Z.pow_pos_nonneg; lia).
  assert (L : 2 ^ (d - n - 1) <= m / 2 ^ n).
  { apply Z.div_le_lower_bound; [exact P | ].
    rewrite <- Z.pow_add_r by lia. replace (n + (d - n - 1)) with (d - 1) by lia. exact B1. }
  assert (U : m / 2 ^ n < 2 ^ (d - n)).
  { apply Z.div_lt_upper_bound; [exact P | ].
    rewrite <- Z.pow_add_r by lia. replace (n + (d - n)) with d by lia. exact B2. }
  assert (Q : 0 < 2 ^ (d - n - 1)) by (apply Z.pow_pos_nonneg; lia).
  split; [ | lia].
  apply Zdigits2_unique; [lia | ]. split; [exact L | exact U].
Qed.

Lemma div_pow2_small (m n : Z) : 0 < m -> Zdigits2 m <= n -> m / 2 ^ n = 0.
Proof.
  intros Hm Hd.
  destruct (Zdigits2_bounds m Hm) as ((B1 & B2) & Bd).
  apply Z.div_small. split; [lia | ].
  apply Z.lt_le_trans with (1 := B2). apply Z.pow_le_mono_r; lia.
Qed.

Lemma Zdigits2_pow2 (k : Z) : 0 <= k -> Zdigits2 (2 ^ k) = k + 1.
Proof.
  intros Hk. assert (0 < 2 ^ k) by (apply Z.pow_pos_nonneg; lia).
  apply Zdigits2_unique; [lia | ].
  replace (k + 1 - 1) with k by lia. split; [lia | ].
  apply Z.pow_lt_mono_r; lia.
Qed.

Lemma Zdigits2_succ (m : Z) :
  0 < m ->
  (m + 1 < 2 ^ Zdigits2 m /\ Zdigits2 (m + 1) = Zdigits2 m)
  \/ (m + 1 = 2 ^ Zdigits2 m /\ Zdigits2 (m + 1) = Zdigits2 m + 1).
Proof.
  intros Hm.
  destruct (Zdigits2_bounds m Hm) as ((B1 & B2) & Bd).
  destruct (Z.eq_dec (m + 1) (2 ^ Zdigits2 m)) as [E | N].
  - right. split; [exact E | ]. rewrite E. apply Zdigits2_pow2. lia.
  - left. split; [lia | ]. apply Zdigits2_unique; lia.
Qed.

Section Rounding.
Variable prec emax : Z.
Hypothesis Hprec : 0 < prec.

Local Abbreviation emin := (emin prec emax).
Local Abbreviation fexp := (fexp prec emax).

Lemma fexp_eq (e : Z) : fexp e = Z.max (e - prec) emin.
Proof. reflexivity. Qed.

Lemma shr_record_of_loc_m (m : Z) (l : location) : shr_m (shr_record_of_loc m l) = m.
Proof. destruct l as [ | [ | | ]]; reflexivity. Qed.

(** the mantissa and exponent that [shr_fexp] returns *)
Lemma shr_fexp_spec (m e : Z) (l : location) :
  0 <= m ->
  let n := Z.max 0 (fexp (Zdigits2 m + e) - e) in
  shr_m (fst (shr_fexp prec emax m e l)) = m / 2 ^ n
  /\ snd (shr_fexp prec emax m e l) = e + n.
Proof.
  intros Hm n. unfold shr_fexp.
  assert (H0 : 0 <= shr_m (shr_record_of_loc m l)) by (rewrite shr_record_of_loc_m; exact Hm).
  destruct (shr_spec (shr_record_of_loc m l) e (fexp (Zdigits2 m + e) - e) H0) as (Hp & Hn).
  destruct (Z.ltb_spec 0 (fexp (Zdigits2 m + e) - e)) as [Hlt | Hge].
  - destruct (Hp Hlt) as (E1 & E2). rewrite E1, E2, shr_record_of_loc_m.
    subst n. rewrite Z.max_r by lia. auto.
  - rewrite (Hn Hge). cbn [fst snd]. rewrite shr_record_of_loc_m.
    subst n. rewrite Z.max_l by lia. rewrite Z.pow_0_r, Z.div_1_r. split; lia.
Qed.

Lemma round_nearest_even_cases (m : Z) (l : location) :
  round_nearest_even m l = m \/ round_nearest_even m l = m + 1.
Proof.
  unfold round_nearest_even. destruct l as [ | [ | | ]]; auto.
  destruct (Z.even m); auto.
Qed.

(** what [binary_round_aux] returns, in terms of the mantissa [m3] and
    the exponent [e2] left by the two shifts *)
Lemma binary_round_aux_result (sx : bool) (mx ex : Z) (lx : location) :
  0 <= mx ->
  exists m1 m2 m3 e1 e2 : Z,
    m1 = mx / 2 ^ Z.max 0 (fexp (Zdigits2 mx + ex) - ex)
    /\ e1 = ex + Z.max 0 (fexp (Zdigits2 mx + ex) - ex)
    /\ (m2 = m1 \/ m2 = m1 + 1)
    /\ m3 = m2 / 2 ^ Z.max 0 (fexp (Zdigits2 m2 + e1) - e1)
    /\ e2 = e1 + Z.max 0 (fexp (Zdigits2 m2 + e1) - e1)
    /\ binary_round_aux prec emax sx mx ex lx
       = match m3 with
         | Z0 => S754_zero sx
         | Zpos m => if e2 <=? emax - prec then S754_finite sx m e2 else S754_infinity sx
         | Zneg _ => S754_nan
         end.
Proof.
  intros Hm. unfold binary_round_aux.
  destruct (shr_fexp_spec mx ex lx Hm) as (E1 & E2).
  destruct (shr_fexp prec emax mx ex lx) as [mrs' e'].
  cbn [fst snd] in E1, E2.
  assert (H1 : 0 <= shr_m mrs').
  { rewrite E1. apply Z.div_pos; [lia | ]. apply Z.pow_pos_nonneg; lia. }
  set (m2 := round_nearest_even (shr_m mrs') (loc_of_shr_record mrs')).
  assert (H2 : 0 <= m2).
  { destruct (round_nearest_even_cases (shr_m mrs') (loc_of_shr_record mrs')); fold m2 in H; lia. }
  destruct (shr_fexp_spec m2 e' loc_Exact H2) as (E3 & E4).
  destruct (shr_fexp prec emax m2 e' loc_Exact) as [mrs'' e''].
  cbn [fst snd] in E3, E4.
  exists (shr_m mrs'), m2, (shr_m mrs''), e', e''.
  repeat split; auto. apply round_nearest_even_cases.
Qed.

(** the result of rounding is canonical *)
Lemma binary_round_aux_valid (sx : bool) (mx ex : Z) (lx : location) :
  0 < mx -> ex <= fexp (Zdigits2 mx + ex) ->
  valid_binary prec emax (binary_round_aux prec emax sx mx ex lx) = true.
Proof.
  intros Hm He.
  destruct (binary_round_aux_result sx mx ex lx) as (m1 & m2 & m3 & e1 & e2 & D1 & D2 & D3 & D4 & D5 & R);
    [lia | ].
  rewrite R. clear R.
  destruct (Zdigits2_bounds mx Hm) as (_ & Hd).
  set (d := Zdigits2 mx) in *. set (c := fexp (d + ex)) in *.
  assert (Hc : c = Z.max (d + ex - prec) emin) by reflexivity.
  rewrite Z.max_r in D1, D2 by lia.
  replace (ex + (c - ex)) with c in D2 by lia. subst e1.
  assert (V : m3 = 0 \/ (0 < m3 /\ fexp (Zdigits2 m3 + e2) = e2)).
  { destruct (Z.le_gt_cases d (c - ex)) as [Hsmall | Hbig].
    - (* the first shift leaves nothing *)
      assert (Hm1 : m1 = 0) by (rewrite D1; apply div_pow2_small; auto).
      assert (c = emin) by lia.
      clear D1. subst m1.
      destruct D3 as [-> | ->].
      + left. subst m3. cbn [Zdigits2]. apply Z.div_0_l.
        assert (0 < 2 ^ Z.max 0 (fexp (0 + c) - c)) by (apply Z.pow_pos_nonneg; lia). lia.
      + right. change (0 + 1) with 1 in *. change (Zdigits2 1) with 1 in *.
        assert (F1 : fexp (1 + c) = c) by (rewrite fexp_eq; lia).
        rewrite F1 in D4, D5. replace (c - c) with 0 in * by lia.
        rewrite Z.max_l in D4, D5 by lia.
        rewrite Z.pow_0_r, Z.div_1_r in D4. subst m3 e2.
        replace (c + 0) with c by lia. change (Zdigits2 1) with 1. split; [lia | exact F1].
    - destruct (Zdigits2_div mx (c - ex) Hm ltac:(lia) Hbig) as (Hd1 & Hpos).
      fold d in Hd1. rewrite <- D1 in Hd1, Hpos.
      assert (F1 : fexp (Zdigits2 m1 + c) = c).
      { rewrite Hd1. replace (d - (c - ex) + c) with (d + ex) by lia. reflexivity. }
      destruct D3 as [-> | ->].
      + right. rewrite F1 in D4, D5. replace (c - c) with 0 in * by lia.
        rewrite Z.max_l in D4, D5 by lia.
        rewrite Z.pow_0_r, Z.div_1_r in D4. subst m3 e2.
        replace (c + 0) with c by lia. split; [lia | exact F1].
      + right. destruct (Zdigits2_succ m1 Hpos) as [(_ & Hs) | (Hp2 & Hs)].
        * rewrite Hs in D4, D5. rewrite F1 in D4, D5. replace (c - c) with 0 in * by lia.
          rewrite Z.max_l in D4, D5 by lia.
          rewrite Z.pow_0_r, Z.div_1_r in D4. subst m3 e2.
          replace (c + 0) with c by lia. rewrite Hs. split; [lia | exact F1].
        * rewrite Hs in D4, D5.
          destruct (Z.le_gt_cases emin (d + ex - prec)) as [Hnorm | Hsub].
          -- assert (Hcn : c = d + ex - prec) by lia.
             assert (F2 : fexp (Zdigits2 m1 + 1 + c) = c + 1) by (rewrite fexp_eq; lia).
             rewrite F2 in D4, D5. replace (c + 1 - c) with 1 in * by lia.
             rewrite Z.max_r in D4, D5 by lia.
             assert (Hm3 : m3 = 2 ^ (Zdigits2 m1 - 1)).
             { rewrite D4, Hp2. change (2 ^ 1) with 2.
               replace (Zdigits2 m1) with (Z.succ (Zdigits2 m1 - 1)) at 1 by lia.
               rewrite Z.pow_succ_r by lia.
               rewrite Z.mul_comm, Z.div_mul by lia. reflexivity. }
             assert (0 < m3) by (rewrite Hm3; apply Z.pow_pos_nonneg; lia).
             split; [assumption | ].
             rewrite Hm3, Zdigits2_pow2 by lia. rewrite D5, fexp_eq. lia.
          -- assert (Hcn : c = emin) by lia.
             assert (F2 : fexp (Zdigits2 m1 + 1 + c) = c) by (rewrite fexp_eq; lia).
             rewrite F2 in D4, D5. replace (c - c) with 0 in * by lia.
             rewrite Z.max_l in D4, D5 by lia.
             rewrite Z.pow_0_r, Z.div_1_r in D4. subst m3 e2.
             replace (c + 0) with c by lia. rewrite Hs. split; [lia | exact F2]. }
  destruct V as [-> | (Hpos3 & Hcan)]; [reflexivity | ].
  destruct m3 as [ | p3 | p3]; try lia.
  destruct (e2 <=? emax - prec) eqn:Hb; [ | reflexivity].
  cbn [valid_binary]. unfold bounded, canonical_mantissa.
  change (Z.pos (digits2_pos p3)) with (Zdigits2 (Z.pos p3)).
  rewrite Hcan, Z.eqb_refl, Hb. reflexivity.
Qed.
End Rounding.

Lemma Zdigits2_mul_pow2 (m k : Z) : 0 < m -> 0 <= k -> Zdigits2 (m * 2 ^ k) = Zdigits2 m + k.
Proof.
  intros Hm Hk.
  destruct (Zdigits2_bounds m Hm) as ((B1 & B2) & Bd).
  assert (P : 0 < 2 ^ k) by (apply Z.pow_pos_nonneg; lia).
  apply Zdigits2_unique; [nia | ].
  replace (Zdigits2 m + k - 1) with (Zdigits2 m - 1 + k) by lia.
  rewrite !Z.pow_add_r by lia. nia.
Qed.

Lemma Zdigits2_mul_ge (a b : Z) :
  0 < a -> 0 < b -> Zdigits2 a + Zdigits2 b - 1 <= Zdigits2 (a * b).
Proof.
  intros Ha Hb.
  destruct (Zdigits2_bounds a Ha) as ((A1 & A2) & Ad).
  destruct (Zdigits2_bounds b Hb) as ((B1 & B2) & Bd).
  destruct (Zdigits2_bounds (a * b) ltac:(nia)) as ((C1 & C2) & Cd).
  assert (L : 2 ^ (Zdigits2 a - 1 + (Zdigits2 b - 1)) <= a * b).
  { rewrite Z.pow_add_r by lia.
    assert (0 < 2 ^ (Zdigits2 a - 1)) by (apply Z.pow_pos_nonneg; lia).
    assert (0 < 2 ^ (Zdigits2 b - 1)) by (apply Z.pow_pos_nonneg; lia).
    nia. }
  assert (Zdigits2 a - 1 + (Zdigits2 b - 1) < Zdigits2 (a * b)).
  { apply (Z.pow_lt_mono_r_iff 2); lia. }
  lia.
Qed.

Lemma pos_iter_xO (m d : positive) : Zpos (Pos.iter xO m d) = Zpos m * 2 ^ Zpos d.
Proof.
  induction d as [ | d IH] using Pos.peano_ind.
  - simpl. lia.
  - rewrite Pos.iter_succ, Pos2Z.inj_xO, IH, Pos2Z.inj_succ, Z.pow_succ_r by lia. lia.
Qed.

Lemma shl_align_spec (mx : positive) (ex ex' : Z) :
  Zpos (fst (shl_align mx ex ex')) = Zpos mx * 2 ^ (ex - Z.min ex ex')
  /\ snd (shl_align mx ex ex') = Z.min ex ex'.
Proof.
  unfold shl_align. destruct (ex' - ex) as [ | d | d] eqn:E; cbn [fst snd].
  - rewrite Z.min_l by lia. replace (ex - ex) with 0 by lia. simpl. lia.
  - rewrite Z.min_l by lia. replace (ex - ex) with 0 by lia. simpl. lia.
  - rewrite Z.min_r by lia. rewrite pos_iter_xO.
    replace (ex - ex') with (Zpos d) by lia. auto.
Qed.

Section Validity.
Variable prec emax : Z.
Hypothesis Hprec : 0 < prec.
Hypothesis Hemax : prec < emax.

Local Abbreviation emin := (emin prec emax).
Local Abbreviation fexp := (fexp prec emax).
Local Abbreviation valid := (valid_binary prec emax).

Lemma emin_eq : emin = 3 - emax - prec.
Proof. reflexivity. Qed.

Lemma valid_finite (s : bool) (m : positive) (e : Z) :
  valid (S754_finite s m e) = true
  <-> fexp (Zdigits2 (Zpos m) + e) = e /\ e <= emax - prec.
Proof.
  cbn [valid_binary]. unfold bounded, canonical_mantissa.
  change (Z.pos (digits2_pos m)) with (Zdigits2 (Z.pos m)).
  rewrite andb_true_iff, Z.eqb_eq, Z.leb_le. tauto.
Qed.

Lemma binary_round_valid (sx : bool) (mx : positive) (ex : Z) :
  valid (binary_round prec emax sx mx ex) = true.
Proof.
  unfold binary_round.
  destruct (shl_align_spec mx ex (fexp (Zdigits2 (Zpos mx) + ex))) as (Em & Ee).
  change (Z.pos (digits2_pos mx)) with (Zdigits2 (Z.pos mx)).
  destruct (shl_align mx ex (fexp (Zdigits2 (Zpos mx) + ex))) as [mz ez].
  cbn [fst snd] in Em, Ee.
  apply binary_round_aux_valid; [exact Hprec | lia | ].
  rewrite Em, Zdigits2_mul_pow2 by lia. subst ez.
  replace (Zdigits2 (Z.pos mx) + (ex - Z.min ex (fexp (Zdigits2 (Z.pos mx) + ex)))
           + Z.min ex (fexp (Zdigits2 (Z.pos mx) + ex)))
    with (Zdigits2 (Z.pos mx) + ex) by lia.
  lia.
Qed.

Lemma binary_normalize_valid (m e : Z) (szero : bool) :
  valid (binary_normalize prec emax m e szero) = true.
Proof.
  destruct m; cbn [binary_normalize]; auto using binary_round_valid.
Qed.

Lemma SFadd_valid (x y : spec_float) :
  valid x = true -> valid y = true -> valid (SFadd prec emax x y) = true.
Proof.
  destruct x as [sx | sx | | sx mx ex], y as [sy | sy | | sy my ey];
    intros Hx Hy; cbn [SFadd]; auto.
  - destruct sx, sy; auto.
  - destruct sx, sy; auto.
  - apply binary_normalize_valid.
Qed.

Lemma SFsub_valid (x y : spec_float) :
  valid x = true -> valid y = true -> valid (SFsub prec emax x y) = true.
Proof.
  destruct x as [sx | sx | | sx mx ex], y as [sy | sy | | sy my ey];
    intros Hx Hy; cbn [SFsub]; auto.
  - destruct sx, sy; auto.
  - destruct sx, sy; auto.
  - apply binary_normalize_valid.
Qed.

Lemma SFmul_valid (x y : spec_float) :
  valid x = true -> valid y = true -> valid (SFmul prec emax x y) = true.
Proof.
  destruct x as [sx | sx | | sx mx ex], y as [sy | sy | | sy my ey];
    intros Hx Hy; cbn [SFmul]; auto.
  apply valid_finite in Hx. apply valid_finite in Hy.
  destruct Hx as (Cx & Bx). destruct Hy as (Cy & By).
  apply binary_round_aux_valid; [exact Hprec | lia | ].
  rewrite Pos2Z.inj_mul.
  pose proof (Zdigits2_mul_ge (Zpos mx) (Zpos my) ltac:(lia) ltac:(lia)) as Hd.
  destruct (Zdigits2_bounds (Zpos mx) ltac:(lia)) as (_ & Dx).
  destruct (Zdigits2_bounds (Zpos my) ltac:(lia)) as (_ & Dy).
  unfold SpecFloat.fexp in *. rewrite emin_eq in *. lia.
Qed.

Lemma SFabs_valid (x : spec_float) : valid x = true -> valid (SFabs x) = true.
Proof. destruct x; auto. Qed.
End Validity.

Lemma div_pow2_le (m a b : Z) : 0 <= b <= a -> m <= 2 ^ a -> m / 2 ^ b <= 2 ^ (a - b).
Proof.
  intros Hb Hm.
  assert (P : 0 < 2 ^ b) by (apply Z.pow_pos_nonneg; lia).
  apply Z.div_le_upper_bound; [exact P | ].
  rewrite <- Z.pow_add_r by lia. replace (b + (a - b)) with a by lia. exact Hm.
Qed.

Section Division.
Variable prec emax : Z.
Hypothesis Hprec : 0 < prec.
Hypothesis Hemax : prec < emax.

Local Abbreviation emin := (emin prec emax).
Local Abbreviation fexp := (fexp prec emax).
Local Abbreviation valid := (valid_binary prec emax).

(** rounding a value of at most 1 gives at most 2 *)
Lemma binary_round_aux_le_two (mx ex : Z) (lx : location) :
  0 <= mx -> ex <= 0 -> mx <= 2 ^ (- ex) ->
  binary_round_aux prec emax false mx ex lx = S754_zero false
  \/ exists (m : positive) (e : Z),
       binary_round_aux prec emax false mx ex lx = S754_finite false m e
       /\ Zpos m <= 2 ^ (1 - e).
Proof.
  intros Hm He Hle.
  destruct (binary_round_aux_result prec emax false mx ex lx Hm)
    as (m1 & m2 & m3 & e1 & e2 & D1 & D2 & D3 & D4 & D5 & R).
  rewrite R. clear R.
  pose proof (emin_eq prec emax) as Hemin.
  assert (Hq : Zdigits2 mx + ex <= 1).
  { destruct (Z.eq_dec mx 0) as [-> | N]; [cbn [Zdigits2]; lia | ].
    pose proof (Zdigits2_le_pow mx (- ex) ltac:(lia) ltac:(lia) Hle). lia. }
  assert (He1 : e1 <= 0) by (unfold SpecFloat.fexp in *; lia).
  assert (Hm1 : 0 <= m1 <= 2 ^ (- e1)).
  { split.
    - rewrite D1. apply Z.div_pos; [lia | apply Z.pow_pos_nonneg; lia].
    - rewrite D1. replace (- e1) with (- ex - Z.max 0 (fexp (Zdigits2 mx + ex) - ex)) by lia.
      apply div_pow2_le; lia. }
  assert (Hm2 : 0 <= m2 <= 2 ^ (1 - e1)).
  { replace (1 - e1) with (Z.succ (- e1)) by lia. rewrite Z.pow_succ_r by lia.
    assert (0 < 2 ^ (- e1)) by (apply Z.pow_pos_nonneg; lia). lia. }
  assert (Hq2 : Zdigits2 m2 + e1 <= 2).
  { destruct (Z.eq_dec m2 0) as [E | N]; [rewrite E; cbn [Zdigits2]; lia | ].
    pose proof (Zdigits2_le_pow m2 (1 - e1) ltac:(lia) ltac:(lia) ltac:(lia)). lia. }
  assert (He2 : e2 <= 1) by (unfold SpecFloat.fexp in *; lia).
  assert (Hm3 : 0 <= m3 <= 2 ^ (1 - e2)).
  { split.
    - rewrite D4. apply Z.div_pos; [lia | apply Z.pow_pos_nonneg; lia].
    - rewrite D4.
      replace (1 - e2) with (1 - e1 - Z.max 0 (fexp (Zdigits2 m2 + e1) - e1)) by lia.
      apply div_pow2_le; lia. }
  destruct m3 as [ | p3 | p3]; [left; reflexivity | | lia].
  right. exists p3, e2.
  rewrite (proj2 (Z.leb_le e2 (emax - prec))) by lia. split; [reflexivity | lia].
Qed.

(** the value order that the comparison of two positive numbers decides:
    [x <= y] gives [mx <= my * 2^(ey - ex)] *)
Lemma le_mantissa (mx my : positive) (ex ey : Z) :
  valid (S754_finite false mx ex) = true -> valid (S754_finite false my ey) = true ->
  SFltb (S754_finite false my ey) (S754_finite false mx ex) = false ->
  ex <= ey /\ Zpos mx <= Zpos my * 2 ^ (ey - ex).
Proof.
  intros Vx Vy Hc.
  apply (valid_finite prec emax) in Vx. apply (valid_finite prec emax) in Vy.
  destruct Vx as (Cx & Bx). destruct Vy as (Cy & By).
  unfold SFltb, SFcompare in Hc.
  destruct (Zdigits2_bounds (Zpos mx) ltac:(lia)) as ((X1 & X2) & Dx).
  destruct (Zdigits2_bounds (Zpos my) ltac:(lia)) as ((Y1 & Y2) & Dy).
  destruct (Z.compare_spec ey ex) as [E | L | G].
  - subst ey. split; [lia | ]. replace (ex - ex) with 0 by lia.
    change (Pos.compare_cont Eq my mx) with (Pos.compare my mx) in Hc.
    destruct (Pos.compare_spec my mx) as [E | L | G]; try discriminate; simpl; lia.
  - discriminate.
  - split; [lia | ].
    unfold SpecFloat.fexp in *.
    assert (Zdigits2 (Zpos my) = prec) by lia.
    assert (Zdigits2 (Zpos mx) <= prec) by lia.
    assert (Zpos mx < 2 ^ prec).
    { apply Z.lt_le_trans with (1 := X2). apply Z.pow_le_mono_r; lia. }
    assert (2 ^ prec = 2 * 2 ^ (prec - 1)).
    { replace prec with (Z.succ (prec - 1)) at 1 by lia. apply Z.pow_succ_r. lia. }
    assert (2 <= 2 ^ (ey - ex)).
    { change 2 with (2 ^ 1) at 1. apply Z.pow_le_mono_r; lia. }
    assert (Zpos my * 2 <= Zpos my * 2 ^ (ey - ex))
      by (apply Z.mul_le_mono_nonneg_l; lia).
    replace (Zdigits2 (Zpos my)) with prec in Y1 by lia.
    lia.
Qed.

Lemma SFdiv_le_two (mt ma : positive) (et ea : Z) :
  valid (S754_finite false mt et) = true -> valid (S754_finite false ma ea) = true ->
  SFltb (S754_finite false ma ea) (S754_finite false mt et) = false ->
  let q := SFdiv prec emax (S754_finite false mt et) (S754_finite false ma ea) in
  q = S754_zero false
  \/ exists (m : positive) (e : Z), q = S754_finite false m e /\ Zpos m <= 2 ^ (1 - e).
Proof.
  intros Vt Va Hc q. subst q.
  destruct (le_mantissa mt ma et ea Vt Va Hc) as (Hee & Hmm).
  cbn [SFdiv xorb]. unfold SFdiv_core_binary.
  set (e' := Z.min (fexp (Zdigits2 (Zpos mt) + et - (Zdigits2 (Zpos ma) + ea))) (et - ea)).
  set (s := et - ea - e').
  assert (Hs : 0 <= s) by (subst s e'; lia).
  set (m' := match s with Zpos _ => Z.shiftl (Zpos mt) s | Z0 => Zpos mt | Zneg _ => 0 end).
  assert (Hm' : m' = Zpos mt * 2 ^ s).
  { subst m'. clearbody s. destruct s as [ | ps | ps].
    - rewrite Z.pow_0_r. lia.
    - apply Z.shiftl_mul_pow2. lia.
    - lia. }
  pose proof (Z_div_mod m' (Zpos ma) ltac:(lia)) as Hdm.
  destruct (Z.div_eucl m' (Zpos ma)) as [qq rr].
  destruct Hdm as (Hdm & Hr).
  assert (P1 : 0 < 2 ^ s) by (apply Z.pow_pos_nonneg; lia).
  assert (P2 : 0 < 2 ^ (ea - et)) by (apply Z.pow_pos_nonneg; lia).
  assert (Hpow : 2 ^ (- e') = 2 ^ (ea - et) * 2 ^ s).
  { rewrite <- Z.pow_add_r by lia. f_equal. subst s. lia. }
  assert (Hq0 : 0 <= qq) by nia.
  assert (Hq : qq <= 2 ^ (- e')).
  { rewrite Hpow. nia. }
  apply binary_round_aux_le_two; auto. subst e'. lia.
Qed.
End Division.

(** ** Density control *)

Section Density.
Variable cfg : Settings.

Lemma in_0_4_not_nan (c : float) : in_0_4 c -> F.is_nan c = false.
Proof.
  intros (H & _). unfold F.leb, SFleb in H.
  destruct c; simpl in *; congruence.
Qed.

(** lines 630-631 *)
Lemma clamp_in_0_4 (c : float) :
  F.is_nan c = false ->
  in_0_4 (let c := if F.ltb c (F.of_Z 0) then F.of_Z 0 else c in
          if F.gtb c (F.of_Z 4) then F.of_Z 4 else c).
Proof.
  intros Hc. cbv zeta.
  destruct (F.ltb c (F.of_Z 0)) eqn:H0.
  - vm_compute. auto.
  - destruct (F.gtb c (F.of_Z 4)) eqn:H4.
    + vm_compute. auto.
    + split.
      * apply ltb_false_leb; auto.
      * apply ltb_false_leb; auto.
Qed.

Lemma adjustMinActDist_in_0_4 (nPoints : Z) (c : float) :
  F.is_nan c = false -> in_0_4 (adjustMinActDist cfg nPoints c).
Proof.
  intros Hc. unfold adjustMinActDist. cbv zeta.
  apply clamp_in_0_4.
  repeat match goal with
         | |- F.is_nan (if ?b then _ else _) = false => destruct b
         | |- F.is_nan (sub_d _ _) = false => apply sub_d_not_nan; [ | reflexivity]
         | |- F.is_nan (add_d _ _) = false => apply add_d_not_nan; [ | reflexivity]
         end; exact Hc.
Qed.
End Density.

Section DensityRuns.
Variable cfg : Settings.
Variable DistanceMap : Type.
Variable makeDistanceMap : list FrameHessian -> FrameHessian -> DistanceMap.
Variable fwdWarpedIDDistFinal : DistanceMap -> Z -> float.
Variable addIntoDistFinal : DistanceMap -> Z -> Z -> DistanceMap.
Variable EnergyFunctional : Type.
Variable nPoints : EnergyFunctional -> Z.
Variable insertPoint : EnergyFunctional -> PointHessian -> EnergyFunctional.
Variable insertResidual : EnergyFunctional -> PointFrameResidual -> EnergyFunctional.
Variable hostToNew : FrameHessian -> FrameHessian -> Mat33f * Vec3f.
Variable optimizeImmaturePoint : list FrameHessian -> ImmaturePoint -> Optimized.

Local Abbreviation activatePointsMT :=
  (activatePointsMT cfg DistanceMap makeDistanceMap fwdWarpedIDDistFinal
     addIntoDistFinal EnergyFunctional nPoints insertPoint insertResidual hostToNew
     optimizeImmaturePoint).
Local Abbreviation currentMinActDist_after :=
  (currentMinActDist_after cfg DistanceMap makeDistanceMap fwdWarpedIDDistFinal
     addIntoDistFinal EnergyFunctional nPoints insertPoint insertResidual hostToNew
     optimizeImmaturePoint).

(** the value a pass stores is the adjusted and clamped one *)
Lemma activatePointsMT_currentMinActDist (frameHessians : list FrameHessian)
    (c : float) (ef : EnergyFunctional) :
  snd (fst (activatePointsMT frameHessians c ef)) = adjustMinActDist cfg (nPoints ef) c.
Proof.
  unfold dso.activatePointsMT.
  destruct (last frameHessians); [ | reflexivity].
  destruct (activateFrames _ _ _ _ _ _ _ _ _ _) as [frames st].
  destruct (fold_left _ _ _) as [frames' ef']. reflexivity.
Qed.

Lemma currentMinActDist_after_in_0_4
    (calls : list (list FrameHessian * EnergyFunctional)) (c : float) :
  in_0_4 c -> in_0_4 (currentMinActDist_after calls c).
Proof.
  revert c. induction calls as [ | [frames ef] calls IH]; intros c Hc; simpl.
  - exact Hc.
  - apply IH. rewrite activatePointsMT_currentMinActDist.
    apply adjustMinActDist_in_0_4, in_0_4_not_nan, Hc.
Qed.

(** C5 -- [currentMinActDist] starts at 2 and is written by the
    activation pass only; the value every pass computes, uses and stores
    is the clamped one, so after any sequence of passes (and in each one,
    after the adjustment) it lies in [0, 4]. *)
Theorem currentMinActDist_saturates
    (calls : list (list FrameHessian * EnergyFunctional))
    (frameHessians : list FrameHessian) (ef : EnergyFunctional) :
  let c := currentMinActDist_after calls currentMinActDist_init in
  in_0_4 c
  /\ snd (fst (activatePointsMT frameHessians c ef)) = adjustMinActDist cfg (nPoints ef) c
  /\ in_0_4 (adjustMinActDist cfg (nPoints ef) c).
Proof.
  intros c.
  assert (Hc : in_0_4 c).
  { apply currentMinActDist_after_in_0_4. vm_compute. auto. }
  repeat split; try apply Hc.
  - apply activatePointsMT_currentMinActDist.
  - apply adjustMinActDist_in_0_4, in_0_4_not_nan, Hc.
  - apply adjustMinActDist_in_0_4, in_0_4_not_nan, Hc.
Qed.
End DensityRuns.

(** ** Gamma inversion *)

Section GammaFacts.
Implicit Types (BInv Bt : list float) (i s : nat).

Lemma gamma_inner_length BInv i (ss : list nat) Bt :
  length (gamma_inner BInv i ss Bt) = length Bt.
Proof.
  induction ss as [ | s ss IH]; simpl; auto.
  destruct (gamma_brackets BInv i s); auto. apply length_insert.
Qed.

Lemma gamma_inner_other BInv i (ss : list nat) Bt (j : nat) :
  j <> i -> gamma_inner BInv i ss Bt !! j = Bt !! j.
Proof.
  intros Hj. induction ss as [ | s ss IH]; simpl; auto.
  destruct (gamma_brackets BInv i s); auto.
  apply list_lookup_insert_ne. auto.
Qed.

(** the inner loop stops at the first [s] that brackets [i] *)
Lemma gamma_inner_first BInv i (ss1 ss2 : list nat) s Bt :
  (i < length Bt)%nat ->
  Forall (fun s' => gamma_brackets BInv i s' = false) ss1 ->
  gamma_brackets BInv i s = true ->
  gamma_inner BInv i (ss1 ++ s :: ss2) Bt !! i = Some (gamma_interp BInv i s).
Proof.
  intros Hi Hno Hs. induction Hno as [ | s' ss1 Hs' Hno IH]; simpl.
  - rewrite Hs. apply list_lookup_insert_eq. exact Hi.
  - rewrite Hs'. exact IH.
Qed.

(** what the inner loop leaves at [i] depends on the old entry only *)
Lemma gamma_inner_at_congr BInv i (ss : list nat) Bt1 Bt2 :
  length Bt1 = length Bt2 -> Bt1 !! i = Bt2 !! i ->
  gamma_inner BInv i ss Bt1 !! i = gamma_inner BInv i ss Bt2 !! i.
Proof.
  intros Hl Hi. induction ss as [ | s ss IH]; simpl; auto.
  destruct (gamma_brackets BInv i s); auto.
  destruct (decide (i < length Bt1)%nat) as [Hlt | Hge].
  - rewrite !list_lookup_insert_eq by lia. reflexivity.
  - rewrite !lookup_ge_None_2 by (rewrite length_insert; lia). reflexivity.
Qed.

Lemma gamma_outer_cons BInv i (idxs : list nat) Bt :
  gamma_outer BInv (i :: idxs) Bt
  = gamma_outer BInv idxs (gamma_inner BInv i (seq 1 254) Bt).
Proof. reflexivity. Qed.

Lemma gamma_outer_length BInv (idxs : list nat) Bt :
  length (gamma_outer BInv idxs Bt) = length Bt.
Proof.
  revert Bt. induction idxs as [ | i idxs IH]; intros Bt.
  - reflexivity.
  - rewrite gamma_outer_cons, IH. apply gamma_inner_length.
Qed.

Lemma gamma_outer_other BInv (idxs : list nat) Bt (j : nat) :
  j ∉ idxs -> gamma_outer BInv idxs Bt !! j = Bt !! j.
Proof.
  revert Bt. induction idxs as [ | i idxs IH]; intros Bt Hj.
  - reflexivity.
  - rewrite gamma_outer_cons.
    rewrite IH by (intros H; apply Hj; right; exact H).
    apply gamma_inner_other. intros ->. apply Hj. left.
Qed.

(** the outer loop visits each index once; entry [i] is the one the inner
    loop for [i] has written *)
Lemma gamma_outer_at BInv (idxs : list nat) Bt i :
  NoDup idxs -> i ∈ idxs ->
  gamma_outer BInv idxs Bt !! i = gamma_inner BInv i (seq 1 254) Bt !! i.
Proof.
  revert Bt. induction idxs as [ | k idxs IH]; intros Bt Hnd Hi.
  - inversion Hi.
  - apply NoDup_cons in Hnd. destruct Hnd as (Hk & Hnd).
    rewrite gamma_outer_cons.
    apply elem_of_cons in Hi. destruct Hi as [-> | Hi].
    + apply gamma_outer_other. exact Hk.
    + rewrite IH by auto.
      assert (i <> k) by (intros ->; contradiction).
      apply gamma_inner_at_congr.
      * apply gamma_inner_length.
      * apply gamma_inner_other. auto.
Qed.

(** C7 -- for a caller-supplied table of 256 entries, [setGammaFunction]
    copies it to [Hcalib.Binv], sets [B[0] = 0] and [B[255] = 255], and
    for every [i] in 1..254 that some [s] in 1..254 brackets
    ([BInv[s] <= i <= BInv[s+1]]) it stores in [B[i]] the interpolated
    value [s + (i - BInv[s]) / (BInv[s+1] - BInv[s])] of the first such
    [s], computed in [float]. *)
Theorem setGammaFunction_inverts (Hcalib : CalibHessian) BInv :
  length BInv = 256%nat -> length (Binv Hcalib) = 256%nat ->
  length (B Hcalib) = 256%nat ->
  let H' := setGammaFunction Hcalib (Some BInv) in
  Binv H' = BInv
  /\ B H' !! 0%nat = Some (F.of_Z 0)
  /\ B H' !! 255%nat = Some (F.of_Z 255)
  /\ forall i s,
       (1 <= i <= 254)%nat -> (1 <= s <= 254)%nat ->
       F.leb (BInv !!! s) (F.of_Z (Z.of_nat i)) = true ->
       F.geb (BInv !!! S s) (F.of_Z (Z.of_nat i)) = true ->
       (forall s', (1 <= s' < s)%nat ->
                   F.leb (BInv !!! s') (F.of_Z (Z.of_nat i))
                   && F.geb (BInv !!! S s') (F.of_Z (Z.of_nat i)) = false) ->
       B H' !! i
       = Some (F.add (F.of_Z (Z.of_nat s))
                 (F.div (F.sub (F.of_Z (Z.of_nat i)) (BInv !!! s))
                        (F.sub (BInv !!! S s) (BInv !!! s)))).
Proof.
  intros HB Hinv HBt H'. subst H'. unfold setGammaFunction. cbn [Binv B].
  assert (Hlen : length (gamma_outer BInv (seq 1 254) (B Hcalib)) = 256%nat)
    by (rewrite gamma_outer_length; exact HBt).
  split; [ | split; [ | split]].
  - rewrite take_ge by lia. rewrite drop_ge by lia. apply app_nil_r.
  - rewrite list_lookup_insert_ne by lia.
    apply list_lookup_insert_eq. lia.
  - apply list_lookup_insert_eq. rewrite length_insert. lia.
  - intros i s Hi Hs Hle Hge Hfirst.
    assert (Hhit : gamma_brackets BInv i s = true)
      by (unfold gamma_brackets, of_nat; rewrite Hle, Hge; reflexivity).
    change (F.add (F.of_Z (Z.of_nat s))
              (F.div (F.sub (F.of_Z (Z.of_nat i)) (BInv !!! s))
                     (F.sub (BInv !!! S s) (BInv !!! s))))
      with (gamma_interp BInv i s).
    rewrite !list_lookup_insert_ne by lia.
    rewrite gamma_outer_at.
    + replace (seq 1 254) with (seq 1 (s - 1) ++ s :: seq (S s) (254 - s)).
      * apply gamma_inner_first; [lia | | exact Hhit].
        apply Forall_forall. intros s' Hs'.
        apply list_elem_of_In, in_seq in Hs'.
        unfold gamma_brackets, of_nat. apply Hfirst. lia.
      * change (s :: seq (S s) (254 - s)) with (seq s (S (254 - s))).
        replace s with (1 + (s - 1))%nat at 2 by lia.
        rewrite <- seq_app. f_equal. lia.
    + apply NoDup_ListNoDup, seq_NoDup.
    + apply list_elem_of_In, in_seq. lia.
Qed.
End GammaFacts.

(** ** The activation pass *)

Section ActivationFacts.
Variable cfg : Settings.
Variable DistanceMap : Type.
Variable fwdWarpedIDDistFinal : DistanceMap -> Z -> float.
Variable addIntoDistFinal : DistanceMap -> Z -> Z -> DistanceMap.
Variable hostToNew : FrameHessian -> FrameHessian -> Mat33f * Vec3f.

Local Abbreviation activatePoint :=
  (activatePoint cfg DistanceMap fwdWarpedIDDistFinal addIntoDistFinal).
Local Abbreviation activateHost :=
  (activateHost cfg DistanceMap fwdWarpedIDDistFinal addIntoDistFinal).
Local Abbreviation activateFrames :=
  (activateFrames cfg DistanceMap fwdWarpedIDDistFinal addIntoDistFinal hostToNew).

Lemma dropped_test (p : ImmaturePoint) :
  negb (F.isfinite (idepth_max p)) || status_eqb (lastTraceStatus p) IPS_OUTLIER = true
  <-> dropped p.
Proof.
  unfold dropped. rewrite orb_true_iff, negb_true_iff, status_eqb_eq. tauto.
Qed.

Lemma canActivate_eligible (p : ImmaturePoint) :
  canActivate cfg p = true <-> eligible cfg p.
Proof.
  unfold canActivate, eligible.
  rewrite !andb_true_iff, !orb_true_iff, !status_eqb_eq. tauto.
Qed.

(** what the loop body does with one point *)
Lemma activatePoint_cases (frames : list FrameHessian) (KRKi : Mat33f) (Kt : Vec3f)
    (cur : float) (i : Z) (p : ImmaturePoint) (st : Act DistanceMap) :
  let r := activatePoint frames KRKi Kt cur i p st in
  (dropped p -> r = (None, st))
  /\ (~ dropped p -> ~ eligible cfg p -> r = (ineligible_entry frames p i, st))
  /\ (a_toOptimize _ (snd r) = a_toOptimize _ st
      \/ (a_toOptimize _ (snd r) = a_toOptimize _ st ++ [set_idx p i]
          /\ ~ dropped p /\ eligible cfg p)).
Proof.
  intros r. subst r. unfold dso.activatePoint, ineligible_entry.
  change (idepth_max (set_idx p i)) with (idepth_max p).
  change (lastTraceStatus (set_idx p i)) with (lastTraceStatus p).
  change (canActivate cfg (set_idx p i)) with (canActivate cfg p).
  change (host_flagged frames (set_idx p i)) with (host_flagged frames p).
  destruct (negb (F.isfinite (idepth_max p))
            || status_eqb (lastTraceStatus p) IPS_OUTLIER) eqn:Hd.
  { apply dropped_test in Hd. repeat split; auto. intros; contradiction. }
  assert (Hnd : ~ dropped p).
  { intros H. apply dropped_test in H. congruence. }
  destruct (canActivate cfg p) eqn:Hc; cbn [negb].
  - apply canActivate_eligible in Hc.
    repeat split; try (intros; contradiction).
    repeat match goal with
           | |- context [if ?c then _ else _] => destruct c
           end; cbn [snd a_toOptimize]; auto.
  - assert (Hne : ~ eligible cfg p).
    { intros H. apply canActivate_eligible in H. congruence. }
    repeat split; try (intros; contradiction).
    + intros _ _.
      destruct (host_flagged frames p || status_eqb (lastTraceStatus p) IPS_OOB);
        reflexivity.
    + left.
      destruct (host_flagged frames p || status_eqb (lastTraceStatus p) IPS_OOB);
        reflexivity.
Qed.

Lemma activateHost_spec (frames : list FrameHessian) (KRKi : Mat33f) (Kt : Vec3f)
    (cur : float) (pts : list (option ImmaturePoint)) :
  forall (i0 : Z) (st : Act DistanceMap),
    let r := activateHost frames KRKi Kt cur i0 pts st in
    (forall (k : nat) (p : ImmaturePoint),
        pts !! k = Some (Some p) ->
        (dropped p -> fst r !! k = Some None)
        /\ (~ dropped p -> ~ eligible cfg p ->
            fst r !! k = Some (ineligible_entry frames p (i0 + Z.of_nat k))))
    /\ (forall q, q ∈ a_toOptimize _ (snd r) ->
                  q ∈ a_toOptimize _ st \/ enqueued cfg pts i0 q).
Proof.
  induction pts as [ | [p | ] pts IH]; intros i0 st; cbn [dso.activateHost].
  - split; [intros k p H; inversion H | intros q H; left; exact H].
  - pose proof (activatePoint_cases frames KRKi Kt cur i0 p st) as C.
    destruct (activatePoint frames KRKi Kt cur i0 p st) as [slot st1].
    specialize (IH (i0 + 1)%Z st1).
    destruct (activateHost frames KRKi Kt cur (i0 + 1)%Z pts st1) as [out st'].
    cbv zeta in *. cbn [fst snd] in *.
    destruct C as (Cd & Ci & Co). destruct IH as (IHs & IHo).
    split.
    + intros [ | k] q Hk; cbn in Hk.
      * inversion Hk; subst q. rewrite Z.add_0_r. cbn.
        split; [intros H; pose proof (Cd H) as E
               | intros H1 H2; pose proof (Ci H1 H2) as E];
          inversion E; reflexivity.
      * replace (i0 + Z.of_nat (S k))%Z with (i0 + 1 + Z.of_nat k)%Z by lia.
        exact (IHs k q Hk).
    + intros q Hq. destruct (IHo q Hq) as [Hq1 | (k & p' & Hk & -> & Hnd & He)].
      * destruct Co as [Co | (Co & Hnd & He)]; rewrite Co in Hq1.
        -- left. exact Hq1.
        -- apply elem_of_app in Hq1. destruct Hq1 as [Hq1 | Hq1]; [left; auto | ].
           apply list_elem_of_singleton in Hq1. subst q.
           right. exists 0%nat, p. rewrite Z.add_0_r. auto.
      * right. exists (S k), p'.
        replace (i0 + Z.of_nat (S k))%Z with (i0 + 1 + Z.of_nat k)%Z by lia. auto.
  - specialize (IH (i0 + 1)%Z st).
    destruct (activateHost frames KRKi Kt cur (i0 + 1)%Z pts st) as [out st'].
    cbv zeta in *. cbn [fst snd] in *.
    destruct IH as (IHs & IHo).
    split.
    + intros [ | k] q Hk; cbn in Hk; [inversion Hk | ].
      replace (i0 + Z.of_nat (S k))%Z with (i0 + 1 + Z.of_nat k)%Z by lia.
      exact (IHs k q Hk).
    + intros q Hq. destruct (IHo q Hq) as [Hq1 | (k & p' & Hk & -> & Hnd & He)].
      * left. exact Hq1.
      * right. exists (S k), p'.
        replace (i0 + Z.of_nat (S k))%Z with (i0 + 1 + Z.of_nat k)%Z by lia. auto.
Qed.

(** C4 -- the loop over the window of [activatePointsMT].  The newest
    keyframe is passed over.  For the point at index [k] of any other host:
    it is deleted (its entry becomes null) if [idepth_max] is not finite
    or its last status is OUTLIER; otherwise, if it is not eligible, it is
    deleted exactly when its host is flagged for marginalisation or its
    last status is OOB and else stays at its index; and only a point that
    is eligible (status GOOD, SKIPPED, BADCONDITION or OOB, pixel interval
    below 8, quality above [setting_minTraceQuality], and
    [idepth_max + idepth_min > 0]) is enqueued for optimisation. *)
Theorem activateFrames_decisions (frames : list FrameHessian) (latest : FrameHessian)
    (cur : float) (todo : list FrameHessian) :
  forall (st : Act DistanceMap),
    let r := activateFrames frames latest cur todo st in
    (forall (j : nat) (fh : FrameHessian),
        todo !! j = Some fh ->
        exists fh', fst r !! j = Some fh'
          /\ (fh_ref fh = fh_ref latest -> fh' = fh)
          /\ (fh_ref fh <> fh_ref latest ->
              forall (k : nat) (p : ImmaturePoint),
                immaturePoints fh !! k = Some (Some p) ->
                (dropped p -> immaturePoints fh' !! k = Some None)
                /\ (~ dropped p -> ~ eligible cfg p ->
                    immaturePoints fh' !! k
                    = Some (if host_flagged frames p
                               || status_eqb (lastTraceStatus p) IPS_OOB
                            then None else Some (set_idx p (Z.of_nat k))))))
    /\ (forall q, q ∈ a_toOptimize _ (snd r) ->
          q ∈ a_toOptimize _ st
          \/ exists (j : nat) (fh : FrameHessian),
               todo !! j = Some fh /\ fh_ref fh <> fh_ref latest
               /\ exists (k : nat) (p : ImmaturePoint),
                    immaturePoints fh !! k = Some (Some p)
                    /\ q = set_idx p (Z.of_nat k)
                    /\ ~ dropped p /\ eligible cfg p).
Proof.
  induction todo as [ | fh0 todo IH]; intros st; cbn [dso.activateFrames].
  - split; [intros j fh H; inversion H | intros q H; left; exact H].
  - destruct (Nat.eqb (fh_ref fh0) (fh_ref latest)) eqn:Hl.
    + apply Nat.eqb_eq in Hl. specialize (IH st).
      destruct (activateFrames frames latest cur todo st) as [out st'].
      cbv zeta in *. cbn [fst snd] in *. destruct IH as (IHs & IHo).
      split.
      * intros [ | j] fh Hj; cbn in Hj.
        -- inversion Hj; subst fh. exists fh0.
           split; [reflexivity | ]. split; [reflexivity | ].
           intros Hne. contradiction.
        -- exact (IHs j fh Hj).
      * intros q Hq. destruct (IHo q Hq) as [H | (j & fh & Hj & Hn & H)]; auto.
        right. exists (S j), fh. auto.
    + apply Nat.eqb_neq in Hl.
      destruct (hostToNew fh0 latest) as [KRKi Kt].
      pose proof (activateHost_spec frames KRKi Kt cur (immaturePoints fh0) 0%Z st) as Hh.
      destruct (activateHost frames KRKi Kt cur 0%Z (immaturePoints fh0) st)
        as [pts st1].
      specialize (IH st1).
      destruct (activateFrames frames latest cur todo st1) as [out st'].
      cbv zeta in *. cbn [fst snd] in *.
      destruct IH as (IHs & IHo). destruct Hh as (Hhs & Hho).
      split.
      * intros [ | j] fh Hj; cbn in Hj.
        -- inversion Hj; subst fh. exists (set_immaturePoints fh0 pts).
           cbn [fst lookup list_lookup].
           split; [reflexivity | ]. split; [intros H; contradiction | ].
           intros _ k p Hk. destruct (Hhs k p Hk) as (Hd1 & Hd2).
           split; [exact Hd1 | ]. intros H1 H2.
           cbn [immaturePoints set_immaturePoints].
           rewrite (Hd2 H1 H2). reflexivity.
        -- exact (IHs j fh Hj).
      * intros q Hq. destruct (IHo q Hq) as [H | (j & fh & Hj & Hn & H)].
        -- destruct (Hho q H) as [H1 | (k & p & Hk & Hq' & Hnd & He)]; auto.
           right. exists 0%nat, fh0. repeat split; auto.
           exists k, p. auto.
        -- right. exists (S j), fh. auto.
Qed.
End ActivationFacts.

(** ** Signs *)

Lemma has_sign_false_leb (x : float) : has_sign false x -> F.leb (F.of_Z 0) x = true.
Proof. destruct x as [s | s | | s m e]; simpl; intros H; subst; auto; contradiction. Qed.

Lemma SFmul_sign (prec emax : Z) (sx sy : bool) (x y : spec_float) :
  has_sign sx x -> has_sign sy y ->
  SFmul prec emax x y = S754_nan \/ has_sign (xorb sx sy) (SFmul prec emax x y).
Proof.
  destruct x as [s1 | s1 | | s1 m1 e1], y as [s2 | s2 | | s2 m2 e2];
    cbn [has_sign SFmul]; intros Hx Hy; subst; auto; try contradiction.
  right. apply binary_round_aux_sign. lia.
Qed.

Lemma SFmul_nonneg (prec emax : Z) (x y : spec_float) :
  nonneg_or_nan x -> nonneg_or_nan y -> nonneg_or_nan (SFmul prec emax x y).
Proof.
  intros [-> | Hx] [-> | Hy]; try (left; reflexivity).
  - left. destruct x; reflexivity.
  - exact (SFmul_sign prec emax false false x y Hx Hy).
Qed.

(** a square is not negative *)
Lemma SFmul_self_nonneg (prec emax : Z) (x : spec_float) :
  nonneg_or_nan (SFmul prec emax x x).
Proof.
  destruct x as [s | s | | s m e]; cbn [SFmul].
  - right. destruct s; reflexivity.
  - right. destruct s; reflexivity.
  - left. reflexivity.
  - right. replace (xorb s s) with false by (destruct s; reflexivity).
    apply binary_round_aux_sign. lia.
Qed.

(** neither is a number times [r] times [r] *)
Lemma SFmul_twice_nonneg (prec emax : Z) (x r : spec_float) :
  nonneg_or_nan x -> nonneg_or_nan (SFmul prec emax (SFmul prec emax x r) r).
Proof.
  intros [-> | Hx]; [left; reflexivity | ].
  destruct r as [s | s | | s m e] eqn:Er.
  3:{ left. destruct (SFmul prec emax x S754_nan); reflexivity. }
  all: rewrite <- Er;
    assert (Hr : has_sign s r) by (rewrite Er; reflexivity);
    destruct (SFmul_sign prec emax false s x r Hx Hr) as [E | H1];
    [rewrite E; left; reflexivity | ];
    destruct (SFmul_sign prec emax (xorb false s) s _ r H1 Hr) as [E | H2];
    [left; exact E | ];
    right; replace (xorb (xorb false s) s) with false in H2 by (destruct s; reflexivity);
    exact H2.
Qed.

Lemma SFadd_nonneg (prec emax : Z) (x y : spec_float) :
  nonneg_or_nan x -> nonneg_or_nan y -> nonneg_or_nan (SFadd prec emax x y).
Proof.
  intros [-> | Hx] [-> | Hy]; try (left; reflexivity).
  - left. destruct x; reflexivity.
  - right.
    destruct x as [s1 | s1 | | s1 m1 e1], y as [s2 | s2 | | s2 m2 e2];
      cbn [has_sign] in Hx, Hy; subst; try contradiction; cbn [SFadd]; try reflexivity.
    cbn [cond_Zopp].
      assert (P : 0 < Z.pos (fst (shl_align m1 e1 (Z.min e1 e2)))
                    + Z.pos (fst (shl_align m2 e2 (Z.min e1 e2)))) by lia.
    destruct (Z.pos (fst (shl_align m1 e1 (Z.min e1 e2)))
              + Z.pos (fst (shl_align m2 e2 (Z.min e1 e2)))) as [ | q | q]; try lia.
    cbn [binary_normalize]. apply binary_round_sign.
Qed.

(** [two - q] is not negative when [q] is at most 2 *)
Lemma SFsub_two_nonneg (prec emax : Z) (m2 m : positive) (e2 e : Z) :
  e2 <= 1 -> Zpos m2 = 2 ^ (1 - e2) -> Zpos m <= 2 ^ (1 - e) ->
  has_sign false (SFsub prec emax (S754_finite false m2 e2) (S754_finite false m e)).
Proof.
  intros He2 Hm2 Hm. cbn [SFsub cond_Zopp].
  destruct (shl_align_spec m2 e2 (Z.min e2 e)) as (A2 & _).
  destruct (shl_align_spec m e (Z.min e2 e)) as (A1 & _).
  assert (He : e <= 1).
  { destruct (Z.le_gt_cases e 1); auto. rewrite Z.pow_neg_r in Hm by lia. lia. }
  assert (D : 0 <= Z.pos (fst (shl_align m2 e2 (Z.min e2 e)))
                   - Z.pos (fst (shl_align m e (Z.min e2 e)))).
  { rewrite A1, A2, Hm2.
    replace (Z.min e2 (Z.min e2 e)) with (Z.min e2 e) by lia.
    replace (Z.min e (Z.min e2 e)) with (Z.min e2 e) by lia.
    rewrite <- Z.pow_add_r by lia.
    assert (Zpos m * 2 ^ (e - Z.min e2 e) <= 2 ^ (1 - e) * 2 ^ (e - Z.min e2 e)).
    { apply Z.mul_le_mono_nonneg_r; [apply Z.pow_nonneg; lia | exact Hm]. }
    rewrite <- Z.pow_add_r in H by lia.
    replace (1 - e2 + (e2 - Z.min e2 e)) with (1 - e + (e - Z.min e2 e)) by lia.
    lia. }
  destruct (Z.pos (fst (shl_align m2 e2 (Z.min e2 e)))
            - Z.pos (fst (shl_align m e (Z.min e2 e)))) as [ | q | q]; try lia.
  - reflexivity.
  - cbn [binary_normalize]. apply binary_round_sign.
Qed.

(** ** calcResidual *)

Section CalcResidualFacts.
Variable cfg : Settings.
Variable Image : Type.
Variable getInterpolatedElement33 : Image -> float -> float -> Z -> Vec3f.
Variable projectPoint : float -> float -> float -> Mat33f -> Vec3f -> option (float * float).

Local Abbreviation calcResidual :=
  (calcResidual cfg Image getInterpolatedElement33 projectPoint).
Local Abbreviation calcResidual_loop :=
  (calcResidual_loop cfg Image getInterpolatedElement33 projectPoint).
Local Abbreviation pixelFails := (pixelFails cfg Image getInterpolatedElement33 projectPoint).

(** the loop is left early exactly when some pattern pixel fails *)
Lemma calcResidual_loop_None (p : ImmaturePoint) (dIl : Image)
    (precalc : FrameFramePrecalc) (idepth : float) (pat : list (Z * Z)) :
  forall (idx : nat) (E : float),
    calcResidual_loop p dIl precalc idepth idx pat E = None
    <-> Exists (pixelFails p dIl precalc idepth) pat.
Proof.
  induction pat as [ | d pat IH]; intros idx E; cbn [dso.calcResidual_loop].
  - split; [discriminate | intros H; inversion H].
  - rewrite Exists_cons. unfold dso.pixelFails at 1.
    destruct (projectPoint _ _ _ _ _) as [[Ku Kv] | ].
    + destruct (F.isfinite (v3x (getInterpolatedElement33 dIl Ku Kv (wG0 cfg))));
        cbn [negb].
      * rewrite IH. split; [auto | intros [H | H]; [discriminate | exact H]].
      * split; auto.
    + split; auto.
Qed.

Lemma two_is (x : float) : x = F.of_Z 2 -> x = S754_finite false 8388608 (-22).
Proof. intros ->. reflexivity. Qed.

(** the Huber weight is at most 2, so that [2 - hw] is not negative *)
Lemma huber_weight_nonneg (r : float) :
  valid32 (setting_huberTH cfg) -> F.isfinite (setting_huberTH cfg) = true ->
  F.ltb F.zero (setting_huberTH cfg) = true -> valid32 r ->
  nonneg_or_nan (huber_weight cfg r)
  /\ nonneg_or_nan (F.sub (F.of_Z 2) (huber_weight cfg r)).
Proof.
  intros Vt Ft Pt Vr. unfold huber_weight.
  rewrite (two_is (F.of_Z 2) eq_refl).
  destruct (F.ltb (F.abs r) (setting_huberTH cfg)) eqn:Hlt.
  { split; right; vm_compute; reflexivity. }
  destruct (setting_huberTH cfg) as [st | st | | st mt et]; try discriminate.
  destruct st; [discriminate | ].
  destruct r as [s | s | | s m e].
  - discriminate.
  - split; right; reflexivity.
  - split; left; reflexivity.
  - assert (Va : valid_binary F.prec F.emax (S754_finite false m e) = true) by exact Vr.
    destruct (SFdiv_le_two F.prec F.emax ltac:(reflexivity) ltac:(reflexivity)
                mt m et e Vt Va Hlt) as [E | (mq & eq & E & Hb)];
      cbv zeta in E; unfold F.div, F.abs; cbn [SFabs]; rewrite E.
    + split; right; reflexivity.
    + split; right; [reflexivity | ].
      apply SFsub_two_nonneg; [lia | reflexivity | exact Hb].
Qed.

Lemma at_f_valid (l : list float) (idx : nat) : Forall valid32 l -> valid32 (at_f l idx).
Proof.
  intros H. unfold at_f.
  destruct (nth_in_or_default idx l F.zero) as [Hin | ->]; [ | reflexivity].
  rewrite Forall_forall in H. apply H, list_elem_of_In, Hin.
Qed.

(** every term of the energy is not negative, or NaN *)
Lemma energy_term_nonneg (w hit c a0 a1 : float) :
  valid32 (setting_huberTH cfg) -> F.isfinite (setting_huberTH cfg) = true ->
  F.ltb F.zero (setting_huberTH cfg) = true ->
  valid32 hit -> valid32 c -> valid32 a0 -> valid32 a1 ->
  let residual := F.sub hit (F.add (F.mul a0 c) a1) in
  let hw := huber_weight cfg residual in
  nonneg_or_nan
    (F.mul (F.mul (F.mul (F.mul (F.mul w w) hw) residual) residual) (F.sub (F.of_Z 2) hw)).
Proof.
  intros Vt Ft Pt Vh Vc V0 V1 residual hw.
  assert (Vr : valid32 residual).
  { apply (SFsub_valid F.prec F.emax eq_refl); [exact Vh | ].
    apply (SFadd_valid F.prec F.emax eq_refl); [ | exact V1].
    apply (SFmul_valid F.prec F.emax eq_refl eq_refl); [exact V0 | exact Vc]. }
  destruct (huber_weight_nonneg residual Vt Ft Pt Vr) as (H1 & H2). fold hw in H1, H2.
  apply SFmul_nonneg; [ | exact H2].
  apply SFmul_twice_nonneg.
  apply SFmul_nonneg; [ | exact H1].
  apply SFmul_self_nonneg.
Qed.

Lemma calcResidual_loop_nonneg (p : ImmaturePoint) (dIl : Image)
    (precalc : FrameFramePrecalc) (idepth : float) (pat : list (Z * Z)) :
  residualInputsValid cfg Image getInterpolatedElement33 p dIl precalc ->
  forall (idx : nat) (E0 E : float),
    nonneg_or_nan E0 ->
    calcResidual_loop p dIl precalc idepth idx pat E0 = Some E ->
    nonneg_or_nan E.
Proof.
  intros (Vt & Ft & Pt & V0 & V1 & Vc & Vs).
  induction pat as [ | d pat IH]; intros idx E0 E H0; cbn [dso.calcResidual_loop].
  - intros H. inversion H. subst. exact H0.
  - destruct (projectPoint _ _ _ _ _) as [[Ku Kv] | ]; [ | discriminate].
    destruct (negb (F.isfinite (v3x (getInterpolatedElement33 dIl Ku Kv (wG0 cfg)))));
      [discriminate | ].
    apply IH. apply SFadd_nonneg; [exact H0 | ].
    apply energy_term_nonneg; auto. apply at_f_valid. exact Vc.
Qed.

(** C10 (as amended) -- [calcResidual] returns the sentinel [1e10] when
    the projection of a pattern pixel fails or the colour it hits is not
    finite, and only then leaves the loop early; otherwise it returns the
    accumulated energy [E], replaced by [energyTH * outlierTHSlack] when
    [E] is greater.  In the second case the result is not greater than
    [energyTH * outlierTHSlack]; in both, it is never strictly between
    [energyTH * outlierTHSlack] and [1e10].  When the data read are
    well-formed numbers and [setting_huberTH] is positive and finite, the
    result is [energyTH * outlierTHSlack], or NaN, or not negative. *)
Theorem calcResidual_capped (p : ImmaturePoint) (outlierTHSlack : float)
    (precalc : FrameFramePrecalc) (dIl : Image) (idepth : float) :
  let r := calcResidual p outlierTHSlack precalc dIl idepth in
  let cap := F.mul (energyTH p) outlierTHSlack in
  (Exists (pixelFails p dIl precalc idepth) (patternP cfg) -> r = f_1e10)
  /\ (~ Exists (pixelFails p dIl precalc idepth) (patternP cfg) ->
      exists E, calcResidual_loop p dIl precalc idepth 0 (patternP cfg) F.zero = Some E
                /\ r = (if F.gtb E cap then cap else E)
                /\ F.gtb r cap = false)
  /\ ~ (F.ltb cap r = true /\ F.ltb r f_1e10 = true)
  /\ (residualInputsValid cfg Image getInterpolatedElement33 p dIl precalc ->
      r = cap \/ F.is_nan r = true \/ F.leb (F.of_Z 0) r = true).
Proof.
  intros r cap. subst r. unfold dso.calcResidual. fold cap.
  pose proof (calcResidual_loop_None p dIl precalc idepth (patternP cfg) 0 F.zero) as HN.
  pose proof (fun V => calcResidual_loop_nonneg p dIl precalc idepth (patternP cfg) V
                         0%nat F.zero) as HS.
  destruct (calcResidual_loop p dIl precalc idepth 0 (patternP cfg) F.zero)
    as [E | ] eqn:HE.
  - assert (Hcap : F.gtb (if F.gtb E cap then cap else E) cap = false).
    { destruct (F.gtb E cap) eqn:Hg; [apply ltb_irrefl | exact Hg]. }
    split; [ | split; [ | split]].
    + intros H. apply HN in H. discriminate.
    + intros _. exists E. auto.
    + intros (H1 & _). unfold F.gtb, F.ltb in *. congruence.
    + intros V. destruct (F.gtb E cap); [left; reflexivity | right].
      destruct (HS V E (or_intror eq_refl) eq_refl) as [-> | Hs].
      * left. reflexivity.
      * right. apply has_sign_false_leb, Hs.
  - split; [ | split; [ | split]].
    + reflexivity.
    + intros H. exfalso. apply H, HN. reflexivity.
    + intros (_ & H2). rewrite ltb_irrefl in H2. discriminate.
    + intros _. right. right. reflexivity.
Qed.
End CalcResidualFacts.

(** ** Initialisation from the coarse initialiser *)

Section InitializerFacts.
Variable cfg : Settings.
Variable Image : Type.
Variable getInterpolatedElement33BiLin : Image -> float -> float -> Z -> Vec3f.
Variable PointHessian_new : ImmaturePoint -> PointHessian.
Variable SCALE_IDEPTH_INVERSE : float.
Variable RAND_MAX : Z.
Variable rand : nat -> Z.
Variable raw : ImmaturePoint.

Local Abbreviation makeActivePoint :=
  (makeActivePoint cfg Image getInterpolatedElement33BiLin PointHessian_new
     SCALE_IDEPTH_INVERSE RAND_MAX rand raw).
Local Abbreviation makeActivePoints :=
  (makeActivePoints cfg Image getInterpolatedElement33BiLin PointHessian_new
     SCALE_IDEPTH_INVERSE RAND_MAX rand raw).
Local Abbreviation initializeFromInitializer :=
  (initializeFromInitializer cfg Image getInterpolatedElement33BiLin PointHessian_new
     SCALE_IDEPTH_INVERSE RAND_MAX rand raw).

Lemma sumID_numID_from (points : list Pnt) (a b : float) :
  fold_left (fun acc pt => (F.add (fst acc) (iR pt), F.add (snd acc) F.one)) points (a, b)
  = (float_sum a (map iR points), float_count b (length points)).
Proof.
  revert a b. induction points as [ | pt points IH]; intros a b.
  - reflexivity.
  - cbn [fold_left fst snd map length]. rewrite IH.
    unfold float_sum, float_count. cbn [fold_left].
    rewrite Nat.iter_succ_r. reflexivity.
Qed.

Lemma rescaleFactor_eq (points : list Pnt) :
  rescaleFactor points
  = F.div (F.of_Z 1) (F.div (float_sum f_1em5 (map iR points))
                            (float_count f_1em5 (length points))).
Proof.
  unfold rescaleFactor, sumID_numID. rewrite sumID_numID_from. reflexivity.
Qed.

Lemma makeActivePoint_Some (firstFrame : FrameRef) (dI : Image) (keep rescale : float)
    (k : nat) (point : Pnt) (ph : PointHessian) :
  makeActivePoint firstFrame dI keep rescale k point = Some ph ->
  idepth_scaled ph = F.mul (iR point) rescale
  /\ hasDepthPrior ph = true /\ status ph = ACTIVE.
Proof.
  unfold dso.makeActivePoint.
  repeat match goal with
         | |- context [if ?c then _ else _] => destruct c
         end; try discriminate.
  intros H. inversion H. cbn. auto.
Qed.

Lemma makeActivePoints_elem (firstFrame : FrameRef) (dI : Image) (keep rescale : float)
    (points : list Pnt) (ph : PointHessian) :
  forall k0 : nat,
    ph ∈ makeActivePoints firstFrame dI keep rescale k0 points
    <-> exists (k : nat) (point : Pnt),
          points !! k = Some point
          /\ makeActivePoint firstFrame dI keep rescale (k0 + k) point = Some ph.
Proof.
  induction points as [ | pt points IH]; intros k0; cbn [dso.makeActivePoints].
  - split; [intros H; inversion H | intros (k & point & H & _); inversion H].
  - assert (Hshift : forall k, (S k0 + k = k0 + S k)%nat) by (intros; lia).
    destruct (makeActivePoint firstFrame dI keep rescale k0 pt) as [ph0 | ] eqn:H0.
    + rewrite elem_of_cons, IH. split.
      * intros [-> | (k & point & Hk & Hm)].
        -- exists 0%nat, pt. rewrite Nat.add_0_r. auto.
        -- exists (S k), point. rewrite <- Hshift. auto.
      * intros ([ | k] & point & Hk & Hm); cbn in Hk.
        -- inversion Hk; subst point. rewrite Nat.add_0_r in Hm. left. congruence.
        -- right. exists k, point. rewrite Hshift. auto.
    + rewrite IH. split.
      * intros (k & point & Hk & Hm). exists (S k), point. rewrite <- Hshift. auto.
      * intros ([ | k] & point & Hk & Hm); cbn in Hk.
        -- inversion Hk; subst point. rewrite Nat.add_0_r in Hm. congruence.
        -- exists k, point. rewrite Hshift. auto.
Qed.

End InitializerFacts.

(** ** The claims on the concrete scene *)

(** C1, counterexample -- two consecutive OUTLIER returns on one point: a
    fresh point is traced against a frame of a very different brightness
    (the energy gate fails: OUTLIER), then against a frame in which its
    match lies behind the camera (the re-lifted interval is negative:
    OUTLIER again, although the stored status was OUTLIER). *)
Lemma traceOn_OUTLIER_twice :
  let r1 := Scene.trace Scene.fresh (Scene.uniform (F.of_Z 200)) Scene.Kt_x in
  let r2 := Scene.trace (fst r1) (Scene.ramp 1 1) Scene.Kt_x in
  snd r1 = IPS_OUTLIER /\ lastTraceStatus (fst r1) = IPS_OUTLIER
  /\ snd r2 = IPS_OUTLIER.
Proof. vm_compute. auto. Qed.

Lemma traceOn_second_OUTLIER_witness :
  let p := Scene.outlier_once in
  let r := Scene.trace p Scene.grey Scene.Kt_x in
  let r' := Scene.trace p (Scene.ramp 1 1) Scene.Kt_x in
  lastTraceStatus p = IPS_OUTLIER
  /\ reachesEnergyGate Scene.cfg Scene.Image Scene.sample31 Scene.sample33
       p Scene.grey Scene.identity33 Scene.Kt_x Scene.aff_id
       Scene.gate_segment Scene.gate_match
  /\ F.ltb (n_bestEnergy Scene.gate_match)
           (F.mul (energyTH p) (setting_trace_extraSlackOnTH Scene.cfg)) = false
  /\ snd r = IPS_OOB /\ lastTraceStatus (fst r) = IPS_OOB
  /\ snd r' = IPS_OUTLIER
  /\ badInterval (idepth_min (fst r')) (idepth_max (fst r')) = true.
Proof.
  intros p r r'.
  assert (H1 : lastTraceStatus p = IPS_OUTLIER) by (vm_compute; reflexivity).
  assert (H2 : reachesEnergyGate Scene.cfg Scene.Image Scene.sample31 Scene.sample33
                 p Scene.grey Scene.identity33 Scene.Kt_x Scene.aff_id
                 Scene.gate_segment Scene.gate_match).
  { unfold reachesEnergyGate. cbv zeta.
    split; [vm_compute; discriminate | ].
    split; [vm_compute; reflexivity | ].
    split; [vm_compute; reflexivity | ].
    split; [vm_compute; reflexivity | ].
    split; [vm_compute; reflexivity | ].
    split; vm_compute; reflexivity. }
  assert (H3 : F.ltb (n_bestEnergy Scene.gate_match)
                 (F.mul (energyTH p) (setting_trace_extraSlackOnTH Scene.cfg)) = false)
    by (vm_compute; reflexivity).
  assert (H4 : snd r' = IPS_OUTLIER) by (vm_compute; reflexivity).
  split; [exact H1 | ]. split; [exact H2 | ]. split; [exact H3 | ].
  destruct (proj1 (traceOn_second_OUTLIER Scene.cfg Scene.Image Scene.sample31
                     Scene.sample33 p Scene.grey Scene.identity33 Scene.Kt_x
                     Scene.aff_id H1)
              Scene.gate_segment Scene.gate_match H2 H3) as (Hs & Hl & _).
  split; [exact Hs | ]. split; [exact Hl | ]. split; [exact H4 | ].
  destruct (proj2 (traceOn_second_OUTLIER Scene.cfg Scene.Image Scene.sample31
                     Scene.sample33 p (Scene.ramp 1 1) Scene.identity33 Scene.Kt_x
                     Scene.aff_id H1) H4) as (sg' & g' & _ & _ & _ & Hbad).
  exact Hbad.
Defined.

(** C2, counterexample -- the interval update is reached with a negative
    re-lifted interval, and the status returned is OUTLIER, not OOB. *)
Lemma traceOn_negative_interval_OUTLIER :
  let r := Scene.trace Scene.fresh (Scene.ramp 1 1) Scene.Kt_x in
  F.isfinite (idepth_min (fst r)) = true
  /\ F.ltb (idepth_max (fst r)) (F.of_Z 0) = true
  /\ snd r = IPS_OUTLIER /\ snd r <> IPS_OOB.
Proof. vm_compute. repeat split; auto; discriminate. Qed.

(** C3, counterexample -- a point with [idepth_min = idepth_max = 1] that
    an earlier trace has given up as OOB, a zero baseline, the projection
    inside the admissible bounds: the call returns OOB, not SKIPPED. *)
Lemma traceOn_OOB_not_SKIPPED :
  let p := Scene.certain_OOB in
  F.isfinite (idepth_max p) = true /\ idepth_max p = idepth_min p
  /\ admissible Scene.cfg Scene.identity33
       (projectedPixel p Scene.identity33 Scene.Kt_0 (idepth_min p)) = true
  /\ snd (Scene.trace p (Scene.ramp 1 0) Scene.Kt_0) = IPS_OOB.
Proof. vm_compute. auto. Qed.

Lemma traceOn_SKIPPED_witness :
  let p := Scene.certain in
  let r := Scene.trace p (Scene.ramp 1 0) Scene.Kt_0 in
  lastTraceStatus p <> IPS_OOB
  /\ F.isfinite (idepth_max p) = true
  /\ admissible Scene.cfg Scene.identity33
       (projectedPixel p Scene.identity33 Scene.Kt_0 (idepth_min p)) = true
  /\ idepth_max p = idepth_min p
  /\ F.ltb F.zero (setting_trace_slackInterval Scene.cfg) = true
  /\ snd r = IPS_SKIPPED
  /\ idepth_min (fst r) = idepth_min p /\ idepth_max (fst r) = idepth_max p.
Proof.
  intros p r.
  assert (H1 : lastTraceStatus p <> IPS_OOB) by (vm_compute; discriminate).
  assert (H2 : F.isfinite (idepth_max p) = true) by (vm_compute; reflexivity).
  assert (H3 : admissible Scene.cfg Scene.identity33
                 (projectedPixel p Scene.identity33 Scene.Kt_0 (idepth_min p)) = true)
    by (vm_compute; reflexivity).
  assert (H4 : idepth_max p = idepth_min p) by reflexivity.
  assert (H5 : F.ltb F.zero (setting_trace_slackInterval Scene.cfg) = true)
    by (vm_compute; reflexivity).
  repeat (split; [assumption | ]).
  exact (proj1 (traceOn_SKIPPED Scene.cfg Scene.Image Scene.sample31 Scene.sample33
                  p (Scene.ramp 1 0) Scene.identity33 Scene.Kt_0 Scene.aff_id H1 H2 H3)
               H4 H5).
Defined.

Lemma traceOn_GOOD_witness :
  let r := Scene.trace Scene.fresh (Scene.ramp 1 0) Scene.Kt_x in
  Scene.trace Scene.fresh (Scene.ramp 1 0) Scene.Kt_x = (fst r, IPS_GOOD)
  /\ lastTraceStatus (fst r) = IPS_GOOD
  /\ F.leb (idepth_min (fst r)) (idepth_max (fst r)) = true
  /\ F.leb (F.of_Z 0) (idepth_max (fst r)) = true.
Proof.
  intros r.
  assert (H : Scene.trace Scene.fresh (Scene.ramp 1 0) Scene.Kt_x = (fst r, IPS_GOOD))
    by (vm_compute; reflexivity).
  split; [exact H | ].
  destruct (traceOn_GOOD Scene.cfg Scene.Image Scene.sample31 Scene.sample33
              Scene.fresh (Scene.ramp 1 0) Scene.identity33 Scene.Kt_x Scene.aff_id
              (fst r) IPS_GOOD H) as (Hst & HG).
  destruct (HG eq_refl) as (Hle & _ & _ & Hpos & _).
  auto.
Defined.

Lemma activateFrames_decisions_witness :
  let r := activateFrames Scene.cfg unit Scene.fwdWarpedIDDistFinal
             Scene.addIntoDistFinal Scene.hostToNew Scene.window Scene.newest
             (F.of_Z 2) Scene.window (mkAct unit tt []) in
  Scene.window !! 0%nat = Some Scene.host0
  /\ fh_ref Scene.host0 <> fh_ref Scene.newest
  /\ immaturePoints Scene.host0 !! 0%nat = Some (Some Scene.outlier)
  /\ dropped Scene.outlier
  /\ exists fh', fst r !! 0%nat = Some fh' /\ immaturePoints fh' !! 0%nat = Some None.
Proof.
  intros r.
  assert (H1 : Scene.window !! 0%nat = Some Scene.host0) by reflexivity.
  assert (H2 : fh_ref Scene.host0 <> fh_ref Scene.newest) by (vm_compute; discriminate).
  assert (H3 : immaturePoints Scene.host0 !! 0%nat = Some (Some Scene.outlier))
    by reflexivity.
  assert (H4 : dropped Scene.outlier) by (right; reflexivity).
  repeat (split; [assumption | ]).
  destruct (proj1 (activateFrames_decisions Scene.cfg unit Scene.fwdWarpedIDDistFinal
                     Scene.addIntoDistFinal Scene.hostToNew Scene.window Scene.newest
                     (F.of_Z 2) Scene.window (mkAct unit tt [])) 0%nat Scene.host0 H1)
    as (fh' & E & _ & Hpts).
  exists fh'. split; [exact E | ].
  exact (proj1 (Hpts H2 0%nat Scene.outlier H3) H4).
Defined.

Lemma setGammaFunction_inverts_witness :
  let H' := setGammaFunction Scene.calib0 (Some Scene.BInv_id) in
  length Scene.BInv_id = 256%nat
  /\ length (Binv Scene.calib0) = 256%nat /\ length (B Scene.calib0) = 256%nat
  /\ F.leb (Scene.BInv_id !!! 2%nat) (F.of_Z 3) = true
  /\ F.geb (Scene.BInv_id !!! 3%nat) (F.of_Z 3) = true
  /\ Binv H' = Scene.BInv_id
  /\ B H' !! 3%nat = Some (F.of_Z 3)
  /\ B H' !! 200%nat = Some (F.of_Z 200).
Proof.
  intros H'.
  assert (H1 : length Scene.BInv_id = 256%nat) by reflexivity.
  assert (H2 : length (Binv Scene.calib0) = 256%nat) by reflexivity.
  assert (H3 : length (B Scene.calib0) = 256%nat) by reflexivity.
  assert (H4 : F.leb (Scene.BInv_id !!! 2%nat) (F.of_Z 3) = true)
    by (vm_compute; reflexivity).
  assert (H5 : F.geb (Scene.BInv_id !!! 3%nat) (F.of_Z 3) = true)
    by (vm_compute; reflexivity).
  split; [exact H1 | ]. split; [exact H2 | ]. split; [exact H3 | ].
  split; [exact H4 | ]. split; [exact H5 | ].
  destruct (setGammaFunction_inverts Scene.calib0 Scene.BInv_id H1 H2 H3)
    as (Hcopy & _ & _ & Hinv).
  split; [exact Hcopy | ]. split.
  - assert (E : F.of_Z 3
                = F.add (F.of_Z (Z.of_nat 2))
                    (F.div (F.sub (F.of_Z (Z.of_nat 3)) (Scene.BInv_id !!! 2%nat))
                           (F.sub (Scene.BInv_id !!! 3%nat) (Scene.BInv_id !!! 2%nat))))
      by (vm_compute; reflexivity).
    rewrite E. apply Hinv; [lia | lia | exact H4 | exact H5 | ].
    intros s' Hs'. assert (s' = 1%nat) as -> by lia. vm_compute. reflexivity.
  - assert (E : F.of_Z 200
                = F.add (F.of_Z (Z.of_nat 199))
                    (F.div (F.sub (F.of_Z (Z.of_nat 200)) (Scene.BInv_id !!! 199%nat))
                           (F.sub (Scene.BInv_id !!! 200%nat)
                                  (Scene.BInv_id !!! 199%nat))))
      by (vm_compute; reflexivity).
    rewrite E.
    apply Hinv; [lia | lia | vm_compute; reflexivity | vm_compute; reflexivity | ].
    intros s' Hs'.
    assert (Hno : forallb (fun s' => negb (F.leb (Scene.BInv_id !!! s') (F.of_Z (Z.of_nat 200))
                                           && F.geb (Scene.BInv_id !!! S s')
                                                (F.of_Z (Z.of_nat 200))))
                    (seq 1 198) = true) by (vm_compute; reflexivity).
    rewrite forallb_forall in Hno.
    apply negb_true_iff, Hno, in_seq. lia.
Defined.



(** C10, counterexample -- every input finite, every pattern pixel
    projected and its colour finite, but the brightness transfer overflows:
    the value returned is NaN, neither the sentinel nor a non-negative
    energy. *)
Lemma calcResidual_NaN :
  let target := Scene.uniform (F.of_Z 50) in
  calcResidual_loop Scene.cfg Scene.Image Scene.sample33 Scene.projectPoint
    Scene.fresh target (Scene.precalc (F.dec 1 38)) F.zero 0 (patternP Scene.cfg) F.zero
  = Some F.nan
  /\ Scene.residual (F.dec 1 38) target = F.nan
  /\ Scene.residual (F.dec 1 38) target <> f_1e10
  /\ F.leb (F.of_Z 0) (Scene.residual (F.dec 1 38) target) = false.
Proof. vm_compute. repeat split; auto; discriminate. Qed.

Lemma calcResidual_capped_witness :
  let dark := Scene.uniform F.nan in
  let grey := Scene.uniform (F.of_Z 50) in
  Exists (pixelFails Scene.cfg Scene.Image Scene.sample33 Scene.projectPoint
            Scene.fresh dark (Scene.precalc F.one) F.zero) (patternP Scene.cfg)
  /\ Scene.residual F.one dark = f_1e10
  /\ residualInputsValid Scene.cfg Scene.Image Scene.sample33 Scene.fresh grey
       (Scene.precalc F.one)
  /\ (Scene.residual F.one grey = F.mul (energyTH Scene.fresh) F.one
      \/ F.is_nan (Scene.residual F.one grey) = true
      \/ F.leb (F.of_Z 0) (Scene.residual F.one grey) = true).
Proof.
  intros dark grey.
  assert (H : Exists (pixelFails Scene.cfg Scene.Image Scene.sample33 Scene.projectPoint
                        Scene.fresh dark (Scene.precalc F.one) F.zero)
                     (patternP Scene.cfg)).
  { apply Exists_cons_hd. vm_compute. reflexivity. }
  assert (V : residualInputsValid Scene.cfg Scene.Image Scene.sample33 Scene.fresh grey
                (Scene.precalc F.one)).
  { repeat split; try (vm_compute; reflexivity).
    repeat constructor; vm_compute; reflexivity. }
  split; [exact H | ].
  split.
  { exact (proj1 (calcResidual_capped Scene.cfg Scene.Image Scene.sample33
                    Scene.projectPoint Scene.fresh F.one (Scene.precalc F.one) dark
                    F.zero) H). }
  split; [exact V | ].
  exact (proj2 (proj2 (proj2 (calcResidual_capped Scene.cfg Scene.Image Scene.sample33
                                Scene.projectPoint Scene.fresh F.one
                                (Scene.precalc F.one) grey F.zero))) V).
Defined.

(** ** The order of IEEE-754 numbers is transitive *)

Lemma SFltb_finite_pos (m1 m2 : positive) (e1 e2 : Z) :
  SFltb (S754_finite false m1 e1) (S754_finite false m2 e2) = true
  <-> e1 < e2 \/ (e1 = e2 /\ (m1 < m2)%positive).
Proof.
  unfold SFltb, SFcompare.
  change (PosDef.Pos.compare_cont Eq m1 m2) with (m1 ?= m2)%positive.
  destruct (Z.compare_spec e1 e2) as [He | He | He].
  - destruct (Pos.compare_spec m1 m2) as [Hm | Hm | Hm]; split; intros H;
      try discriminate; try lia; auto.
  - split; auto.
  - split; [discriminate | lia].
Qed.

Lemma SFltb_finite_neg (m1 m2 : positive) (e1 e2 : Z) :
  SFltb (S754_finite true m1 e1) (S754_finite true m2 e2) = true
  <-> e2 < e1 \/ (e1 = e2 /\ (m2 < m1)%positive).
Proof.
  unfold SFltb, SFcompare.
  change (PosDef.Pos.compare_cont Eq m1 m2) with (m1 ?= m2)%positive.
  destruct (Z.compare_spec e1 e2) as [He | He | He].
  - destruct (Pos.compare_spec m1 m2) as [Hm | Hm | Hm]; cbn [CompOpp]; split;
      intros H; try discriminate; try lia; auto.
  - split; [discriminate | lia].
  - split; auto.
Qed.

Lemma SFltb_trans (x y z : spec_float) :
  SFltb x y = true -> SFltb y z = true -> SFltb x z = true.
Proof.
  destruct x as [sx | sx | | sx mx ex], y as [sy | sy | | sy my ey],
           z as [sz | sz | | sz mz ez];
    try destruct sx; try destruct sy; try destruct sz;
    try (cbn; congruence);
    rewrite ?SFltb_finite_pos, ?SFltb_finite_neg; lia.
Qed.

(** [x < y] excludes [y < x] *)
Lemma SFltb_asym (x y : spec_float) : SFltb x y = true -> SFltb y x = false.
Proof.
  unfold SFltb. rewrite (SFcompare_antisym x y).
  destruct (SFcompare x y) as [[ | | ] | ]; cbn; congruence.
Qed.

(** ** More on the epipolar trace *)

Section TraceOnMore.
Variable cfg : Settings.
Variable Image : Type.
Variable getInterpolatedElement31 : Image -> float -> float -> Z -> float.
Variable getInterpolatedElement33 : Image -> float -> float -> Z -> Vec3f.

Local Abbreviation traceOn := (traceOn cfg Image getInterpolatedElement31 getInterpolatedElement33).
Local Abbreviation traceOn_search :=
  (traceOn_search cfg Image getInterpolatedElement31 getInterpolatedElement33).

Lemma same_data_refl (p : ImmaturePoint) : same_data p p.
Proof. unfold same_data. repeat split. Qed.

Lemma same_data_quality (p : ImmaturePoint) (sg : Segment) (s : Search) :
  same_data p (traceOn_quality cfg p sg s).
Proof.
  unfold traceOn_quality. destruct (_ || _); unfold same_data; cbn; repeat split.
Qed.

Ltac gave_OOB p :=
  apply traced_wrote with (q := p) (uv := V2 f_m1 f_m1) (w := F.zero);
  cbn [fst snd];
  [ assumption | reflexivity | auto using same_data_refl, same_data_quality
  | discriminate | auto
  | intros [H | H]; discriminate H ].

Lemma traceOn_search_traced (p : ImmaturePoint) (frame : Image) (Kt : Vec3f)
    (aff : Vec2f) (sg : Segment) :
  lastTraceStatus p <> IPS_OOB -> Traced p (traceOn_search p frame Kt aff sg).
Proof.
  intros Hno. unfold dso.traceOn_search, ret_OOB.
  destruct (negb (_ || _)); [gave_OOB p | ].
  destruct (_ && F.isfinite _) eqn:Hbad.
  { apply andb_prop in Hbad. destruct Hbad as (_ & Hfin).
    eapply traced_wrote with (q := p); cbn [fst snd];
      [ assumption | reflexivity | apply same_data_refl | discriminate
      | intros [H | H]; discriminate H | auto ]. }
  destruct (negb (F.isfinite _) || _); [gave_OOB p | ].
  set (s := traceOn_discrete cfg Image getInterpolatedElement31 p frame aff sg).
  set (q := traceOn_quality cfg p sg s).
  assert (Hq : same_data p q) by apply same_data_quality.
  destruct (traceOn_GN _ _ _ _ frame aff sg s) as [g | ].
  2:{ apply traced_wrote with (q := q) (uv := V2 f_m1 f_m1) (w := F.zero);
        cbn [fst snd];
        [ assumption | reflexivity | assumption | discriminate | auto
        | intros [H | H]; discriminate H ]. }
  destruct (energyGateFails _ _ _).
  - unfold ret_energyOutlier.
    destruct (status_eqb _ IPS_OUTLIER);
      apply traced_wrote with (q := q) (uv := V2 f_m1 f_m1) (w := F.zero);
      cbn [fst snd];
      solve [ assumption | reflexivity | discriminate | auto
            | intros [H | H]; discriminate H ].
  - unfold setNewInterval.
    set (lohi := ordered _).
    assert (Hq' : same_data p (set_idepth q (fst lohi) (snd lohi))).
    { unfold same_data in *. cbn. exact Hq. }
    destruct (badInterval _ _).
    + apply traced_wrote with (q := set_idepth q (fst lohi) (snd lohi))
                              (uv := V2 f_m1 f_m1) (w := F.zero);
        cbn [fst snd];
        solve [ assumption | reflexivity | discriminate | auto
              | intros [H | H]; discriminate H ].
    + eapply traced_wrote with (q := set_idepth q (fst lohi) (snd lohi));
        cbn [fst snd];
        solve [ assumption | reflexivity | discriminate
              | intros [H | H]; discriminate H ].
Qed.

(** every result of [traceOn] has this shape *)
Lemma traceOn_traced (p : ImmaturePoint) (frame : Image) (KRKi : Mat33f)
    (Kt : Vec3f) (aff : Vec2f) :
  Traced p (traceOn p frame KRKi Kt aff).
Proof.
  unfold dso.traceOn.
  destruct (status_eqb (lastTraceStatus p) IPS_OOB) eqn:Hoob.
  { apply status_eqb_eq in Hoob. apply traced_gave_up; [exact Hoob | ].
    rewrite Hoob. reflexivity. }
  apply status_eqb_neq in Hoob.
  unfold traceOn_segment, ret_OOB. cbv zeta.
  destruct (negb (insideBounds _ _ _ _ _)); [gave_OOB p | ].
  destruct (F.isfinite (idepth_max p)) eqn:Hfin.
  - destruct (negb (insideBounds _ _ _ _ _)); [gave_OOB p | ].
    destruct (F.ltb _ (setting_trace_slackInterval cfg)).
    + eapply traced_wrote with (q := p); cbn [fst snd];
        [ assumption | reflexivity | apply same_data_refl | discriminate
        | intros [H | H]; discriminate H | auto ].
    + apply traceOn_search_traced. exact Hoob.
  - destruct (negb (insideBounds _ _ _ _ _)); [gave_OOB p | ].
    apply traceOn_search_traced. exact Hoob.
Qed.

End TraceOnMore.

Section TraceOnInvariants.
Variable cfg : Settings.
Variable Image : Type.
Variable getInterpolatedElement31 : Image -> float -> float -> Z -> float.
Variable getInterpolatedElement33 : Image -> float -> float -> Z -> Vec3f.

Local Abbreviation traceOn := (traceOn cfg Image getInterpolatedElement31 getInterpolatedElement33).

Lemma traceOn_stores_status (p : ImmaturePoint) (frame : Image) (KRKi : Mat33f)
    (Kt : Vec3f) (aff : Vec2f) :
  let r := traceOn p frame KRKi Kt aff in
  lastTraceStatus (fst r) = snd r /\ snd r <> IPS_UNINITIALIZED.
Proof.
  intros r. destruct (traceOn_traced cfg Image getInterpolatedElement31
                        getInterpolatedElement33 p frame KRKi Kt aff)
    as [Hoob Hr | q uv w Hno Hr Hq Hun _ _]; fold r in Hr; try fold r in Hun.
  - rewrite Hr. cbn [fst snd]. split; [exact Hoob | discriminate].
  - split; [ | exact Hun]. rewrite Hr at 1. reflexivity.
Qed.

(** X1 -- [traceOn] writes the trace members, the quality and the
    interval of a point and nothing else: the pixel position, the host,
    the pattern colours and weights, the gradient matrix, the energy
    threshold, the point type and the index of the point are those it had
    before the call, on every path. *)
Theorem traceOn_keeps_data (p : ImmaturePoint) (frame : Image) (KRKi : Mat33f)
    (Kt : Vec3f) (aff : Vec2f) :
  let p' := fst (traceOn p frame KRKi Kt aff) in
  color p' = color p /\ weights p' = weights p /\ gradH p' = gradH p
  /\ energyTH p' = energyTH p /\ u p' = u p /\ v p' = v p /\ host p' = host p
  /\ idxInImmaturePoints p' = idxInImmaturePoints p
  /\ point_type p' = point_type p /\ idepth_GT p' = idepth_GT p.
Proof.
  intros p'. subst p'.
  destruct (traceOn_traced cfg Image getInterpolatedElement31
              getInterpolatedElement33 p frame KRKi Kt aff)
    as [Hoob Hr | q uv w Hno Hr Hq _ _ _].
  - rewrite Hr. cbn [fst]. repeat split.
  - rewrite Hr. cbn [fst]. exact Hq.
Qed.

(** X2 -- no call of [traceOn] returns UNINITIALIZED, and the status
    returned is the status stored.  A point that is out of bounds on entry
    is returned as it is.  For any other point, a return of OOB or OUTLIER
    leaves [lastTraceUV = (-1,-1)] and [lastTracePixelInterval = 0]. *)
Theorem traceOn_failure_resets (p : ImmaturePoint) (frame : Image) (KRKi : Mat33f)
    (Kt : Vec3f) (aff : Vec2f) :
  let r := traceOn p frame KRKi Kt aff in
  snd r <> IPS_UNINITIALIZED
  /\ lastTraceStatus (fst r) = snd r
  /\ (lastTraceStatus p = IPS_OOB -> r = (p, IPS_OOB))
  /\ (lastTraceStatus p <> IPS_OOB -> snd r = IPS_OOB \/ snd r = IPS_OUTLIER ->
      lastTraceUV (fst r) = V2 f_m1 f_m1
      /\ lastTracePixelInterval (fst r) = F.zero).
Proof.
  intros r.
  destruct (traceOn_stores_status p frame KRKi Kt aff) as (Hst & Hun).
  fold r in Hst, Hun.
  split; [exact Hun | ]. split; [exact Hst | ].
  destruct (traceOn_traced cfg Image getInterpolatedElement31
              getInterpolatedElement33 p frame KRKi Kt aff)
    as [Hoob Hr | q uv w Hno Hr Hq _ Hfail _]; fold r in Hr; try fold r in Hfail.
  - split; [intros _; exact Hr | intros H; contradiction].
  - split; [intros H; contradiction | ].
    intros _ Hs. destruct (Hfail Hs) as (-> & ->).
    rewrite Hr. cbn [fst]. split; reflexivity.
Qed.

(** X3 -- a point that has never been traced successfully
    ([idepth_max] is not finite, as the constructor leaves it) is never
    reported SKIPPED or BADCONDITION: [traceOn] returns GOOD, OOB or
    OUTLIER for it.  For a point of any kind, SKIPPED and BADCONDITION
    leave the quality and the interval as they were. *)
Theorem traceOn_untraced (p : ImmaturePoint) (frame : Image) (KRKi : Mat33f)
    (Kt : Vec3f) (aff : Vec2f) :
  let r := traceOn p frame KRKi Kt aff in
  (F.isfinite (idepth_max p) = false ->
   snd r = IPS_GOOD \/ snd r = IPS_OOB \/ snd r = IPS_OUTLIER)
  /\ (snd r = IPS_SKIPPED \/ snd r = IPS_BADCONDITION ->
      F.isfinite (idepth_max p) = true
      /\ quality (fst r) = quality p
      /\ idepth_min (fst r) = idepth_min p /\ idepth_max (fst r) = idepth_max p).
Proof.
  intros r.
  assert (Hkeep : snd r = IPS_SKIPPED \/ snd r = IPS_BADCONDITION ->
                  F.isfinite (idepth_max p) = true
                  /\ quality (fst r) = quality p
                  /\ idepth_min (fst r) = idepth_min p
                  /\ idepth_max (fst r) = idepth_max p).
  { destruct (traceOn_traced cfg Image getInterpolatedElement31
                getInterpolatedElement33 p frame KRKi Kt aff)
      as [Hoob Hr | q uv w Hno Hr Hq _ _ Hskip]; fold r in Hr; try fold r in Hskip.
    - rewrite Hr. cbn [snd]. intros [H | H]; discriminate H.
    - intros Hs. destruct (Hskip Hs) as (Hfin & ->).
      rewrite Hr. cbn [fst]. repeat split; auto. }
  split; [ | exact Hkeep].
  intros Hinf.
  destruct (traceOn_stores_status p frame KRKi Kt aff) as (_ & Hun).
  fold r in Hun.
  destruct (snd r) eqn:Hs; auto.
  - destruct Hkeep as (Hfin & _); [auto | congruence].
  - destruct Hkeep as (Hfin & _); [auto | congruence].
  - contradiction.
Qed.

End TraceOnInvariants.

(** ** From the trace to the activation pass *)

Section TraceThenActivate.
Variable cfg : Settings.
Variable Image : Type.
Variable getInterpolatedElement31 : Image -> float -> float -> Z -> float.
Variable getInterpolatedElement33 : Image -> float -> float -> Z -> Vec3f.
Variable DistanceMap : Type.
Variable fwdWarpedIDDistFinal : DistanceMap -> Z -> float.
Variable addIntoDistFinal : DistanceMap -> Z -> Z -> DistanceMap.

Local Abbreviation traceOn := (traceOn cfg Image getInterpolatedElement31 getInterpolatedElement33).
Local Abbreviation activatePoint :=
  (activatePoint cfg DistanceMap fwdWarpedIDDistFinal addIntoDistFinal).

Lemma traceOn_dropped (p : ImmaturePoint) (frame : Image) (KRKi : Mat33f)
    (Kt : Vec3f) (aff : Vec2f) :
  let r := traceOn p frame KRKi Kt aff in
  dropped (fst r)
  <-> snd r = IPS_OUTLIER \/ (F.isfinite (idepth_max p) = false /\ snd r <> IPS_GOOD).
Proof.
  intros r. unfold dropped.
  pose proof (traceOn_exit cfg Image getInterpolatedElement31 getInterpolatedElement33
                p frame KRKi Kt aff) as E. fold r in E.
  destruct E as [Hs Hl Hlo Hhi | Hs Hne Hl Hlo Hhi | sg g Hsg Hg Hr].
  - rewrite Hl, Hhi. split.
    + intros [H | H]; [ | auto]. right. split; [exact H | ].
      destruct Hs as [Hs | [Hs | Hs]]; rewrite Hs; discriminate.
    + intros [H | (H & _)]; auto.
  - rewrite Hl. split; auto.
  - pose proof (setNewInterval_cases
                  (traceOn_quality cfg p sg
                     (traceOn_discrete cfg Image getInterpolatedElement31 p frame aff sg))
                  (sg_pr sg) Kt (search_dx cfg sg) (search_dy cfg sg)
                  (n_bestU g) (n_bestV g) (errorInPixel cfg p sg)) as O.
    cbv zeta in O. rewrite <- Hr in O.
    destruct O as (Hlo & Hhi & Hord & Hst & Hcase).
    rewrite <- Hlo, <- Hhi in Hcase. rewrite Hst.
    destruct (badInterval (idepth_min (fst r)) (idepth_max (fst r))) eqn:Hbad.
    + destruct Hcase as (Hc & _). split; auto.
    + destruct Hcase as (Hc & _).
      destruct (goodInterval_facts _ _ Hord Hbad) as (_ & F2 & _ & _).
      rewrite Hc, F2. split.
      * intros [H | H]; discriminate H.
      * intros [H | (_ & H)]; [discriminate H | contradiction].
Qed.

(** X4 -- from the trace to the activation pass.  A point that
    [traceOn] reports as OUTLIER, and a point that has never been traced
    successfully and for which the call returns anything but GOOD, fails
    the first test of the activation loop (line 665) and is deleted there,
    whatever the window, the pose and the distance map; these are the only
    results of a trace with which a point fails that test. *)
Theorem traceOn_failed_is_deleted (p : ImmaturePoint) (frame : Image) (KRKi : Mat33f)
    (Kt : Vec3f) (aff : Vec2f) :
  let r := traceOn p frame KRKi Kt aff in
  (snd r = IPS_OUTLIER \/ (F.isfinite (idepth_max p) = false /\ snd r <> IPS_GOOD)
   <-> negb (F.isfinite (idepth_max (fst r)))
       || status_eqb (lastTraceStatus (fst r)) IPS_OUTLIER = true)
  /\ (snd r = IPS_OUTLIER \/ (F.isfinite (idepth_max p) = false /\ snd r <> IPS_GOOD) ->
      forall (frames : list FrameHessian) (KRKi' : Mat33f) (Kt' : Vec3f)
             (currentMinActDist : float) (i : Z) (st : Act DistanceMap),
        activatePoint frames KRKi' Kt' currentMinActDist i (fst r) st = (None, st)).
Proof.
  intros r. pose proof (traceOn_dropped p frame KRKi Kt aff) as D. fold r in D.
  split.
  - rewrite <- D. symmetry. apply dropped_test.
  - intros H frames KRKi' Kt' cur i st.
    apply (activatePoint_cases cfg DistanceMap fwdWarpedIDDistFinal addIntoDistFinal
             frames KRKi' Kt' cur i (fst r) st).
    apply D. exact H.
Qed.

End TraceThenActivate.

(** ** Tracing the window *)

Section TraceNewCoarseFacts.
Variable cfg : Settings.
Variable Image : Type.
Variable getInterpolatedElement31 : Image -> float -> float -> Z -> float.
Variable getInterpolatedElement33 : Image -> float -> float -> Z -> Vec3f.
Variable Frame : Type.
Variable dI : Frame -> Image.
Variable hostToFrame : FrameHessian -> Frame -> Mat33f * Vec3f * Vec2f.
Variable setPoseFromTrackingRef : Frame -> Frame.

Local Abbreviation traceOn := (traceOn cfg Image getInterpolatedElement31 getInterpolatedElement33).
Local Abbreviation tracePoint :=
  (tracePoint cfg Image getInterpolatedElement31 getInterpolatedElement33 Frame dI).
Local Abbreviation traceHost :=
  (traceHost cfg Image getInterpolatedElement31 getInterpolatedElement33 Frame dI).
Local Abbreviation traceHosts :=
  (traceHosts cfg Image getInterpolatedElement31 getInterpolatedElement33 Frame dI
     hostToFrame).
Local Abbreviation traceNewCoarse :=
  (traceNewCoarse cfg Image getInterpolatedElement31 getInterpolatedElement33 Frame dI
     hostToFrame).
Local Abbreviation makeNonKeyFrame :=
  (makeNonKeyFrame cfg Image getInterpolatedElement31 getInterpolatedElement33 Frame dI
     hostToFrame setPoseFromTrackingRef).
Local Abbreviation makeNonKeyFrames :=
  (makeNonKeyFrames cfg Image getInterpolatedElement31 getInterpolatedElement33 Frame dI
     hostToFrame setPoseFromTrackingRef).

(** the five counters of the statuses a trace can return *)
Local Abbreviation classified st :=
  (trace_good st + trace_oob st + trace_out st + trace_skip st + trace_badcondition st).

Lemma tracePoint_counts (fh : Frame) (KRKi : Mat33f) (Kt : Vec3f) (aff : Vec2f)
    (ph : ImmaturePoint) (st : TraceStats) :
  let r := tracePoint fh KRKi Kt aff ph st in
  fst r = fst (traceOn ph (dI fh) KRKi Kt aff)
  /\ trace_total (snd r) = trace_total st + 1
  /\ classified (snd r) = classified st + 1
  /\ trace_uninitialized (snd r) = trace_uninitialized st.
Proof.
  intros r. subst r. unfold dso.tracePoint. cbn [fst snd].
  destruct (traceOn_stores_status cfg Image getInterpolatedElement31
              getInterpolatedElement33 ph (dI fh) KRKi Kt aff) as (Hst & Hun).
  cbv zeta in Hst, Hun. rewrite Hst.
  cbn [trace_total trace_good trace_oob trace_out trace_skip trace_badcondition
       trace_uninitialized].
  split; [reflexivity | ]. split; [reflexivity | ].
  destruct (snd (traceOn ph (dI fh) KRKi Kt aff)); cbn [status_eqb incr_if];
    try (split; [lia | reflexivity]).
  contradiction.
Qed.

Lemma traceHost_spec (fh : Frame) (KRKi : Mat33f) (Kt : Vec3f) (aff : Vec2f)
    (pts : list (option ImmaturePoint)) :
  forall st : TraceStats,
    Forall is_Some pts ->
    exists out st',
      traceHost fh KRKi Kt aff pts st = Some (out, st')
      /\ length out = length pts
      /\ (forall (k : nat) (p : ImmaturePoint),
             pts !! k = Some (Some p) ->
             out !! k = Some (Some (fst (traceOn p (dI fh) KRKi Kt aff))))
      /\ Forall is_Some out
      /\ trace_total st' = trace_total st + Z.of_nat (length pts)
      /\ classified st' = classified st + Z.of_nat (length pts)
      /\ trace_uninitialized st' = trace_uninitialized st.
Proof.
  induction pts as [ | [p | ] pts IH]; intros st Hall; cbn [dso.traceHost].
  - exists [], st. cbn [length]. repeat split; auto; try lia.
    intros k p H. inversion H.
  - apply Forall_cons in Hall. destruct Hall as (_ & Hall).
    pose proof (tracePoint_counts fh KRKi Kt aff p st) as C.
    destruct (tracePoint fh KRKi Kt aff p st) as [p' st1].
    cbv zeta in C. cbn [fst snd] in C. destruct C as (Hp & Ht & Hc & Hu).
    destruct (IH st1 Hall) as (out & st' & E & Hlen & Hpts & Hsome & Ht' & Hc' & Hu').
    rewrite E. exists (Some p' :: out), st'.
    split; [reflexivity | ]. cbn [length].
    split; [lia | ]. split; [ | split; [ | split; [ | split]]].
    + intros [ | k] q Hk; cbn in Hk |- *.
      * inversion Hk; subst q. rewrite Hp. reflexivity.
      * apply Hpts. exact Hk.
    + apply Forall_cons. split; [eexists; reflexivity | exact Hsome].
    + lia.
    + lia.
    + congruence.
  - apply Forall_cons in Hall. destruct Hall as (Hn & _).
    destruct Hn as (x & Hx). discriminate Hx.
Qed.

Lemma traceHost_null (fh : Frame) (KRKi : Mat33f) (Kt : Vec3f) (aff : Vec2f)
    (pts : list (option ImmaturePoint)) :
  forall st : TraceStats,
    is_Some (traceHost fh KRKi Kt aff pts st) -> Forall is_Some pts.
Proof.
  induction pts as [ | [p | ] pts IH]; intros st H; cbn [dso.traceHost] in H.
  - constructor.
  - destruct (tracePoint fh KRKi Kt aff p st) as [p' st1].
    destruct (traceHost fh KRKi Kt aff pts st1) as [[out st'] | ] eqn:E.
    + apply Forall_cons. split; [eexists; reflexivity | ].
      apply (IH st1). rewrite E. eexists; reflexivity.
    + destruct H as (x & Hx). discriminate Hx.
  - destruct H as (x & Hx). discriminate Hx.
Qed.

Local Abbreviation tracedAt :=
  (tracedAt cfg Image getInterpolatedElement31 getInterpolatedElement33 Frame dI
     hostToFrame).

(** a host after the trace: the same frame, with every point traced in
    place *)
Local Abbreviation tracedHost fh host host' :=
  (fh_ref host' = fh_ref host
   /\ flaggedForMarginalization host' = flaggedForMarginalization host
   /\ pointHessians host' = pointHessians host
   /\ length (immaturePoints host') = length (immaturePoints host)
   /\ forall (k : nat) (p : ImmaturePoint),
        immaturePoints host !! k = Some (Some p) ->
        immaturePoints host' !! k = Some (Some (tracedAt fh host p))).

Lemma traceHosts_spec (fh : Frame) (hosts : list FrameHessian) :
  forall st : TraceStats,
    noNullPoints hosts ->
    exists out st',
      traceHosts fh hosts st = Some (out, st')
      /\ length out = length hosts
      /\ (forall (j : nat) (host : FrameHessian),
             hosts !! j = Some host ->
             exists host', out !! j = Some host' /\ tracedHost fh host host')
      /\ noNullPoints out
      /\ trace_total st' = trace_total st + numImmature hosts
      /\ classified st' = classified st + numImmature hosts
      /\ trace_uninitialized st' = trace_uninitialized st.
Proof.
  unfold noNullPoints.
  induction hosts as [ | host hosts IH]; intros st Hall; cbn [dso.traceHosts].
  - exists [], st. cbn [length numImmature fold_right].
    repeat split; auto; try lia. intros j host H. inversion H.
  - apply Forall_cons in Hall. destruct Hall as (Hh & Hall).
    unfold dso.tracedAt.
    destruct (hostToFrame host fh) as [[KRKi Kt] aff] eqn:Hgeo.
    destruct (traceHost_spec fh KRKi Kt aff (immaturePoints host) st Hh)
      as (pts & st1 & E1 & Hlen1 & Hpts & Hsome1 & Ht1 & Hc1 & Hu1).
    rewrite E1.
    destruct (IH st1 Hall) as (out & st' & E & Hlen & Hout & Hsome & Ht' & Hc' & Hu').
    rewrite E. exists (set_immaturePoints host pts :: out), st'.
    split; [reflexivity | ]. cbn [length numImmature fold_right].
    fold (numImmature hosts).
    split; [lia | ]. split; [ | split; [ | split; [ | split]]].
    + intros [ | j] h Hj; cbn in Hj.
      * inversion Hj; subst h. exists (set_immaturePoints host pts).
        split; [reflexivity | ]. cbn [set_immaturePoints fh_ref
          flaggedForMarginalization pointHessians immaturePoints].
        repeat split; auto. intros k p Hk. rewrite Hgeo. apply Hpts. exact Hk.
      * destruct (Hout j h Hj) as (h' & Hh' & Hrest). exists h'. split; [exact Hh' | ].
        exact Hrest.
    + apply Forall_cons. split; [exact Hsome1 | exact Hsome].
    + lia.
    + lia.
    + congruence.
Qed.

Lemma traceHosts_null (fh : Frame) (hosts : list FrameHessian) :
  forall st : TraceStats, is_Some (traceHosts fh hosts st) -> noNullPoints hosts.
Proof.
  unfold noNullPoints.
  induction hosts as [ | host hosts IH]; intros st H; cbn [dso.traceHosts] in H.
  - constructor.
  - destruct (hostToFrame host fh) as [[KRKi Kt] aff].
    destruct (traceHost fh KRKi Kt aff (immaturePoints host) st) as [[pts st1] | ] eqn:E1.
    + destruct (traceHosts fh hosts st1) as [[out st'] | ] eqn:E.
      * apply Forall_cons. split.
        -- apply (traceHost_null fh KRKi Kt aff _ st). rewrite E1. eexists; reflexivity.
        -- apply (IH st1). rewrite E. eexists; reflexivity.
      * destruct H as (x & Hx). discriminate Hx.
    + destruct H as (x & Hx). discriminate Hx.
Qed.

Lemma tracedAt_status (fh : Frame) (host : FrameHessian) (p : ImmaturePoint) :
  lastTraceStatus (tracedAt fh host p) <> IPS_UNINITIALIZED
  /\ same_data p (tracedAt fh host p)
  /\ (lastTraceStatus p = IPS_OOB -> tracedAt fh host p = p).
Proof.
  unfold dso.tracedAt. destruct (hostToFrame host fh) as [[KRKi Kt] aff].
  destruct (traceOn_stores_status cfg Image getInterpolatedElement31
              getInterpolatedElement33 p (dI fh) KRKi Kt aff) as (Hst & Hun).
  cbv zeta in Hst, Hun. split; [congruence | ].
  destruct (traceOn_traced cfg Image getInterpolatedElement31
              getInterpolatedElement33 p (dI fh) KRKi Kt aff)
    as [Hoob Hr | q uv w Hno Hr Hq _ _ _]; rewrite Hr; cbn [fst].
  - split; [apply same_data_refl | reflexivity].
  - split; [exact Hq | intros H; contradiction].
Qed.

(** X5 -- [traceNewCoarse] on a window without null entries (a null
    entry would be dereferenced): every immature point of every host is
    traced once, in place; frames and points are neither added, removed
    nor reordered.  At the end [trace_total] is the number of immature
    points of the window and equals the sum of the counters for GOOD, OOB,
    OUTLIER, SKIPPED and BADCONDITION; [trace_uninitialized] is 0, and no
    point of the window is left UNINITIALIZED. *)
Theorem traceNewCoarse_counts (frameHessians : list FrameHessian) (fh : Frame) :
  (is_Some (traceNewCoarse frameHessians fh) <-> noNullPoints frameHessians)
  /\ (noNullPoints frameHessians ->
      exists frames' st,
        traceNewCoarse frameHessians fh = Some (frames', st)
        /\ length frames' = length frameHessians
        /\ noNullPoints frames'
        /\ (forall (j : nat) (host : FrameHessian),
               frameHessians !! j = Some host ->
               exists host',
                 frames' !! j = Some host'
                 /\ fh_ref host' = fh_ref host
                 /\ flaggedForMarginalization host' = flaggedForMarginalization host
                 /\ pointHessians host' = pointHessians host
                 /\ length (immaturePoints host') = length (immaturePoints host)
                 /\ forall (k : nat) (p : ImmaturePoint),
                      immaturePoints host !! k = Some (Some p) ->
                      immaturePoints host' !! k = Some (Some (tracedAt fh host p))
                      /\ lastTraceStatus (tracedAt fh host p) <> IPS_UNINITIALIZED)
        /\ trace_total st = numImmature frameHessians
        /\ trace_good st + trace_oob st + trace_out st + trace_skip st
           + trace_badcondition st = trace_total st
        /\ trace_uninitialized st = 0).
Proof.
  assert (Hdo : noNullPoints frameHessians ->
                exists frames' st,
                  traceNewCoarse frameHessians fh = Some (frames', st)
                  /\ length frames' = length frameHessians
                  /\ noNullPoints frames'
                  /\ (forall (j : nat) (host : FrameHessian),
                         frameHessians !! j = Some host ->
                         exists host',
                           frames' !! j = Some host'
                           /\ fh_ref host' = fh_ref host
                           /\ flaggedForMarginalization host'
                              = flaggedForMarginalization host
                           /\ pointHessians host' = pointHessians host
                           /\ length (immaturePoints host')
                              = length (immaturePoints host)
                           /\ forall (k : nat) (p : ImmaturePoint),
                                immaturePoints host !! k = Some (Some p) ->
                                immaturePoints host' !! k
                                = Some (Some (tracedAt fh host p))
                                /\ lastTraceStatus (tracedAt fh host p)
                                   <> IPS_UNINITIALIZED)
                  /\ trace_total st = numImmature frameHessians
                  /\ trace_good st + trace_oob st + trace_out st + trace_skip st
                     + trace_badcondition st = trace_total st
                  /\ trace_uninitialized st = 0).
  { intros Hall. unfold dso.traceNewCoarse.
    destruct (traceHosts_spec fh frameHessians (mkTraceStats 0 0 0 0 0 0 0) Hall)
      as (out & st' & E & Hlen & Hout & Hsome & Ht & Hc & Hu).
    cbn [trace_total trace_good trace_oob trace_out trace_skip trace_badcondition
         trace_uninitialized] in Ht, Hc, Hu.
    exists out, st'. split; [exact E | ]. split; [exact Hlen | ].
    split; [exact Hsome | ]. split; [ | split; [lia | split; [lia | exact Hu]]].
    intros j host Hj. destruct (Hout j host Hj) as (h' & Hh' & H1 & H2 & H3 & H4 & H5).
    exists h'. repeat (split; [assumption | ]).
    intros k p Hk. split; [apply H5; exact Hk | apply tracedAt_status]. }
  split; [ | exact Hdo].
  split.
  - apply traceHosts_null.
  - intros Hall. destruct (Hdo Hall) as (frames' & st & E & _). rewrite E.
    eexists; reflexivity.
Qed.

Lemma makeNonKeyFrames_spec (fhs : list Frame) :
  forall frameHessians : list FrameHessian,
    noNullPoints frameHessians ->
    exists frames',
      makeNonKeyFrames frameHessians fhs = Some frames'
      /\ length frames' = length frameHessians
      /\ noNullPoints frames'
      /\ forall (j : nat) (host : FrameHessian) (k : nat) (p : ImmaturePoint),
           frameHessians !! j = Some host ->
           immaturePoints host !! k = Some (Some p) ->
           exists host' p',
             frames' !! j = Some host'
             /\ fh_ref host' = fh_ref host
             /\ length (immaturePoints host') = length (immaturePoints host)
             /\ immaturePoints host' !! k = Some (Some p')
             /\ same_data p p'
             /\ (lastTraceStatus p = IPS_OOB -> p' = p)
             /\ (fhs <> [] -> lastTraceStatus p' <> IPS_UNINITIALIZED).
Proof.
  induction fhs as [ | fh fhs IH]; intros frames Hall; cbn [dso.makeNonKeyFrames].
  - exists frames. repeat split; auto.
    intros j host k p Hj Hk. exists host, p.
    repeat split; auto using same_data_refl; try (intros H; contradiction).
  - unfold dso.makeNonKeyFrame, dso.traceNewCoarse.
    destruct (traceHosts_spec (setPoseFromTrackingRef fh) frames
                (mkTraceStats 0 0 0 0 0 0 0) Hall)
      as (out & st' & E & Hlen & Hout & Hsome & _).
    rewrite E. cbn [option_map fst].
    destruct (IH out Hsome) as (frames' & E' & Hlen' & Hsome' & Hpts).
    exists frames'. split; [exact E' | ]. split; [congruence | ].
    split; [exact Hsome' | ].
    intros j host k p Hj Hk.
    destruct (Hout j host Hj) as (h1 & Hh1 & R1 & _ & _ & L1 & P1).
    specialize (P1 k p Hk).
    destruct (tracedAt_status (setPoseFromTrackingRef fh) host p) as (S1 & S2 & S3).
    destruct (Hpts j h1 k _ Hh1 P1) as (h' & p' & Hh' & R' & L' & P' & D' & O' & _).
    exists h', p'. split; [exact Hh' | ]. split; [congruence | ].
    split; [congruence | ]. split; [exact P' | ].
    split; [ | split].
    + unfold same_data in *. intuition congruence.
    + intros Hoob. rewrite (S3 Hoob) in O'. rewrite (S3 Hoob) in D'.
      apply O'. exact Hoob.
    + intros _. destruct fhs as [ | fh2 fhs].
      * cbn [dso.makeNonKeyFrames] in E'. inversion E'; subst frames'.
        rewrite Hh1 in Hh'. inversion Hh'; subst h'.
        rewrite P1 in P'. inversion P'; subst p'. exact S1.
      * destruct (Hpts j h1 k _ Hh1 P1) as (h2 & p2 & Hh2 & _ & _ & P2 & _ & _ & U2).
        rewrite Hh' in Hh2. inversion Hh2; subst h2.
        rewrite P' in P2. inversion P2; subst p2. apply U2. discriminate.
Qed.

(** X6 -- frames that are not made keyframes only trace the window
    ([makeNonKeyFrame]).  Over any sequence of such frames, on a window
    without null entries: the window keeps its hosts and every host its
    immature points, index by index; a point keeps its position, colours,
    weights and energy threshold; and a point that is out of bounds (OOB)
    stays exactly as it is, whatever the later frames show. *)
Theorem makeNonKeyFrames_keep_OOB (frameHessians : list FrameHessian)
    (fhs : list Frame) :
  noNullPoints frameHessians ->
  exists frames',
    makeNonKeyFrames frameHessians fhs = Some frames'
    /\ length frames' = length frameHessians
    /\ noNullPoints frames'
    /\ forall (j : nat) (h : FrameHessian) (k : nat) (p : ImmaturePoint),
         frameHessians !! j = Some h ->
         immaturePoints h !! k = Some (Some p) ->
         exists h' p',
           frames' !! j = Some h'
           /\ fh_ref h' = fh_ref h
           /\ length (immaturePoints h') = length (immaturePoints h)
           /\ immaturePoints h' !! k = Some (Some p')
           /\ u p' = u p /\ v p' = v p /\ host p' = host p
           /\ color p' = color p /\ weights p' = weights p
           /\ energyTH p' = energyTH p
           /\ (lastTraceStatus p = IPS_OOB -> p' = p).
Proof.
  intros Hall.
  destruct (makeNonKeyFrames_spec fhs frameHessians Hall)
    as (frames' & E & Hlen & Hsome & Hpts).
  exists frames'. repeat (split; [assumption | ]).
  intros j host0 k p Hj Hk.
  destruct (Hpts j host0 k p Hj Hk) as (h' & p' & Hh' & R' & L' & P' & D' & O' & _).
  exists h', p'. unfold same_data in D'. intuition.
Qed.

End TraceNewCoarseFacts.

(** ** Removal of null entries *)

Section RemoveNulls.
Context {A : Type}.
Implicit Types l : list (option A).

Lemma removeNulls_step l (i : nat) :
  l !! i = Some None ->
  let l' := take (pred (length l)) (<[i := default None (last l)]> l) in
  S (length l') = length l /\ take i l' = take i l /\ omap id l' ≡ₚ omap id l.
Proof.
  intros Hi l'.
  pose proof (lookup_lt_Some _ _ _ Hi) as Hlt.
  assert (Hlen : S (length l') = length l).
  { subst l'. rewrite length_take, length_insert. lia. }
  split; [exact Hlen | ]. split.
  { subst l'. rewrite take_take. replace (i `min` pred (length l))%nat with i by lia.
    apply take_insert_ge. lia. }
  assert (Hsplit : exists l1 rest, l = l1 ++ None :: rest /\ length l1 = i).
  { exists (take i l), (drop (S i) l). split.
    - symmetry. apply take_drop_middle. exact Hi.
    - rewrite length_take. lia. }
  destruct Hsplit as (l1 & rest & -> & Hl1). clear Hi Hlt Hlen. subst l'.
  destruct rest as [ | z l2 _] using rev_ind.
  - (* the null entry is the last one *)
    rewrite last_snoc. cbn [default].
    rewrite list_insert_id.
    2:{ rewrite lookup_app_r by lia. rewrite Hl1, Nat.sub_diag. reflexivity. }
    rewrite length_app. cbn [length].
    replace (pred (length l1 + 1)) with (length l1) by lia.
    rewrite take_app_length.
    rewrite omap_app. cbn. rewrite app_nil_r. reflexivity.
  - replace (l1 ++ None :: l2 ++ [z]) with ((l1 ++ None :: l2) ++ [z])
      by (rewrite <- app_assoc; reflexivity).
    rewrite last_snoc. cbn [default].
    rewrite length_app. cbn [length].
    replace (pred (length (l1 ++ None :: l2) + 1)) with (length (l1 ++ None :: l2))
      by lia.
    rewrite <- Hl1.
    replace (<[length l1:=z]> ((l1 ++ None :: l2) ++ [z]))
      with ((l1 ++ z :: l2) ++ [z]).
    2:{ rewrite <- !app_assoc. rewrite insert_app_r_alt by lia.
        rewrite Nat.sub_diag. reflexivity. }
    replace (length (l1 ++ None :: l2)) with (length (l1 ++ z :: l2))
      by (rewrite !length_app; reflexivity).
    rewrite take_app_length.
    rewrite !omap_app. cbn [omap list_omap].
    destruct z as [a | ]; cbn [id].
    + rewrite <- app_assoc. apply Permutation_app_head.
      apply Permutation_cons_append.
    + rewrite app_nil_r. reflexivity.
Qed.

Lemma removeNullsLoop_spec (n : nat) :
  forall (i : nat) l,
    (n + i)%nat = length l -> Forall is_Some (take i l) ->
    Forall is_Some (removeNullsLoop n i l)
    /\ omap id (removeNullsLoop n i l) ≡ₚ omap id l.
Proof.
  induction n as [ | n IH]; intros i l Hn Hpre; cbn [removeNullsLoop].
  - split; [ | reflexivity]. rewrite take_ge in Hpre by lia. exact Hpre.
  - destruct (l !! i) as [[a | ] | ] eqn:Hi.
    + apply IH; [lia | ].
      rewrite (take_S_r _ _ _ Hi). apply Forall_app. split; [exact Hpre | ].
      repeat constructor. eexists; reflexivity.
    + destruct (removeNulls_step l i Hi) as (Hlen & Htake & Hperm).
      cbv zeta in Hlen, Htake, Hperm.
      edestruct (IH i) as (H1 & H2); [ | | split; [exact H1 | ]].
      * lia.
      * rewrite Htake. exact Hpre.
      * rewrite H2. exact Hperm.
    + apply lookup_ge_None in Hi. lia.
Qed.

Lemma removeNulls_spec l :
  Forall is_Some (removeNulls l) /\ omap id (removeNulls l) ≡ₚ omap id l.
Proof.
  unfold removeNulls. apply removeNullsLoop_spec; [lia | ]. constructor.
Qed.

End RemoveNulls.

Lemma compactLoop_removeNulls (n i : nat) (l : list (option ImmaturePoint)) :
  compactLoop n i l = removeNullsLoop n i l.
Proof.
  revert i l. induction n as [ | n IH]; intros i l; cbn [compactLoop removeNullsLoop].
  - reflexivity.
  - destruct (l !! i) as [[a | ] | ]; auto.
Qed.

Lemma removeNullsLoop_fuel {A : Type} (n : nat) :
  forall (m i : nat) (l : list (option A)),
    (n + i)%nat = length l -> (n <= m)%nat ->
    removeNullsLoop m i l = removeNullsLoop n i l.
Proof.
  induction n as [ | n IH]; intros m i l Hn Hm.
  - cbn [removeNullsLoop]. destruct m as [ | m]; [reflexivity | ].
    cbn [removeNullsLoop]. rewrite (proj2 (lookup_ge_None l i)) by lia. reflexivity.
  - destruct m as [ | m]; [lia | ]. cbn [removeNullsLoop].
    destruct (l !! i) as [[a | ] | ] eqn:Hi; [ | | reflexivity].
    + apply IH; lia.
    + destruct (removeNulls_step l i Hi) as (Hlen & _). cbv zeta in Hlen.
      apply IH; lia.
Qed.

Lemma omap_id_elem {A : Type} (l : list (option A)) (a : A) :
  a ∈ omap id l <-> Some a ∈ l.
Proof.
  rewrite list_elem_of_omap. split.
  - intros (x & Hx & E). cbn in E. subst x. exact Hx.
  - intros H. exists (Some a). split; [exact H | reflexivity].
Qed.

Lemma compact_spec_nulls (l : list (option ImmaturePoint)) :
  Forall is_Some (compact l) /\ omap id (compact l) ≡ₚ omap id l.
Proof.
  unfold compact. rewrite compactLoop_removeNulls. apply removeNulls_spec.
Qed.

(** X7 -- the removal of null entries at the end of the activation pass
    (lines 764-772): the loop comes to an end within [size] iterations,
    the vector it leaves has no null entry, and it holds the non-null
    entries of the vector it was given, each as often as before, in a
    possibly different order; its length is their number. *)
Theorem compact_no_nulls (l : list (option ImmaturePoint)) :
  Forall is_Some (compact l)
  /\ omap id (compact l) ≡ₚ omap id l
  /\ length (compact l) = length (omap id l)
  /\ (forall n : nat, (length l <= n)%nat -> compactLoop n 0 l = compact l).
Proof.
  destruct (compact_spec_nulls l) as (H1 & H2).
  split; [exact H1 | ]. split; [exact H2 | ]. split.
  - rewrite <- (Permutation_length H2).
    clear H2. induction (compact l) as [ | x r IH]; [reflexivity | ].
    apply Forall_cons in H1. destruct H1 as ((a & ->) & H1). cbn. f_equal. auto.
  - intros n Hn. unfold compact. rewrite !compactLoop_removeNulls.
    apply removeNullsLoop_fuel; lia.
Qed.

(** ** The activation pass as a whole *)

Section ActivationPass.
Variable cfg : Settings.
Variable DistanceMap : Type.
Variable makeDistanceMap : list FrameHessian -> FrameHessian -> DistanceMap.
Variable fwdWarpedIDDistFinal : DistanceMap -> Z -> float.
Variable addIntoDistFinal : DistanceMap -> Z -> Z -> DistanceMap.
Variable EnergyFunctional : Type.
Variable nPoints : EnergyFunctional -> Z.
Variable insertPoint : EnergyFunctional -> PointHessian -> EnergyFunctional.
Variable insertResidual : EnergyFunctional -> PointFrameResidual -> EnergyFunctional.
Variable hostToNew : FrameHessian -> FrameHessian -> Mat33f * Vec3f.
Variable optimizeImmaturePoint : list FrameHessian -> ImmaturePoint -> Optimized.

Local Abbreviation activatePoint :=
  (activatePoint cfg DistanceMap fwdWarpedIDDistFinal addIntoDistFinal).
Local Abbreviation activateHost :=
  (activateHost cfg DistanceMap fwdWarpedIDDistFinal addIntoDistFinal).
Local Abbreviation activateFrames :=
  (activateFrames cfg DistanceMap fwdWarpedIDDistFinal addIntoDistFinal hostToNew).
Local Abbreviation commitOptimized :=
  (commitOptimized EnergyFunctional insertPoint insertResidual).
Local Abbreviation activatePointsMT :=
  (activatePointsMT cfg DistanceMap makeDistanceMap fwdWarpedIDDistFinal
     addIntoDistFinal EnergyFunctional nPoints insertPoint insertResidual hostToNew
     optimizeImmaturePoint).

(** an entry that the loop body leaves is the point with its index, and
    that point has passed the first test *)
Lemma activatePoint_slot (frames : list FrameHessian) (KRKi : Mat33f) (Kt : Vec3f)
    (cur : float) (i : Z) (p q : ImmaturePoint) (st : Act DistanceMap) :
  fst (activatePoint frames KRKi Kt cur i p st) = Some q ->
  q = set_idx p i /\ ~ dropped p.
Proof.
  pose proof (activatePoint_cases cfg DistanceMap fwdWarpedIDDistFinal addIntoDistFinal
                frames KRKi Kt cur i p st) as (Cd & _ & _).
  intros H. split.
  - revert H. unfold dso.activatePoint.
    repeat match goal with
           | |- context [if ?c then _ else _] => destruct c
           end; cbn [fst]; intros H; inversion H; reflexivity.
  - intros Hd. rewrite (Cd Hd) in H. discriminate H.
Qed.

Lemma activateHost_slots (frames : list FrameHessian) (KRKi : Mat33f) (Kt : Vec3f)
    (cur : float) (pts : list (option ImmaturePoint)) :
  forall (i0 : Z) (st : Act DistanceMap),
    let out := fst (activateHost frames KRKi Kt cur i0 pts st) in
    length out = length pts
    /\ forall (k : nat) (q : ImmaturePoint),
         out !! k = Some (Some q) ->
         exists p, pts !! k = Some (Some p)
                   /\ q = set_idx p (i0 + Z.of_nat k) /\ ~ dropped p.
Proof.
  induction pts as [ | [p | ] pts IH]; intros i0 st; cbn [dso.activateHost].
  - split; [reflexivity | ]. intros k q H. inversion H.
  - pose proof (activatePoint_slot frames KRKi Kt cur i0 p) as Hslot.
    specialize (Hslot) with (st := st).
    destruct (activatePoint frames KRKi Kt cur i0 p st) as [slot st1].
    specialize (IH (i0 + 1)%Z st1).
    destruct (activateHost frames KRKi Kt cur (i0 + 1)%Z pts st1) as [out st'].
    cbv zeta in *. cbn [fst snd] in *. destruct IH as (Hlen & IH).
    split; [cbn [length]; lia | ].
    intros [ | k] q Hk; cbn in Hk.
    + inversion Hk; subst slot. exists p. rewrite Z.add_0_r.
      split; [reflexivity | ]. apply Hslot. reflexivity.
    + destruct (IH k q Hk) as (p' & Hp' & Hq & Hnd). exists p'.
      replace (i0 + Z.of_nat (S k))%Z with (i0 + 1 + Z.of_nat k)%Z by lia. auto.
  - specialize (IH (i0 + 1)%Z st).
    destruct (activateHost frames KRKi Kt cur (i0 + 1)%Z pts st) as [out st'].
    cbv zeta in *. cbn [fst snd] in *. destruct IH as (Hlen & IH).
    split; [cbn [length]; lia | ].
    intros [ | k] q Hk; cbn in Hk; [inversion Hk | ].
    destruct (IH k q Hk) as (p' & Hp' & Hq & Hnd). exists p'.
    replace (i0 + Z.of_nat (S k))%Z with (i0 + 1 + Z.of_nat k)%Z by lia. auto.
Qed.

(** a frame [b] that stems from the frame [a] of the window given to the
    pass: the points that are left are points of [a], up to their index
    member, and in a host other than the newest keyframe they have passed
    the first test *)
Local Abbreviation stems latest a b :=
  (fh_ref b = fh_ref a
   /\ flaggedForMarginalization b = flaggedForMarginalization a
   /\ (exists added, pointHessians b = pointHessians a ++ added)
   /\ forall q : ImmaturePoint,
        Some q ∈ immaturePoints b ->
        exists (k : nat) (p : ImmaturePoint),
          immaturePoints a !! k = Some (Some p)
          /\ if Nat.eqb (fh_ref a) (fh_ref latest) then q = p
             else q = set_idx p (Z.of_nat k) /\ ~ dropped p).

(** the same, index by index, while null entries are still in place *)
Local Abbreviation stems_at latest a b :=
  (fh_ref b = fh_ref a
   /\ flaggedForMarginalization b = flaggedForMarginalization a
   /\ (exists added, pointHessians b = pointHessians a ++ added)
   /\ length (immaturePoints b) = length (immaturePoints a)
   /\ forall (k : nat) (q : ImmaturePoint),
        immaturePoints b !! k = Some (Some q) ->
        exists p : ImmaturePoint,
          immaturePoints a !! k = Some (Some p)
          /\ if Nat.eqb (fh_ref a) (fh_ref latest) then q = p
             else q = set_idx p (Z.of_nat k) /\ ~ dropped p).

Lemma activateFrames_slots (frames : list FrameHessian) (latest : FrameHessian)
    (cur : float) (todo : list FrameHessian) :
  forall st : Act DistanceMap,
    Forall2 (fun a b => stems_at latest a b) todo
            (fst (activateFrames frames latest cur todo st)).
Proof.
  induction todo as [ | fh todo IH]; intros st; cbn [dso.activateFrames].
  - constructor.
  - destruct (Nat.eqb (fh_ref fh) (fh_ref latest)) eqn:Hl.
    + specialize (IH st).
      destruct (activateFrames frames latest cur todo st) as [out st'].
      cbn [fst] in *. constructor; [ | exact IH].
      rewrite Hl. split; [reflexivity | ]. split; [reflexivity | ].
      split; [exists []; rewrite app_nil_r; reflexivity | ].
      split; [reflexivity | ].
      intros k q Hq. exists q. auto.
    + destruct (hostToNew fh latest) as [KRKi Kt].
      pose proof (activateHost_slots frames KRKi Kt cur (immaturePoints fh) 0%Z st) as Hslot.
      destruct (activateHost frames KRKi Kt cur 0%Z (immaturePoints fh) st)
        as [pts st1].
      specialize (IH st1).
      destruct (activateFrames frames latest cur todo st1) as [out st'].
      cbv zeta in Hslot. cbn [fst] in *. destruct Hslot as (Slen & Hslot).
      constructor; [ | exact IH].
      rewrite Hl. cbn [set_immaturePoints fh_ref flaggedForMarginalization
                       pointHessians immaturePoints].
      split; [reflexivity | ]. split; [reflexivity | ].
      split; [exists []; rewrite app_nil_r; reflexivity | ].
      split; [exact Slen | ].
      intros k q Hq. destruct (Hslot k q Hq) as (p & Hp & E & Hnd).
      exists p. rewrite Z.add_0_l in E. auto.
Qed.

(** the commit loop clears entries and appends active points *)
Local Abbreviation thinned a b :=
  (fh_ref b = fh_ref a
   /\ flaggedForMarginalization b = flaggedForMarginalization a
   /\ (exists added, pointHessians b = pointHessians a ++ added)
   /\ length (immaturePoints b) = length (immaturePoints a)
   /\ forall (k : nat) (q : ImmaturePoint),
        immaturePoints b !! k = Some (Some q) ->
        immaturePoints a !! k = Some (Some q)).

Lemma thinned_refl (frames : list FrameHessian) :
  Forall2 (fun a b => thinned a b) frames frames.
Proof.
  induction frames as [ | fh frames IH]; constructor; [ | exact IH].
  split; [reflexivity | ]. split; [reflexivity | ].
  split; [exists []; rewrite app_nil_r; reflexivity | ]. split; auto.
Qed.

Lemma thinned_trans (l1 l2 l3 : list FrameHessian) :
  Forall2 (fun a b => thinned a b) l1 l2 ->
  Forall2 (fun a b => thinned a b) l2 l3 ->
  Forall2 (fun a b => thinned a b) l1 l3.
Proof.
  intros H12. revert l3. induction H12 as [ | a b l1 l2 Hab H12 IH]; intros l3 H23.
  - inversion H23. constructor.
  - inversion H23 as [ | b' c l2' l3' Hbc H23']; subst.
    constructor; [ | apply IH; exact H23'].
    destruct Hab as (A1 & A2 & (ad1 & A3) & A4 & A5).
    destruct Hbc as (B1 & B2 & (ad2 & B3) & B4 & B5).
    repeat split; try congruence.
    + exists (ad1 ++ ad2). rewrite B3, A3, app_assoc. reflexivity.
    + intros k q Hq. apply A5, B5, Hq.
Qed.

Lemma update_thinned (frames : list FrameHessian) (r : FrameRef)
    (f : FrameHessian -> FrameHessian) :
  (forall fh, thinned fh (f fh)) ->
  Forall2 (fun a b => thinned a b) frames (update frames r f).
Proof.
  intros Hf. unfold update.
  induction frames as [ | fh frames IH]; cbn [map]; constructor; [ | exact IH].
  destruct (Nat.eqb (fh_ref fh) r); [apply Hf | ].
  split; [reflexivity | ]. split; [reflexivity | ].
  split; [exists []; rewrite app_nil_r; reflexivity | ]. split; auto.
Qed.

Lemma clearSlot_thinned (frames : list FrameHessian) (r : FrameRef) (idx : Z) :
  Forall2 (fun a b => thinned a b) frames (clearSlot frames r idx).
Proof.
  unfold clearSlot. apply update_thinned. intros fh.
  cbn [set_immaturePoints fh_ref flaggedForMarginalization pointHessians
       immaturePoints].
  split; [reflexivity | ]. split; [reflexivity | ].
  split; [exists []; rewrite app_nil_r; reflexivity | ].
  split; [apply length_insert | ].
  intros k q Hq.
  destruct (decide (Z.to_nat idx = k)) as [E | E].
  - subst k. destruct (decide (Z.to_nat idx < length (immaturePoints fh))%nat).
    + rewrite list_lookup_insert_eq in Hq by assumption. discriminate Hq.
    + rewrite list_insert_ge in Hq by lia. exact Hq.
  - rewrite list_lookup_insert_ne in Hq by exact E. exact Hq.
Qed.

Lemma commitOptimized_thinned (frames : list FrameHessian) (ef : EnergyFunctional)
    (p : ImmaturePoint) (o : Optimized) :
  Forall2 (fun a b => thinned a b) frames (fst (commitOptimized (frames, ef) p o)).
Proof.
  unfold dso.commitOptimized. destruct o as [ph | | ]; cbn [fst].
  - eapply thinned_trans; [apply clearSlot_thinned | ].
    apply update_thinned. intros fh.
    cbn [push_pointHessian fh_ref flaggedForMarginalization pointHessians
         immaturePoints].
    split; [reflexivity | ]. split; [reflexivity | ].
    split; [exists [ph]; reflexivity | ]. split; auto.
  - destruct (status_eqb (lastTraceStatus p) IPS_OOB); cbn [fst];
      [apply clearSlot_thinned | apply thinned_refl].
  - apply clearSlot_thinned.
Qed.

Lemma commit_fold_thinned (todo : list (ImmaturePoint * Optimized)) :
  forall (frames : list FrameHessian) (ef : EnergyFunctional),
    Forall2 (fun a b => thinned a b) frames
      (fst (fold_left (fun sys po => commitOptimized sys (fst po) (snd po))
                      todo (frames, ef))).
Proof.
  induction todo as [ | [p o] todo IH]; intros frames ef; cbn [fold_left fst snd].
  - apply thinned_refl.
  - pose proof (commitOptimized_thinned frames ef p o) as H1.
    destruct (commitOptimized (frames, ef) p o) as [frames1 ef1]. cbn [fst] in H1.
    eapply thinned_trans; [exact H1 | apply IH].
Qed.

(** X8 -- the activation pass as a whole, on a window with a newest
    keyframe.  The window keeps its frames, in order, with their
    marginalisation flags; active points are only appended.  No host is
    left with a null entry among its immature points.  Every immature point
    that is left was there before (the pass creates none and writes to none
    but its index member), and in every host other than the newest keyframe
    it has a finite [idepth_max] and a last status other than OUTLIER. *)
Theorem activatePointsMT_survivors (frameHessians : list FrameHessian)
    (latest : FrameHessian) (currentMinActDist : float) (ef : EnergyFunctional) :
  last frameHessians = Some latest ->
  let frames' := fst (fst (activatePointsMT frameHessians currentMinActDist ef)) in
  map fh_ref frames' = map fh_ref frameHessians
  /\ map flaggedForMarginalization frames'
     = map flaggedForMarginalization frameHessians
  /\ noNullPoints frames'
  /\ forall (j : nat) (fh' : FrameHessian),
       frames' !! j = Some fh' ->
       exists fh : FrameHessian,
         frameHessians !! j = Some fh
         /\ (exists added, pointHessians fh' = pointHessians fh ++ added)
         /\ forall q : ImmaturePoint,
              Some q ∈ immaturePoints fh' ->
              exists (k : nat) (p : ImmaturePoint),
                immaturePoints fh !! k = Some (Some p)
                /\ if Nat.eqb (fh_ref fh) (fh_ref latest) then q = p
                   else q = set_idx p (Z.of_nat k)
                        /\ F.isfinite (idepth_max q) = true
                        /\ lastTraceStatus q <> IPS_OUTLIER.
Proof.
  intros Hlast frames'. subst frames'. unfold dso.activatePointsMT. rewrite Hlast.
  set (cur := adjustMinActDist cfg (nPoints ef) currentMinActDist).
  set (dm := makeDistanceMap frameHessians latest).
  pose proof (activateFrames_slots frameHessians latest cur frameHessians
                (mkAct DistanceMap dm [])) as H1.
  destruct (activateFrames frameHessians latest cur frameHessians (mkAct DistanceMap dm []))
    as [frames1 st]. cbn [fst] in H1.
  pose proof (commit_fold_thinned
                (combine (a_toOptimize DistanceMap st)
                   (map (optimizeImmaturePoint frames1) (a_toOptimize DistanceMap st)))
                frames1 ef) as H2.
  destruct (fold_left _ _ (frames1, ef)) as [frames2 ef2]. cbn [fst] in H2 |- *.
  assert (H : Forall2 (fun a b => stems latest a b) frameHessians
                (map (fun fh => set_immaturePoints fh (compact (immaturePoints fh)))
                     frames2)
              /\ noNullPoints
                   (map (fun fh => set_immaturePoints fh (compact (immaturePoints fh)))
                        frames2)).
  { clear Hlast. clearbody dm cur. revert frames2 H2.
    induction H1 as [ | a b l1 l2 Hab H1 IH]; intros frames2 H2.
    - inversion H2. split; constructor.
    - inversion H2 as [ | b' c l2' l3 Hbc H2']; subst.
      destruct (IH l3 H2') as (IH1 & IH2). cbn [map].
      split; [constructor; [ | exact IH1] | constructor; [ | exact IH2]].
      + destruct Hab as (A1 & A2 & (ad1 & A3) & A4 & A5).
        destruct Hbc as (B1 & B2 & (ad2 & B3) & B4 & B5).
        cbn [set_immaturePoints fh_ref flaggedForMarginalization pointHessians
             immaturePoints].
        split; [congruence | ]. split; [congruence | ]. split.
        * exists (ad1 ++ ad2). rewrite B3, A3, app_assoc. reflexivity.
        * intros q Hq.
          apply omap_id_elem in Hq.
          rewrite (proj2 (compact_spec_nulls (immaturePoints c))) in Hq.
          apply omap_id_elem in Hq. apply list_elem_of_lookup in Hq.
          destruct Hq as (k & Hk).
          destruct (A5 k q (B5 k q Hk)) as (p & Hp & Hcase).
          exists k, p. auto.
      + cbn [set_immaturePoints immaturePoints].
        apply (proj1 (compact_spec_nulls (immaturePoints c))). }
  destruct H as (Hst & Hnn).
  split; [ | split; [ | split; [exact Hnn | ]]].
  - clear - Hst. induction Hst as [ | a b l1 l2 Hab Hst IH]; cbn [map]; [reflexivity | ].
    destruct Hab as (A1 & _). rewrite A1, IH. reflexivity.
  - clear - Hst. induction Hst as [ | a b l1 l2 Hab Hst IH]; cbn [map]; [reflexivity | ].
    destruct Hab as (_ & A2 & _). rewrite A2, IH. reflexivity.
  - intros j fh' Hj.
    destruct (Forall2_lookup_r _ _ _ _ _ Hst Hj) as (fh & Hfh & _ & _ & Hadd & Hpts).
    exists fh. split; [exact Hfh | ]. split; [exact Hadd | ].
    intros q Hq. destruct (Hpts q Hq) as (k & p & Hp & Hcase).
    exists k, p. split; [exact Hp | ].
    destruct (Nat.eqb (fh_ref fh) (fh_ref latest)); [exact Hcase | ].
    destruct Hcase as (-> & Hnd). split; [reflexivity | ].
    unfold dropped in Hnd. cbn [set_idx idepth_max lastTraceStatus].
    split.
    + destruct (F.isfinite (idepth_max p)); [reflexivity | ].
      exfalso. apply Hnd. left. reflexivity.
    + intros E. apply Hnd. right. exact E.
Qed.

End ActivationPass.

(** ** The constructor and makeNewPoints *)

Section CtorFacts.
Variable cfg : Settings.
Variable Image : Type.
Variable getInterpolatedElement33BiLin : Image -> float -> float -> Z -> Vec3f.

Local Abbreviation ctor_loop := (ctor_loop cfg Image getInterpolatedElement33BiLin).
Local Abbreviation ImmaturePoint_new :=
  (ImmaturePoint_new cfg Image getInterpolatedElement33BiLin).
Local Abbreviation patternSample := (patternSample cfg Image getInterpolatedElement33BiLin).
Local Abbreviation patternFinite := (patternFinite cfg Image getInterpolatedElement33BiLin).

Lemma ctor_loop_spec (dI : Image) (u_ v_ : Z) (pat : list (Z * Z)) :
  forall acc : CtorAcc,
    let r := ctor_loop dI (F.of_Z u_) (F.of_Z v_) pat acc in
    (snd r = true
     <-> Forall (fun d => F.isfinite (v3x (patternSample dI u_ v_ d)) = true) pat)
    /\ (snd r = true ->
        c_color (fst r) = c_color acc ++ map (fun d => v3x (patternSample dI u_ v_ d)) pat
        /\ c_weights (fst r)
           = c_weights acc ++ map (fun d => patternWeight cfg (patternSample dI u_ v_ d)) pat).
Proof.
  induction pat as [ | [dx dy] pat IH]; intros acc; cbn [dso.ctor_loop].
  - cbn [fst snd map]. rewrite !app_nil_r. repeat split; auto.
  - change (getInterpolatedElement33BiLin dI (F.add (F.of_Z u_) (F.of_Z dx))
              (F.add (F.of_Z v_) (F.of_Z dy)) (wG0 cfg))
      with (patternSample dI u_ v_ (dx, dy)).
    fold (patternWeight cfg (patternSample dI u_ v_ (dx, dy))).
    destruct (F.isfinite (v3x (patternSample dI u_ v_ (dx, dy)))) eqn:Hfin;
      cbn [negb].
    + match goal with
      | |- context [dso.ctor_loop _ _ _ _ _ _ pat ?a] => specialize (IH a)
      end.
      cbv zeta in IH. cbn [c_color c_weights] in IH.
      destruct IH as (IH1 & IH2). split.
      * rewrite IH1. rewrite Forall_cons. tauto.
      * intros H. destruct (IH2 H) as (Hc & Hw). cbn [map].
        rewrite Hc, Hw, <- !app_assoc. split; reflexivity.
    + cbn [fst snd]. split.
      * split; [discriminate | ]. intros H. apply Forall_cons in H.
        destruct H as (H & _). congruence.
      * discriminate.
Qed.

Lemma ImmaturePoint_new_fields (raw : ImmaturePoint) (u_ v_ : Z) (host_ : FrameRef)
    (hostdI : Image) (type : float) :
  let p := ImmaturePoint_new raw u_ v_ host_ hostdI type in
  u p = F.of_Z u_ /\ v p = F.of_Z v_ /\ host p = host_ /\ point_type p = type
  /\ idepth_min p = F.zero /\ idepth_max p = F.nan
  /\ lastTraceStatus p = IPS_UNINITIALIZED.
Proof.
  intros p. subst p. unfold dso.ImmaturePoint_new.
  destruct (ctor_loop hostdI (F.of_Z u_) (F.of_Z v_) (patternP cfg)
              (mkCtorAcc [] [] mat22_zero)) as [acc [ | ]]; cbn; repeat split.
Qed.

(** X9 -- the constructor of an immature point.  The point starts
    UNINITIALIZED with the interval [[0, NaN]] at the pixel it is given,
    whatever the image shows.  If every pattern pixel of the host has a
    finite intensity, the point has these intensities as colours, one
    weight [sqrt(c / (c + |gradient|^2))] per pattern pixel, quality 10000
    and the energy threshold [patternNum * setting_outlierTH *
    setting_overallEnergyTHWeight^2]; if one is not finite, the energy
    threshold is NaN.  So a finite energy threshold tells the caller that
    all pattern pixels were finite. *)
Theorem ImmaturePoint_new_energyTH (raw : ImmaturePoint) (u_ v_ : Z) (host_ : FrameRef)
    (hostdI : Image) (type : float) :
  let p := ImmaturePoint_new raw u_ v_ host_ hostdI type in
  (u p = F.of_Z u_ /\ v p = F.of_Z v_ /\ host p = host_ /\ point_type p = type
   /\ idepth_min p = F.zero /\ idepth_max p = F.nan
   /\ lastTraceStatus p = IPS_UNINITIALIZED)
  /\ (patternFinite hostdI u_ v_ ->
      energyTH p
      = F.mul (F.mul (F.of_Z (Z.of_nat (patternNum cfg))) (setting_outlierTH cfg))
              (F.mul (setting_overallEnergyTHWeight cfg)
                     (setting_overallEnergyTHWeight cfg))
      /\ quality p = F.of_Z 10000
      /\ color p = map (fun d => v3x (patternSample hostdI u_ v_ d)) (patternP cfg)
      /\ weights p
         = map (fun d => patternWeight cfg (patternSample hostdI u_ v_ d)) (patternP cfg))
  /\ (~ patternFinite hostdI u_ v_ -> energyTH p = F.nan)
  /\ (F.isfinite (energyTH p) = true -> patternFinite hostdI u_ v_).
Proof.
  intros p. subst p. unfold dso.ImmaturePoint_new.
  pose proof (ctor_loop_spec hostdI u_ v_ (patternP cfg) (mkCtorAcc [] [] mat22_zero))
    as S.
  destruct (ctor_loop hostdI (F.of_Z u_) (F.of_Z v_) (patternP cfg)
              (mkCtorAcc [] [] mat22_zero)) as [acc finished].
  cbv zeta in S. cbn [fst snd c_color c_weights app] in S. destruct S as (Sf & Sv).
  fold (patternFinite hostdI u_ v_) in Sf.
  destruct finished.
  - cbn. split; [repeat split | ]. split; [ | split].
    + intros _. destruct (Sv eq_refl) as (Hc & Hw). rewrite Hc, Hw. repeat split.
    + intros H. exfalso. apply H, Sf. reflexivity.
    + intros _. apply Sf. reflexivity.
  - cbn. split; [repeat split | ]. split; [ | split].
    + intros H. apply Sf in H. discriminate H.
    + reflexivity.
    + discriminate.
Qed.

End CtorFacts.

Section MakeNewPointsFacts.
Variable cfg : Settings.
Variable Image : Type.
Variable getInterpolatedElement33BiLin : Image -> float -> float -> Z -> Vec3f.
Variable patternPadding : Z.
Variable raw : Z -> ImmaturePoint.

Local Abbreviation makeNewPoint :=
  (makeNewPoint cfg Image getInterpolatedElement33BiLin raw).
Local Abbreviation makeNewPoints_row :=
  (makeNewPoints_row cfg Image getInterpolatedElement33BiLin raw).
Local Abbreviation makeNewPoints_rows :=
  (makeNewPoints_rows cfg Image getInterpolatedElement33BiLin raw).
Local Abbreviation makeNewPoints :=
  (makeNewPoints cfg Image getInterpolatedElement33BiLin patternPadding raw).

Lemma makeNewPoints_row_spec (newFrame : FrameRef) (dI : Image)
    (selectionMap : list float) (y : Z) (xs : list Z) :
  forall pts : list (option ImmaturePoint),
    (forall x, x ∈ xs -> is_Some (makeNewPoint newFrame dI selectionMap x y)) ->
    exists new : list ImmaturePoint,
      makeNewPoints_row newFrame dI selectionMap y xs pts = Some (pts ++ map Some new)
      /\ forall p, p ∈ new
                   <-> exists x, x ∈ xs
                                 /\ makeNewPoint newFrame dI selectionMap x y
                                    = Some (Some p).
Proof.
  induction xs as [ | x xs IH]; intros pts Hin; cbn [dso.makeNewPoints_row].
  - exists []. cbn [map]. rewrite app_nil_r. split; [reflexivity | ].
    intros p. split; [intros H; inversion H | intros (x & H & _); inversion H].
  - assert (Hx : is_Some (makeNewPoint newFrame dI selectionMap x y))
      by (apply Hin; left).
    assert (Hxs : forall x', x' ∈ xs ->
                             is_Some (makeNewPoint newFrame dI selectionMap x' y))
      by (intros x' H; apply Hin; right; exact H).
    destruct Hx as (o & Ho). rewrite Ho. destruct o as [impt | ].
    + destruct (IH (pts ++ [Some impt]) Hxs) as (new & E & Hnew).
      exists (impt :: new). rewrite E. cbn [map]. rewrite <- app_assoc.
      split; [reflexivity | ].
      intros p. rewrite elem_of_cons, Hnew. split.
      * intros [-> | (x' & Hx' & Hp)].
        -- exists x. split; [left | exact Ho].
        -- exists x'. split; [right; exact Hx' | exact Hp].
      * intros (x' & Hx' & Hp). apply elem_of_cons in Hx'.
        destruct Hx' as [-> | Hx'].
        -- left. congruence.
        -- right. exists x'. auto.
    + destruct (IH pts Hxs) as (new & E & Hnew).
      exists new. split; [exact E | ].
      intros p. rewrite Hnew. split.
      * intros (x' & Hx' & Hp). exists x'. split; [right; exact Hx' | exact Hp].
      * intros (x' & Hx' & Hp). apply elem_of_cons in Hx'.
        destruct Hx' as [-> | Hx']; [congruence | ]. exists x'. auto.
Qed.

Lemma makeNewPoints_rows_spec (newFrame : FrameRef) (dI : Image)
    (selectionMap : list float) (xs ys : list Z) :
  forall pts : list (option ImmaturePoint),
    (forall x y, x ∈ xs -> y ∈ ys ->
                 is_Some (makeNewPoint newFrame dI selectionMap x y)) ->
    exists new : list ImmaturePoint,
      makeNewPoints_rows newFrame dI selectionMap ys xs pts = Some (pts ++ map Some new)
      /\ forall p, p ∈ new
                   <-> exists x y, x ∈ xs /\ y ∈ ys
                                   /\ makeNewPoint newFrame dI selectionMap x y
                                      = Some (Some p).
Proof.
  induction ys as [ | y ys IH]; intros pts Hin; cbn [dso.makeNewPoints_rows].
  - exists []. cbn [map]. rewrite app_nil_r. split; [reflexivity | ].
    intros p. split; [intros H; inversion H | intros (x & y & _ & H & _); inversion H].
  - destruct (makeNewPoints_row_spec newFrame dI selectionMap y xs pts)
      as (new1 & E1 & Hnew1).
    { intros x Hx. apply Hin; [exact Hx | left]. }
    rewrite E1.
    destruct (IH (pts ++ map Some new1)) as (new2 & E2 & Hnew2).
    { intros x y' Hx Hy'. apply Hin; [exact Hx | right; exact Hy']. }
    exists (new1 ++ new2). rewrite E2, map_app, app_assoc. split; [reflexivity | ].
    intros p. rewrite elem_of_app, Hnew1, Hnew2. split.
    + intros [(x & Hx & Hp) | (x & y' & Hx & Hy' & Hp)].
      * exists x, y. split; [exact Hx | ]. split; [left | exact Hp].
      * exists x, y'. split; [exact Hx | ]. split; [right; exact Hy' | exact Hp].
    + intros (x & y' & Hx & Hy' & Hp). apply elem_of_cons in Hy'.
      destruct Hy' as [-> | Hy'].
      * left. exists x. auto.
      * right. exists x, y'. auto.
Qed.

Lemma makeNewPoint_Some (newFrame : FrameRef) (dI : Image) (selectionMap : list float)
    (x y : Z) (p : ImmaturePoint) :
  makeNewPoint newFrame dI selectionMap x y = Some (Some p) ->
  exists sel : float,
    selectionMap !! Z.to_nat (x + y * wG0 cfg) = Some sel
    /\ SFeqb sel (F.of_Z 0) = false
    /\ p = ImmaturePoint_new cfg Image getInterpolatedElement33BiLin
             (raw (x + y * wG0 cfg)) x y newFrame dI sel
    /\ F.isfinite (energyTH p) = true.
Proof.
  unfold dso.makeNewPoint. cbv zeta.
  destruct (x + y * wG0 cfg <? 0); [discriminate | ].
  destruct (selectionMap !! Z.to_nat (x + y * wG0 cfg)) as [sel | ]; [ | discriminate].
  destruct (SFeqb sel (F.of_Z 0)) eqn:Hsel; [discriminate | ].
  destruct (F.isfinite (energyTH _)) eqn:Hfin; cbn [negb]; [ | discriminate].
  intros H. inversion H. subst p. exists sel. auto.
Qed.


End MakeNewPointsFacts.

(** ** Flagging active points for removal *)

Lemma omap_insert_None {A : Type} (l : list (option A)) (i : nat) (a : A) :
  l !! i = Some (Some a) -> omap id l ≡ₚ a :: omap id (<[i := None]> l).
Proof.
  intros Hi.
  assert (Hsplit : exists l1 l2, l = l1 ++ Some a :: l2 /\ length l1 = i).
  { exists (take i l), (drop (S i) l). split.
    - symmetry. apply take_drop_middle. exact Hi.
    - rewrite length_take. apply lookup_lt_Some in Hi. lia. }
  destruct Hsplit as (l1 & l2 & -> & <-).
  rewrite insert_app_r_alt by lia. rewrite Nat.sub_diag. cbn [insert list_insert].
  rewrite !omap_app. cbn [omap list_omap id].
  symmetry. apply Permutation_middle.
Qed.

Section FlagPointsFacts.
Variable setting_minIdepth : float.
Variable setting_minIdepthH_marg : float.
Variable World : Type.
Variable isOOB : World -> ActivePoint -> list FrameRef -> list FrameRef -> bool.
Variable isInlierNew : World -> ActivePoint -> bool.
Variable resetOOB : PointFrameResidual -> World -> World.
Variable linearize : PointFrameResidual -> World -> World.
Variable clearIsLinearized : PointFrameResidual -> World -> World.
Variable applyRes : bool -> PointFrameResidual -> World -> World.
Variable isActive : PointFrameResidual -> World -> bool.
Variable fixLinearizationF : PointFrameResidual -> World -> World.

Local Abbreviation flagPoint :=
  (flagPoint setting_minIdepth setting_minIdepthH_marg World isOOB isInlierNew resetOOB
     linearize clearIsLinearized applyRes isActive fixLinearizationF).
Local Abbreviation flagHost :=
  (flagHost setting_minIdepth setting_minIdepthH_marg World isOOB isInlierNew resetOOB
     linearize clearIsLinearized applyRes isActive fixLinearizationF).
Local Abbreviation flagHosts :=
  (flagHosts setting_minIdepth setting_minIdepthH_marg World isOOB isInlierNew resetOOB
     linearize clearIsLinearized applyRes isActive fixLinearizationF).
Local Abbreviation flagPointsForRemoval :=
  (flagPointsForRemoval setting_minIdepth setting_minIdepthH_marg World isOOB
     isInlierNew resetOOB linearize clearIsLinearized applyRes isActive
     fixLinearizationF).
Local Abbreviation unusable := (unusable setting_minIdepth).

(** X11 -- the loop that is to collect the frames whose points are kept
    (line 797) starts at [size-1] and goes on while [i >= size]: its body
    is never run.  [fhsToKeepPoints] is empty for every window, so that
    [isOOB] is always asked with no frame to keep, and [fhsToMargPoints]
    holds the frames flagged for marginalisation, in the order of the
    window. *)
Theorem fhsToKeepPoints_empty (frameHessians : list KeyFrame) (w : World) :
  fhsToKeepPoints frameHessians = []
  /\ (forall (n : nat) (acc : list FrameRef),
         keepLoop frameHessians n (Z.of_nat (length frameHessians) - 1) acc = acc)
  /\ (forall r : FrameRef,
         r ∈ fhsToMargPoints frameHessians
         <-> exists fh, fh ∈ frameHessians
                        /\ kf_flaggedForMarginalization fh = true /\ kf_ref fh = r)
  /\ flagPointsForRemoval frameHessians w
     = flagHosts [] (fhsToMargPoints frameHessians) frameHessians w.
Proof.
  assert (Hloop : forall (n : nat) (acc : list FrameRef),
             keepLoop frameHessians n (Z.of_nat (length frameHessians) - 1) acc = acc).
  { intros [ | n] acc; cbn [keepLoop]; [reflexivity | ].
    replace (Z.of_nat (length frameHessians) - 1 >=? Z.of_nat (length frameHessians))
      with false by (symmetry; rewrite Z.geb_leb; apply Z.leb_gt; lia).
    rewrite andb_false_r. reflexivity. }
  assert (Hkeep : fhsToKeepPoints frameHessians = []) by apply Hloop.
  split; [exact Hkeep | ]. split; [exact Hloop | ]. split.
  - intros r. unfold fhsToMargPoints. rewrite list_elem_of_fmap. split.
    + intros (fh & -> & Hfh). apply list_elem_of_filter in Hfh.
      destruct Hfh as (Hf & Hin). exists fh. auto.
    + intros (fh & Hin & Hf & <-). exists fh. split; [reflexivity | ].
      apply list_elem_of_filter. auto.
  - unfold dso.flagPointsForRemoval. rewrite Hkeep. reflexivity.
Qed.

(** where a host stands while its points are gone through: entries have
    been cleared, and the points cleared have been appended to the two
    other vectors with their flags *)
Local Abbreviation flagged_from host0 host :=
  (kf_ref host = kf_ref host0
   /\ kf_flaggedForMarginalization host = kf_flaggedForMarginalization host0
   /\ length (kf_pointHessians host) = length (kf_pointHessians host0)
   /\ (forall (k : nat) (a : ActivePoint),
          kf_pointHessians host !! k = Some (Some a) ->
          kf_pointHessians host0 !! k = Some (Some a))
   /\ exists out mg : list ActivePoint,
        kf_pointHessiansOutlier host = kf_pointHessiansOutlier host0 ++ out
        /\ kf_pointHessiansMarginalized host = kf_pointHessiansMarginalized host0 ++ mg
        /\ Forall (fun a => efPoint_stateFlag a = PS_DROP) out
        /\ Forall (fun a => efPoint_stateFlag a = PS_MARGINALIZE
                            /\ unusable a = false
                            /\ F.gtb (idepth_hessian a) setting_minIdepthH_marg = true) mg
        /\ pointsOf (omap id (kf_pointHessians host)) ++ pointsOf out ++ pointsOf mg
           ≡ₚ pointsOf (omap id (kf_pointHessians host0))).

Lemma flagged_from_refl (host : KeyFrame) : flagged_from host host.
Proof.
  split; [reflexivity | ]. split; [reflexivity | ]. split; [reflexivity | ].
  split; [auto | ]. exists [], []. rewrite !app_nil_r.
  split; [reflexivity | ]. split; [reflexivity | ].
  split; [apply Forall_nil_2 | ]. split; [apply Forall_nil_2 | ].
  reflexivity.
Qed.

Lemma dropAt_from (host0 host : KeyFrame) (i : nat) (ph : ActivePoint) :
  flagged_from host0 host ->
  kf_pointHessians host !! i = Some (Some ph) ->
  flagged_from host0 (dropAt host i ph).
Proof.
  intros (R1 & R2 & R3 & R4 & out & mg & O1 & O2 & O3 & O4 & O5) Hi.
  unfold dropAt. cbn [kf_ref kf_flaggedForMarginalization kf_pointHessians
                      kf_pointHessiansMarginalized kf_pointHessiansOutlier].
  split; [exact R1 | ]. split; [exact R2 | ].
  split; [rewrite length_insert; exact R3 | ]. split.
  - intros k a Hk. apply R4.
    destruct (decide (i = k)) as [-> | Hne].
    + rewrite list_lookup_insert_eq in Hk by (eapply lookup_lt_Some; exact Hi).
      discriminate Hk.
    + rewrite list_lookup_insert_ne in Hk by exact Hne. exact Hk.
  - exists (out ++ [set_stateFlag ph PS_DROP]), mg.
    split; [rewrite O1, app_assoc; reflexivity | ]. split; [exact O2 | ].
    split; [apply Forall_app; split; [exact O3 | repeat constructor] | ].
    split; [exact O4 | ].
    rewrite <- O5. unfold pointsOf.
    rewrite (Permutation_map _ (omap_insert_None _ _ _ Hi)).
    rewrite !map_app. cbn [map set_stateFlag ap_point idepth_hessian].
    solve_Permutation.
Qed.

Lemma marginalizeAt_from (host0 host : KeyFrame) (i : nat) (ph : ActivePoint) :
  flagged_from host0 host ->
  kf_pointHessians host !! i = Some (Some ph) ->
  unusable ph = false ->
  F.gtb (idepth_hessian ph) setting_minIdepthH_marg = true ->
  flagged_from host0 (marginalizeAt host i ph).
Proof.
  intros (R1 & R2 & R3 & R4 & out & mg & O1 & O2 & O3 & O4 & O5) Hi Hu Hh.
  unfold marginalizeAt. cbn [kf_ref kf_flaggedForMarginalization kf_pointHessians
                             kf_pointHessiansMarginalized kf_pointHessiansOutlier].
  split; [exact R1 | ]. split; [exact R2 | ].
  split; [rewrite length_insert; exact R3 | ]. split.
  - intros k a Hk. apply R4.
    destruct (decide (i = k)) as [-> | Hne].
    + rewrite list_lookup_insert_eq in Hk by (eapply lookup_lt_Some; exact Hi).
      discriminate Hk.
    + rewrite list_lookup_insert_ne in Hk by exact Hne. exact Hk.
  - exists out, (mg ++ [set_stateFlag ph PS_MARGINALIZE]).
    split; [exact O1 | ]. split; [rewrite O2, app_assoc; reflexivity | ].
    split; [exact O3 | ].
    split; [apply Forall_app; split; [exact O4 | repeat constructor; assumption] | ].
    rewrite <- O5. unfold pointsOf.
    rewrite (Permutation_map _ (omap_insert_None _ _ _ Hi)).
    rewrite !map_app. cbn [map set_stateFlag ap_point idepth_hessian].
    solve_Permutation.
Qed.

(** the three things that can happen to the point at index [i] *)
Lemma flagPoint_cases (toKeep toMarg : list FrameRef) (host : KeyFrame) (i : nat)
    (ph : ActivePoint) (w : World) :
  let host' := fst (flagPoint toKeep toMarg host i ph w) in
  (host' = host /\ unusable ph = false
   /\ kf_flaggedForMarginalization host = false
   /\ isOOB w ph toKeep toMarg = false
   /\ snd (flagPoint toKeep toMarg host i ph w) = w)
  \/ host' = dropAt host i ph
  \/ (host' = marginalizeAt host i ph /\ unusable ph = false
      /\ isInlierNew w ph = true
      /\ F.gtb (idepth_hessian ph) setting_minIdepthH_marg = true).
Proof.
  unfold dso.flagPoint, dso.unusable.
  destruct (F.ltb _ _ || Nat.eqb _ 0); [right; left; reflexivity | ].
  destruct (isOOB w ph toKeep toMarg) eqn:Hoob; cbn [orb].
  - destruct (isInlierNew w ph); [ | right; left; reflexivity].
    destruct (F.gtb _ _) eqn:Hh; [right; right; auto | right; left; reflexivity].
  - destruct (kf_flaggedForMarginalization host) eqn:Hf.
    + destruct (isInlierNew w ph); [ | right; left; reflexivity].
      destruct (F.gtb _ _) eqn:Hh; [right; right; auto | right; left; reflexivity].
    + left. auto.
Qed.

Lemma flagHost_spec (toKeep toMarg : list FrameRef) (host0 : KeyFrame)
    (idxs : list nat) :
  forall (host : KeyFrame) (w : World),
    flagged_from host0 host ->
    let host' := fst (flagHost toKeep toMarg idxs host w) in
    flagged_from host0 host'
    /\ forall (k : nat) (a : ActivePoint),
         kf_pointHessians host' !! k = Some (Some a) ->
         kf_pointHessians host !! k = Some (Some a)
         /\ (k ∈ idxs ->
             unusable a = false /\ kf_flaggedForMarginalization host0 = false).
Proof.
  induction idxs as [ | i idxs IH]; intros host w Hrel; cbn [dso.flagHost].
  - cbn [fst]. split; [exact Hrel | ]. intros k a Hk. split; [exact Hk | ].
    intros H. inversion H.
  - destruct (kf_pointHessians host !! i) as [[ph | ] | ] eqn:Hi.
    + pose proof (flagPoint_cases toKeep toMarg host i ph w) as C.
      destruct (flagPoint toKeep toMarg host i ph w) as [host1 w1].
      cbv zeta in C. cbn [fst snd] in C.
      assert (Hrel1 : flagged_from host0 host1).
      { destruct C as [(-> & _) | [-> | (-> & Hu & _ & Hh)]].
        - exact Hrel.
        - apply dropAt_from; assumption.
        - apply marginalizeAt_from; assumption. }
      destruct (IH host1 w1 Hrel1) as (IH1 & IH2). cbv zeta in IH1, IH2 |- *.
      split; [exact IH1 | ].
      intros k a Hk. destruct (IH2 k a Hk) as (Hk1 & Hin).
      assert (Hk0 : kf_pointHessians host !! k = Some (Some a)).
      { destruct C as [(-> & _) | [-> | (-> & _)]]; [exact Hk1 | | ];
          cbn [dropAt marginalizeAt kf_pointHessians] in Hk1;
          (destruct (decide (i = k)) as [-> | Hne];
           [ rewrite list_lookup_insert_eq in Hk1
               by (eapply lookup_lt_Some; exact Hi); discriminate Hk1
           | rewrite list_lookup_insert_ne in Hk1 by exact Hne; exact Hk1 ]). }
      split; [exact Hk0 | ].
      intros Hmem. apply elem_of_cons in Hmem. destruct Hmem as [-> | Hmem]; [ | auto].
      destruct C as [(-> & Hu & Hf & _) | [-> | (-> & _)]].
      * rewrite Hi in Hk0. inversion Hk0; subst a. split; [exact Hu | ].
        destruct Hrel as (_ & R2 & _). congruence.
      * cbn [dropAt kf_pointHessians] in Hk1.
        rewrite list_lookup_insert_eq in Hk1 by (eapply lookup_lt_Some; exact Hi).
        discriminate Hk1.
      * cbn [marginalizeAt kf_pointHessians] in Hk1.
        rewrite list_lookup_insert_eq in Hk1 by (eapply lookup_lt_Some; exact Hi).
        discriminate Hk1.
    + destruct (IH host w Hrel) as (IH1 & IH2). cbv zeta in IH1, IH2 |- *.
      split; [exact IH1 | ].
      intros k a Hk. destruct (IH2 k a Hk) as (Hk1 & Hin). split; [exact Hk1 | ].
      intros Hmem. apply elem_of_cons in Hmem. destruct Hmem as [-> | Hmem]; [ | auto].
      rewrite Hi in Hk1. discriminate Hk1.
    + destruct (IH host w Hrel) as (IH1 & IH2). cbv zeta in IH1, IH2 |- *.
      split; [exact IH1 | ].
      intros k a Hk. destruct (IH2 k a Hk) as (Hk1 & Hin). split; [exact Hk1 | ].
      intros Hmem. apply elem_of_cons in Hmem. destruct Hmem as [-> | Hmem]; [ | auto].
      rewrite Hi in Hk1. discriminate Hk1.
Qed.

(** a host when the pass is over *)
Local Abbreviation flagged_final a b :=
  (kf_ref b = kf_ref a
   /\ kf_flaggedForMarginalization b = kf_flaggedForMarginalization a
   /\ Forall is_Some (kf_pointHessians b)
   /\ (forall x : ActivePoint,
          Some x ∈ kf_pointHessians b ->
          Some x ∈ kf_pointHessians a
          /\ unusable x = false /\ kf_flaggedForMarginalization a = false)
   /\ exists out mg : list ActivePoint,
        kf_pointHessiansOutlier b = kf_pointHessiansOutlier a ++ out
        /\ kf_pointHessiansMarginalized b = kf_pointHessiansMarginalized a ++ mg
        /\ Forall (fun x => efPoint_stateFlag x = PS_DROP) out
        /\ Forall (fun x => efPoint_stateFlag x = PS_MARGINALIZE
                            /\ unusable x = false
                            /\ F.gtb (idepth_hessian x) setting_minIdepthH_marg = true) mg
        /\ pointsOf (omap id (kf_pointHessians b)) ++ pointsOf out ++ pointsOf mg
           ≡ₚ pointsOf (omap id (kf_pointHessians a))).

Lemma flagHost_final (toKeep toMarg : list FrameRef) (host : KeyFrame) (w : World) :
  flagged_final host
    (compactHost
       (fst (flagHost toKeep toMarg (seq 0 (length (kf_pointHessians host))) host w))).
Proof.
  destruct (flagHost_spec toKeep toMarg host (seq 0 (length (kf_pointHessians host)))
              host w (flagged_from_refl host)) as (Hrel & Hkept).
  cbv zeta in Hrel, Hkept.
  set (host1 := fst (flagHost toKeep toMarg _ host w)) in *.
  destruct Hrel as (R1 & R2 & R3 & R4 & out & mg & O1 & O2 & O3 & O4 & O5).
  destruct (removeNulls_spec (kf_pointHessians host1)) as (N1 & N2).
  unfold compactHost. cbn [kf_ref kf_flaggedForMarginalization kf_pointHessians
                           kf_pointHessiansMarginalized kf_pointHessiansOutlier].
  split; [exact R1 | ]. split; [exact R2 | ]. split; [exact N1 | ]. split.
  - intros x Hx. apply omap_id_elem in Hx. rewrite N2 in Hx.
    apply omap_id_elem in Hx. apply list_elem_of_lookup in Hx.
    destruct Hx as (k & Hk). destruct (Hkept k x Hk) as (Hk0 & Hin).
    split; [apply list_elem_of_lookup; exists k; exact Hk0 | ].
    apply Hin. apply list_elem_of_In, in_seq.
    apply lookup_lt_Some in Hk0. lia.
  - exists out, mg. repeat (split; [assumption | ]).
    rewrite <- O5. unfold pointsOf. rewrite (Permutation_map _ N2). reflexivity.
Qed.

Lemma flagHosts_final (toKeep toMarg : list FrameRef) (hosts : list KeyFrame) :
  forall w : World,
    Forall2 (fun a b => flagged_final a b) hosts (fst (flagHosts toKeep toMarg hosts w)).
Proof.
  induction hosts as [ | host hosts IH]; intros w; cbn [dso.flagHosts].
  - constructor.
  - pose proof (flagHost_final toKeep toMarg host w) as H1.
    destruct (flagHost toKeep toMarg (seq 0 (length (kf_pointHessians host))) host w)
      as [host1 w1]. cbn [fst] in H1.
    specialize (IH w1). destruct (flagHosts toKeep toMarg hosts w1) as [out w'].
    cbn [fst] in *. constructor; assumption.
Qed.

(** X12 -- [flagPointsForRemoval] loses no active point and makes none.
    Host by host: the points that leave [pointHessians] are appended to
    [pointHessiansOutlier], flagged [PS_DROP], or to
    [pointHessiansMarginalized], flagged [PS_MARGINALIZE]; those that stay,
    together with those appended, are the non-null points the host had,
    each as often as before; [pointHessians] is left without null entries;
    and only a point with [idepth_scaled >= setting_minIdepth], with
    residuals, and with [idepth_hessian > setting_minIdepthH_marg] is
    marginalised. *)
Theorem flagPointsForRemoval_partition (frameHessians : list KeyFrame) (w : World) :
  let frames' := fst (flagPointsForRemoval frameHessians w) in
  length frames' = length frameHessians
  /\ forall (j : nat) (a : KeyFrame),
       frameHessians !! j = Some a ->
       exists b : KeyFrame,
         frames' !! j = Some b
         /\ kf_ref b = kf_ref a
         /\ kf_flaggedForMarginalization b = kf_flaggedForMarginalization a
         /\ Forall is_Some (kf_pointHessians b)
         /\ exists out mg : list ActivePoint,
              kf_pointHessiansOutlier b = kf_pointHessiansOutlier a ++ out
              /\ kf_pointHessiansMarginalized b = kf_pointHessiansMarginalized a ++ mg
              /\ Forall (fun x => efPoint_stateFlag x = PS_DROP) out
              /\ Forall (fun x => efPoint_stateFlag x = PS_MARGINALIZE
                                  /\ F.ltb (idepth_scaled (ap_point x)) setting_minIdepth
                                     = false
                                  /\ residuals (ap_point x) <> []
                                  /\ F.gtb (idepth_hessian x) setting_minIdepthH_marg
                                     = true) mg
              /\ pointsOf (omap id (kf_pointHessians b)) ++ pointsOf out ++ pointsOf mg
                 ≡ₚ pointsOf (omap id (kf_pointHessians a)).
Proof.
  intros frames'. subst frames'. unfold dso.flagPointsForRemoval.
  pose proof (flagHosts_final (fhsToKeepPoints frameHessians)
                (fhsToMargPoints frameHessians) frameHessians w) as H.
  split; [symmetry; eapply Forall2_length; exact H | ].
  intros j a Hj.
  destruct (Forall2_lookup_l _ _ _ _ _ H Hj)
    as (b & Hb & R1 & R2 & N1 & _ & out & mg & O1 & O2 & O3 & O4 & O5).
  exists b. repeat (split; [assumption | ]).
  exists out, mg. repeat (split; [assumption | ]).
  split; [ | exact O5].
  eapply Forall_impl; [exact O4 | ]. cbn beta.
  intros x (Hx1 & Hx2 & Hx3). unfold dso.unusable in Hx2.
  apply orb_false_elim in Hx2. destruct Hx2 as (Hx2 & Hx4).
  repeat (split; [assumption | ]). split; [ | exact Hx3].
  intros E. rewrite E in Hx4. discriminate Hx4.
Qed.

(** X13 -- who stays an active point of its host.  After
    [flagPointsForRemoval], a host that is flagged for marginalisation has
    no active point left; and in any host, a point that is still in
    [pointHessians] was there before, unchanged, has
    [idepth_scaled >= setting_minIdepth] and at least one residual. *)
Theorem flagPointsForRemoval_kept (frameHessians : list KeyFrame) (w : World) :
  let frames' := fst (flagPointsForRemoval frameHessians w) in
  forall (j : nat) (a : KeyFrame),
    frameHessians !! j = Some a ->
    exists b : KeyFrame,
      frames' !! j = Some b
      /\ (kf_flaggedForMarginalization a = true -> kf_pointHessians b = [])
      /\ forall x : ActivePoint,
           Some x ∈ kf_pointHessians b ->
           Some x ∈ kf_pointHessians a
           /\ kf_flaggedForMarginalization a = false
           /\ F.ltb (idepth_scaled (ap_point x)) setting_minIdepth = false
           /\ residuals (ap_point x) <> [].
Proof.
  intros frames' j a Hj. subst frames'. unfold dso.flagPointsForRemoval.
  pose proof (flagHosts_final (fhsToKeepPoints frameHessians)
                (fhsToMargPoints frameHessians) frameHessians w) as H.
  destruct (Forall2_lookup_l _ _ _ _ _ H Hj) as (b & Hb & _ & _ & N1 & Hkept & _).
  exists b. split; [exact Hb | ]. split.
  - intros Hf. destruct (kf_pointHessians b) as [ | [x | ] l] eqn:E; [reflexivity | | ].
    + destruct (Hkept x) as (_ & _ & Hnf); [left | congruence].
    + apply Forall_cons in N1. destruct N1 as ((y & Hy) & _). discriminate Hy.
  - intros x Hx. destruct (Hkept x Hx) as (Hin & Hu & Hnf).
    split; [exact Hin | ]. split; [exact Hnf | ].
    unfold dso.unusable in Hu. apply orb_false_elim in Hu. destruct Hu as (Hu1 & Hu2).
    split; [exact Hu1 | ]. intros E. rewrite E in Hu2. discriminate Hu2.
Qed.

End FlagPointsFacts.

(** ** The discrete search of the trace *)

Section DiscreteSearchFacts.
Variable cfg : Settings.
Variable Image : Type.
Variable getInterpolatedElement31 : Image -> float -> float -> Z -> float.

Local Abbreviation searchEnergy := (searchEnergy cfg Image getInterpolatedElement31).
Local Abbreviation discreteSearch := (discreteSearch cfg Image getInterpolatedElement31).
Local Abbreviation traceOn_discrete := (traceOn_discrete cfg Image getInterpolatedElement31).

Lemma stepped_S (x0 d : float) (k : nat) : stepped x0 d (S k) = F.add (stepped x0 d k) d.
Proof. reflexivity. Qed.

(** the state of the search after [i] steps from [(x0, y0)] *)
Local Abbreviation searched p frame aff rot dx dy x0 y0 i s :=
  (length (s_errors s) = i%nat
   /\ s_ptx s = stepped x0 dx i /\ s_pty s = stepped y0 dy i
   /\ (forall k : nat,
          (k < i)%nat ->
          s_errors s !! k
          = Some (searchEnergy p frame aff rot (stepped x0 dx k) (stepped y0 dy k)))
   /\ (forall e : float, e ∈ s_errors s -> F.ltb e (s_bestEnergy s) = false)
   /\ ((s_bestIdx s = -1 /\ s_bestEnergy s = f_1e10
        /\ s_bestU s = F.zero /\ s_bestV s = F.zero)
       \/ (0 <= s_bestIdx s < Z.of_nat i
           /\ s_errors s !! Z.to_nat (s_bestIdx s) = Some (s_bestEnergy s)
           /\ F.ltb (s_bestEnergy s) f_1e10 = true
           /\ s_bestU s = stepped x0 dx (Z.to_nat (s_bestIdx s))
           /\ s_bestV s = stepped y0 dy (Z.to_nat (s_bestIdx s))))).

Lemma discreteSearch_searched (p : ImmaturePoint) (frame : Image) (aff : Vec2f)
    (rot : list Vec2f) (dx dy x0 y0 : float) (n : nat) :
  forall (i : nat) (s : Search),
    searched p frame aff rot dx dy x0 y0 i s ->
    searched p frame aff rot dx dy x0 y0 (i + n)%nat
      (discreteSearch p frame aff rot dx dy n (Z.of_nat i) s).
Proof.
  induction n as [ | n IH]; intros i s Hs; cbn [dso.discreteSearch].
  - rewrite Nat.add_0_r. exact Hs.
  - replace (i + S n)%nat with (S i + n)%nat by lia.
    replace (Z.of_nat i + 1) with (Z.of_nat (S i)) by lia.
    apply IH. clear IH.
    destruct Hs as (Hlen & Hx & Hy & Herr & Hmin & Hbest).
    set (energy := searchEnergy p frame aff rot (s_ptx s) (s_pty s)).
    assert (Henergy : energy = searchEnergy p frame aff rot
                                 (stepped x0 dx i) (stepped y0 dy i))
      by (subst energy; rewrite Hx, Hy; reflexivity).
    assert (Herr' : forall k : nat,
               (k < S i)%nat ->
               (s_errors s ++ [energy]) !! k
               = Some (searchEnergy p frame aff rot (stepped x0 dx k) (stepped y0 dy k))).
    { intros k Hk. destruct (decide (k < i)%nat) as [Hlt | Hge].
      - rewrite lookup_app_l by lia. apply Herr. exact Hlt.
      - assert (k = i) as -> by lia.
        rewrite lookup_app_r by lia. rewrite Hlen, Nat.sub_diag.
        cbn. rewrite Henergy. reflexivity. }
    destruct (F.ltb energy (s_bestEnergy s)) eqn:Hlt;
      cbn [s_errors s_ptx s_pty s_bestU s_bestV s_bestEnergy s_bestIdx].
    + (* a new best *)
      split; [rewrite length_app; cbn [length]; lia | ].
      split; [rewrite Hx; reflexivity | ]. split; [rewrite Hy; reflexivity | ].
      split; [exact Herr' | ]. split.
      * intros e He. apply elem_of_app in He. destruct He as [He | He].
        -- destruct (F.ltb e energy) eqn:Hee; [ | reflexivity].
           rewrite <- (Hmin e He). symmetry.
           exact (SFltb_trans e energy (s_bestEnergy s) Hee Hlt).
        -- apply list_elem_of_singleton in He. subst e. apply ltb_irrefl.
      * right. rewrite Nat2Z.id.
        split; [lia | ]. split.
        { rewrite lookup_app_r by lia. rewrite Hlen, Nat.sub_diag. reflexivity. }
        split.
        { destruct Hbest as [(_ & Hb & _) | (_ & _ & Hb & _)].
          - rewrite <- Hb. exact Hlt.
          - exact (SFltb_trans _ _ _ Hlt Hb). }
        split; [exact Hx | exact Hy].
    + split; [rewrite length_app; cbn [length]; lia | ].
      split; [rewrite Hx; reflexivity | ]. split; [rewrite Hy; reflexivity | ].
      split; [exact Herr' | ]. split.
      * intros e He. apply elem_of_app in He. destruct He as [He | He]; [auto | ].
        apply list_elem_of_singleton in He. subst e. exact Hlt.
      * destruct Hbest as [Hb | (Hb1 & Hb2 & Hb3)]; [left; exact Hb | right].
        split; [lia | ]. split; [ | exact Hb3].
        rewrite lookup_app_l; [exact Hb2 | ]. lia.
Qed.

(** X14 -- the discrete search of [traceOn] (lines 255-309).  It takes
    at most 99 steps, so the buffer of 100 energies is not overrun; the
    energy stored for step [k] is that of the sample [k] steps from the
    start.  [bestEnergy] is a least energy: no stored energy is below it.
    Either no energy was below [1e10], and then [bestIdx = -1] and the
    match is left at [(0, 0)]; or [bestIdx] is a step of the search whose
    energy is [bestEnergy], and [(bestU, bestV)] is the sample of that
    step. *)
Theorem traceOn_discrete_minimum (p : ImmaturePoint) (frame : Image) (aff : Vec2f)
    (sg : Segment) :
  let s := traceOn_discrete p frame aff sg in
  let n := Z.to_nat (numSteps cfg sg) in
  let x0 := fst (search_start cfg sg) in
  let y0 := snd (search_start cfg sg) in
  (n <= 99)%nat
  /\ length (s_errors s) = n
  /\ (forall k : nat,
         (k < n)%nat ->
         s_errors s !! k
         = Some (searchEnergy p frame aff (sg_rot sg)
                   (stepped x0 (search_dx cfg sg) k) (stepped y0 (search_dy cfg sg) k)))
  /\ (forall e : float, e ∈ s_errors s -> F.ltb e (s_bestEnergy s) = false)
  /\ ((s_bestIdx s = -1 /\ s_bestEnergy s = f_1e10
       /\ s_bestU s = F.zero /\ s_bestV s = F.zero)
      \/ (0 <= s_bestIdx s < Z.of_nat n
          /\ s_errors s !! Z.to_nat (s_bestIdx s) = Some (s_bestEnergy s)
          /\ F.ltb (s_bestEnergy s) f_1e10 = true
          /\ s_bestU s = stepped x0 (search_dx cfg sg) (Z.to_nat (s_bestIdx s))
          /\ s_bestV s = stepped y0 (search_dy cfg sg) (Z.to_nat (s_bestIdx s)))).
Proof.
  intros s n x0 y0.
  assert (Hn : (n <= 99)%nat).
  { subst n. unfold numSteps. cbv zeta.
    destruct (_ >=? 100) eqn:H; [lia | ]. rewrite Z.geb_leb in H.
    apply Z.leb_gt in H. lia. }
  split; [exact Hn | ].
  pose proof (discreteSearch_searched p frame aff (sg_rot sg) (search_dx cfg sg)
                (search_dy cfg sg) x0 y0 n 0%nat
                (mkSearch x0 y0 F.zero F.zero f_1e10 (-1) [])) as H.
  cbn [Nat.add] in H.
  assert (Hs : s = discreteSearch p frame aff (sg_rot sg) (search_dx cfg sg)
                     (search_dy cfg sg) n (Z.of_nat 0)
                     (mkSearch x0 y0 F.zero F.zero f_1e10 (-1) []))
    by reflexivity.
  clearbody s. subst s.
  destruct H as (H1 & _ & _ & H4 & H5 & H6).
  { cbn [s_errors s_ptx s_pty s_bestU s_bestV s_bestEnergy s_bestIdx length].
    split; [reflexivity | ]. split; [reflexivity | ]. split; [reflexivity | ].
    split; [intros k Hk; lia | ]. split; [intros e He; inversion He | ].
    left. auto. }
  auto.
Qed.

End DiscreteSearchFacts.

Section QualityFacts.
Variable cfg : Settings.

(** the steps that count for the second-best energy: those further than
    [setting_minTraceTestRadius] from the best step *)
Local Abbreviation outside bestIdx i :=
  ((i <? bestIdx - setting_minTraceTestRadius cfg)
   || (i >? bestIdx + setting_minTraceTestRadius cfg) = true).

Lemma secondBestLoop_spec (bestIdx : Z) (errors : list float) :
  forall (i : Z) (sb : float),
    let r := secondBestLoop cfg bestIdx errors i sb in
    (r = sb
     \/ (F.ltb r sb = true
         /\ exists k : nat, errors !! k = Some r /\ outside bestIdx (i + Z.of_nat k)))
    /\ forall (k : nat) (e : float),
         errors !! k = Some e -> outside bestIdx (i + Z.of_nat k) -> F.ltb e r = false.
Proof.
  induction errors as [ | e0 errors IH]; intros i sb; cbn [secondBestLoop].
  - split; [left; reflexivity | ]. intros k e H. inversion H.
  - set (sb' := if _ && F.ltb e0 sb then e0 else sb).
    destruct (IH (i + 1) sb') as (IH1 & IH2). cbv zeta in IH1, IH2 |- *.
    set (r := secondBestLoop cfg bestIdx errors (i + 1) sb') in *.
    assert (Hshift : forall k : nat, i + Z.of_nat (S k) = i + 1 + Z.of_nat k)
      by (intros; lia).
    destruct ((i <? bestIdx - setting_minTraceTestRadius cfg)
              || (i >? bestIdx + setting_minTraceTestRadius cfg)) eqn:Hout.
    + destruct (F.ltb e0 sb) eqn:Hlt; cbn [andb] in sb'; subst sb'.
      * (* the entry is taken *)
        split.
        -- right. destruct IH1 as [-> | (Hr & k & Hk & Ho)].
           ++ split; [exact Hlt | ]. exists 0%nat. rewrite Z.add_0_r. auto.
           ++ split; [exact (SFltb_trans _ _ _ Hr Hlt) | ].
              exists (S k). rewrite Hshift. auto.
        -- intros [ | k] e Hk Ho; cbn in Hk.
           ++ inversion Hk; subst e.
              destruct IH1 as [-> | (Hr & _)]; [apply ltb_irrefl | ].
              apply SFltb_asym. exact Hr.
           ++ rewrite Hshift in Ho. exact (IH2 k e Hk Ho).
      * split.
        -- destruct IH1 as [-> | (Hr & k & Hk & Ho)]; [left; reflexivity | right].
           split; [exact Hr | ]. exists (S k). rewrite Hshift. auto.
        -- intros [ | k] e Hk Ho; cbn in Hk.
           ++ inversion Hk; subst e.
              destruct IH1 as [-> | (Hr & _)]; [exact Hlt | ].
              destruct (F.ltb e0 r) eqn:He; [ | reflexivity].
              rewrite <- Hlt. symmetry. exact (SFltb_trans _ _ _ He Hr).
           ++ rewrite Hshift in Ho. exact (IH2 k e Hk Ho).
    + cbn [andb] in sb'. subst sb'. split.
      * destruct IH1 as [-> | (Hr & k & Hk & Ho)]; [left; reflexivity | right].
        split; [exact Hr | ]. exists (S k). rewrite Hshift. auto.
      * intros [ | k] e Hk Ho; cbn in Hk.
        -- rewrite Z.add_0_r in Ho. congruence.
        -- rewrite Hshift in Ho. exact (IH2 k e Hk Ho).
Qed.

(** X15 -- the quality score (lines 312-320).  [secondBest] is the
    least energy among the steps further than [setting_minTraceTestRadius]
    from the best step, or [1e10] if none of them is below that; the new
    quality is [secondBest / bestEnergy].  When the search had at most 10
    steps the quality is only ever lowered (a new quality that is NaN or not
    below the old one is dropped); with more than 10 steps it is
    overwritten. *)
Theorem traceOn_quality_second_best (p : ImmaturePoint) (sg : Segment) (s : Search) :
  let secondBest := secondBestLoop cfg (s_bestIdx s) (s_errors s) 0 f_1e10 in
  let p' := traceOn_quality cfg p sg s in
  (secondBest = f_1e10
   \/ (F.ltb secondBest f_1e10 = true
       /\ exists k : nat,
            s_errors s !! k = Some secondBest /\ outside (s_bestIdx s) (Z.of_nat k)))
  /\ (forall (k : nat) (e : float),
         s_errors s !! k = Some e -> outside (s_bestIdx s) (Z.of_nat k) ->
         F.ltb e secondBest = false)
  /\ (quality p' = quality p \/ quality p' = F.div secondBest (s_bestEnergy s))
  /\ (numSteps cfg sg > 10 -> quality p' = F.div secondBest (s_bestEnergy s))
  /\ (numSteps cfg sg <= 10 -> F.ltb (quality p) (quality p') = false).
Proof.
  intros secondBest p'.
  destruct (secondBestLoop_spec (s_bestIdx s) (s_errors s) 0 f_1e10) as (H1 & H2).
  cbv zeta in H1, H2. fold secondBest in H1, H2.
  split; [exact H1 | ]. split; [exact H2 | ].
  subst p'. unfold traceOn_quality. fold secondBest.
  destruct (F.ltb (F.div secondBest (s_bestEnergy s)) (quality p)) eqn:Hlt;
    cbn [orb].
  - cbn [set_quality quality]. split; [right; reflexivity | ].
    split; [reflexivity | ]. intros _. apply SFltb_asym. exact Hlt.
  - destruct (numSteps cfg sg >? 10) eqn:Hn.
    + cbn [set_quality quality]. split; [right; reflexivity | ].
      split; [reflexivity | ]. intros H. rewrite Z.gtb_ltb in Hn.
      apply Z.ltb_lt in Hn. lia.
    + split; [left; reflexivity | ]. split.
      * intros H. rewrite Z.gtb_ltb in Hn. apply Z.ltb_ge in Hn. lia.
      * intros _. apply ltb_irrefl.
Qed.

End QualityFacts.

(** ** linearizeResidual *)

Section LinearizeResidualFacts.
Variable cfg : Settings.
Variable Image : Type.
Variable getInterpolatedElement33 : Image -> float -> float -> Z -> Vec3f.
Variable Calib : Type.
Variable fxl : Calib -> float.
Variable fyl : Calib -> float.
Variable projectPointFull :
  float -> float -> float -> Z -> Z -> Calib -> Mat33f -> Vec3f -> option Projected.
Variable derive_idepth :
  Vec3f -> float -> float -> Z -> Z -> float -> float -> float -> float.

Local Abbreviation linearize_loop :=
  (linearize_loop cfg Image getInterpolatedElement33 Calib fxl fyl projectPointFull
     derive_idepth).
Local Abbreviation linearizeResidual :=
  (linearizeResidual cfg Image getInterpolatedElement33 Calib fxl fyl projectPointFull
     derive_idepth).
Local Abbreviation pixelFailsFull :=
  (pixelFailsFull cfg Image getInterpolatedElement33 Calib projectPointFull).

Lemma linearize_loop_finished (p : ImmaturePoint) (HCalib : Calib) (dIl : Image)
    (PRE_RTll : Mat33f) (PRE_tTll : Vec3f) (affLL : Vec2f) (idepth : float)
    (pat : list (Z * Z)) :
  forall (idx : nat) (a : LinAcc),
    snd (linearize_loop p HCalib dIl PRE_RTll PRE_tTll affLL idepth idx pat a) = false
    <-> Exists (pixelFailsFull p HCalib dIl PRE_RTll PRE_tTll idepth) pat.
Proof.
  induction pat as [ | [dx dy] pat IH]; intros idx a; cbn [dso.linearize_loop].
  - cbn [snd]. split; [discriminate | intros H; inversion H].
  - rewrite Exists_cons. unfold dso.pixelFailsFull at 1. cbn [fst snd].
    destruct (projectPointFull (u p) (v p) idepth dx dy HCalib PRE_RTll PRE_tTll)
      as [pj | ]; [ | cbn [snd]; tauto].
    destruct (F.isfinite (v3x (getInterpolatedElement33 dIl (pj_Ku pj) (pj_Kv pj)
                                 (wG0 cfg)))) eqn:Hfin; cbn [negb].
    + rewrite IH. split; [auto | ]. intros [H | H]; [discriminate | exact H].
    + cbn [snd]. tauto.
Qed.

Lemma ResState_eqb_eq (a b : ResState.t) : ResState.eqb a b = true <-> a = b.
Proof. destruct a, b; cbn; split; congruence. Qed.

(** X16 -- [linearizeResidual].  The old state and energy of the
    residual are never written.  The new state is OOB exactly when the
    residual was OOB already or a pattern pixel fails (its projection fails
    or it hits a colour that is not finite); the value returned is then the
    stored [state_energy] and [state_NewEnergy] is not written -- but after
    a failure inside the loop [Hdd] and [bd] keep the sums of the pixels
    before it, while a residual that was OOB on entry leaves them alone.
    Otherwise all pattern pixels were summed, the energy is capped at
    [energyTH * outlierTHSlack], the new state is OUTLIER exactly when the
    cap was exceeded and IN else, and the value returned is the new
    energy. *)
Theorem linearizeResidual_states (p : ImmaturePoint) (HCalib : Calib)
    (outlierTHSlack : float) (tmpRes : ImmaturePointTemporaryResidual)
    (Hdd bd idepth : float) (PRE_RTll : Mat33f) (PRE_tTll : Vec3f)
    (PRE_aff_mode : Vec2f) (dIl : Image) :
  let r := linearizeResidual p HCalib outlierTHSlack tmpRes Hdd bd idepth
             PRE_RTll PRE_tTll PRE_aff_mode dIl in
  let loop := linearize_loop p HCalib dIl PRE_RTll PRE_tTll PRE_aff_mode idepth 0
                (patternP cfg) (mkLinAcc F.zero Hdd bd) in
  let cap := F.mul (energyTH p) outlierTHSlack in
  state_state (lin_tmpRes r) = state_state tmpRes
  /\ state_energy (lin_tmpRes r) = state_energy tmpRes
  /\ (state_NewState (lin_tmpRes r) = ResState.OOB
      <-> state_state tmpRes = ResState.OOB
          \/ Exists (pixelFailsFull p HCalib dIl PRE_RTll PRE_tTll idepth) (patternP cfg))
  /\ (state_NewState (lin_tmpRes r) = ResState.OOB ->
      lin_return r = state_energy tmpRes
      /\ state_NewEnergy (lin_tmpRes r) = state_NewEnergy tmpRes)
  /\ (state_state tmpRes = ResState.OOB -> lin_Hdd r = Hdd /\ lin_bd r = bd)
  /\ (state_state tmpRes <> ResState.OOB ->
      lin_Hdd r = l_Hdd (fst loop) /\ lin_bd r = l_bd (fst loop))
  /\ (state_NewState (lin_tmpRes r) <> ResState.OOB ->
      snd loop = true
      /\ lin_return r = state_NewEnergy (lin_tmpRes r)
      /\ if F.gtb (l_energyLeft (fst loop)) cap
         then state_NewState (lin_tmpRes r) = ResState.OUTLIER
              /\ lin_return r = to_double cap
         else state_NewState (lin_tmpRes r) = ResState.IN
              /\ lin_return r = to_double (l_energyLeft (fst loop))).
Proof.
  intros r loop cap. subst r. unfold dso.linearizeResidual.
  pose proof (linearize_loop_finished p HCalib dIl PRE_RTll PRE_tTll PRE_aff_mode
                idepth (patternP cfg) 0 (mkLinAcc F.zero Hdd bd)) as Hfail.
  fold loop in Hfail |- *. fold cap.
  destruct (ResState.eqb (state_state tmpRes) ResState.OOB) eqn:Hoob.
  - apply ResState_eqb_eq in Hoob.
    cbn [lin_tmpRes lin_return lin_Hdd lin_bd set_NewState state_state state_energy
         state_NewState state_NewEnergy].
    split; [reflexivity | ]. split; [reflexivity | ].
    split; [split; auto | ]. split; [auto | ]. split; [auto | ].
    split; intros H; contradiction.
  - assert (Hno : state_state tmpRes <> ResState.OOB).
    { intros E. apply ResState_eqb_eq in E. congruence. }
    destruct loop as [a finished] eqn:Hloop. cbn [fst snd] in *.
    destruct finished; cbn [negb].
    + assert (Hnf : ~ Exists (pixelFailsFull p HCalib dIl PRE_RTll PRE_tTll idepth)
                      (patternP cfg)).
      { intros H. apply Hfail in H. discriminate H. }
      destruct (F.gtb (l_energyLeft a) cap) eqn:Hcap;
        cbn [lin_tmpRes lin_return lin_Hdd lin_bd state_state state_energy
             state_NewState state_NewEnergy];
        (split; [reflexivity | ]); (split; [reflexivity | ]);
        (split; [split; [discriminate | intros [H | H]; contradiction] | ]);
        (split; [discriminate | ]); (split; [intros H; contradiction | ]);
        (split; [auto | ]); intros _; auto.
    + cbn [lin_tmpRes lin_return lin_Hdd lin_bd set_NewState state_state state_energy
           state_NewState state_NewEnergy].
      split; [reflexivity | ]. split; [reflexivity | ]. split.
      { split; [ | reflexivity]. intros _. right. apply Hfail. reflexivity. }
      split; [auto | ]. split; [intros H; contradiction | ]. split; [auto | ].
      intros H. contradiction.
Qed.

End LinearizeResidualFacts.

(** ** The initial guesses of the coarse tracking *)

Section InitialGuessesFacts.
Variable SE3 : Type.
Variable se3_identity : SE3.
Variable se3_mul : SE3 -> SE3 -> SE3.
Variable se3_inverse : SE3 -> SE3.
Variable se3_half : SE3 -> SE3.
Variable se3_rotation : double -> double -> double -> double -> SE3.

Local Abbreviation FrameShell := (FrameShell SE3).
Local Abbreviation rotations := (rotations SE3 se3_mul se3_rotation).
Local Abbreviation rotationLoop := (rotationLoop SE3 se3_mul se3_rotation).
Local Abbreviation initialGuesses :=
  (initialGuesses SE3 se3_identity se3_mul se3_inverse se3_half se3_rotation).

Lemma rotationLoop_once (n : nat) (base : SE3) (tries : list SE3) :
  rotationLoop (S n) (to_float (D.dec 2 (-2))) base tries
  = Some (tries ++ rotations base (to_float (D.dec 2 (-2)))).
Proof.
  cbn [dso.rotationLoop].
  replace (lt_d (to_float (D.dec 2 (-2))) (D.dec 5 (-2))) with true
    by (vm_compute; reflexivity).
  destruct n as [ | n]; cbn [dso.rotationLoop];
    replace (lt_d (F.add (to_float (D.dec 2 (-2))) F.one) (D.dec 5 (-2))) with false
      by (vm_compute; reflexivity);
    reflexivity.
Qed.

(** X17 -- the poses that [trackNewCoarse] tries.  The loop
    [for(float rotDelta=0.02; rotDelta < 0.05; rotDelta++)] runs its body
    once, since the increment adds 1: the rotations tried are those by 0.02
    only.  With a hint the hint is the only try.  Without a hint: with
    exactly two frames in the history the list of tries is left empty; with
    fewer, [allFrameHistory] is read outside its bounds; with three or
    more there are 5 + 26 = 31 tries if the poses of the last two frames
    and of the reference are valid, and the identity alone if one is
    not. *)
Theorem trackNewCoarse_initial_guesses (allFrameHistory : list FrameShell)
    (lastF_shell : FrameShell) (lastF_aff_g2l : AffLight) :
  let guesses := initialGuesses allFrameHistory lastF_shell lastF_aff_g2l in
  let size := length allFrameHistory in
  (forall (n : nat) (base : SE3) (tries : list SE3),
      rotationLoop (S n) (to_float (D.dec 2 (-2))) base tries
      = Some (tries ++ rotations base (to_float (D.dec 2 (-2))))
      /\ length (rotations base (to_float (D.dec 2 (-2)))) = 26%nat)
  /\ (forall hint : SE3, exists aff, guesses (Some hint) = Some ([hint], aff))
  /\ (size = 2%nat -> guesses None = Some ([], mkAffLight (D.of_Z 0) (D.of_Z 0)))
  /\ ((size < 2)%nat -> guesses None = None)
  /\ ((3 <= size)%nat ->
      exists (slast sprelast : FrameShell) (tries : list SE3),
        allFrameHistory !! (size - 2)%nat = Some slast
        /\ allFrameHistory !! (size - 3)%nat = Some sprelast
        /\ guesses None = Some (tries, shell_aff_g2l SE3 slast)
        /\ (poseValid SE3 slast && poseValid SE3 sprelast
            && poseValid SE3 lastF_shell = false ->
            tries = [se3_identity])
        /\ (poseValid SE3 slast && poseValid SE3 sprelast
            && poseValid SE3 lastF_shell = true ->
            length tries = 31%nat
            /\ tries !! 3%nat
               = Some (se3_mul (se3_inverse (camToWorld SE3 slast))
                               (camToWorld SE3 lastF_shell))
            /\ tries !! 4%nat = Some se3_identity)).
Proof.
  intros guesses size. subst guesses. unfold dso.initialGuesses. fold size.
  split; [intros n base tries; split; [apply rotationLoop_once | reflexivity] | ].
  split; [intros hint; eexists; reflexivity | ].
  split; [intros ->; reflexivity | ].
  split.
  { intros Hlt. destruct (Nat.eqb size 2) eqn:E; [apply Nat.eqb_eq in E; lia | ].
    destruct (Nat.ltb size 2) eqn:E2; [reflexivity | ].
    apply Nat.ltb_ge in E2. lia. }
  intros Hge.
  destruct (Nat.eqb size 2) eqn:E; [apply Nat.eqb_eq in E; lia | ].
  destruct (Nat.ltb size 2) eqn:E2; [apply Nat.ltb_lt in E2; lia | ].
  destruct (Nat.ltb size 3) eqn:E3; [apply Nat.ltb_lt in E3; lia | ].
  destruct (lookup_lt_is_Some_2 allFrameHistory (size - 2)%nat) as (slast & Hs);
    [subst size; lia | ].
  destruct (lookup_lt_is_Some_2 allFrameHistory (size - 3)%nat) as (sprelast & Hp);
    [subst size; lia | ].
  rewrite Hs, Hp. cbv zeta. rewrite rotationLoop_once.
  exists slast, sprelast.
  destruct (poseValid SE3 slast), (poseValid SE3 sprelast),
           (poseValid SE3 lastF_shell); cbn [negb orb andb];
    eexists; (split; [reflexivity | ]); (split; [reflexivity | ]);
    (split; [reflexivity | ]); split; intros H; try discriminate H;
    try reflexivity.
  repeat split.
Qed.

End InitialGuessesFacts.

(** ** Entries of the gamma table that are not written *)

Lemma gamma_inner_no_hit (BInv : list float) (i : nat) (ss : list nat) (Bt : list float) :
  Forall (fun s => gamma_brackets BInv i s = false) ss ->
  gamma_inner BInv i ss Bt = Bt.
Proof.
  induction 1 as [ | s ss Hs Hss IH]; cbn [gamma_inner]; [reflexivity | ].
  rewrite Hs. exact IH.
Qed.

(** X18 -- what [setGammaFunction] does not write.  With a null pointer
    it changes nothing.  Otherwise an entry [B[i]], [1 <= i <= 254], for
    which no [s] in 1..254 has [BInv[s] <= i <= BInv[s+1]] keeps the value
    it had before the call: the table is not cleared first. *)
Theorem setGammaFunction_unbracketed (Hcalib : CalibHessian) :
  setGammaFunction Hcalib None = Hcalib
  /\ forall (BInv : list float) (i : nat),
       (1 <= i <= 254)%nat ->
       (forall s : nat, (1 <= s <= 254)%nat -> gamma_brackets BInv i s = false) ->
       B (setGammaFunction Hcalib (Some BInv)) !! i = B Hcalib !! i.
Proof.
  split; [reflexivity | ].
  intros BInv i Hi Hno. unfold setGammaFunction. cbn [B].
  rewrite !list_lookup_insert_ne by lia.
  rewrite gamma_outer_at.
  - rewrite gamma_inner_no_hit; [reflexivity | ].
    apply Forall_forall. intros s Hs.
    apply list_elem_of_In, in_seq in Hs. apply Hno. lia.
  - apply NoDup_ListNoDup, seq_NoDup.
  - apply list_elem_of_In, in_seq. lia.
Qed.

(** ** The Gauss-Newton refinement of the trace *)

Section GNFacts.
Variable cfg : Settings.
Variable Image : Type.
Variable getInterpolatedElement33 : Image -> float -> float -> Z -> Vec3f.

Local Abbreviation gnLoop := (gnLoop cfg Image getInterpolatedElement33).
Local Abbreviation gnEnergy := (gnEnergy cfg Image getInterpolatedElement33).
Local Abbreviation traceOn_GN := (traceOn_GN cfg Image getInterpolatedElement33).

(** the match is one step from the position kept as backup *)
Local Abbreviation one_step dx dy g :=
  (n_bestU g = F.add (n_uBak g) (F.mul (n_stepBack g) dx)
   /\ n_bestV g = F.add (n_vBak g) (F.mul (n_stepBack g) dy)).

Lemma gnLoop_backup (p : ImmaturePoint) (frame : Image) (aff : Vec2f)
    (rot : list Vec2f) (dx dy : float) (n : nat) :
  forall s g : GN,
    gnLoop p frame aff rot dx dy n s = Some g ->
    (n = 0%nat /\ g = s)
    \/ (one_step dx dy g
        /\ ((n_bestEnergy g = n_bestEnergy s
             /\ n_uBak g = n_uBak s /\ n_vBak g = n_vBak s)
            \/ gnEnergy p frame aff rot dx dy (n_uBak g) (n_vBak g)
               = Some (n_bestEnergy g))).
Proof.
  induction n as [ | n IH]; intros s g H; cbn [dso.gnLoop] in H.
  - left. split; [reflexivity | congruence].
  - right.
    destruct (gnPattern cfg Image getInterpolatedElement33 p frame aff rot dx dy
                (n_bestU s) (n_bestV s) (seq 0 (patternNum cfg))
                (mkGNAcc F.one F.zero F.zero)) as [a | ] eqn:Ha; [ | discriminate].
    assert (He : gnEnergy p frame aff rot dx dy (n_bestU s) (n_bestV s)
                 = Some (g_energy a))
      by (unfold dso.gnEnergy; rewrite Ha; reflexivity).
    destruct (F.gtb (g_energy a) (n_bestEnergy s)) eqn:Hbad.
    + match type of H with
      | (if F.ltb (F.abs (n_stepBack ?s1)) _ then _ else _) = _ =>
          set (s' := s1) in H
      end.
      assert (Hs' : one_step dx dy s'
                    /\ n_bestEnergy s' = n_bestEnergy s
                    /\ n_uBak s' = n_uBak s /\ n_vBak s' = n_vBak s)
        by (repeat split; reflexivity).
      destruct (F.ltb (F.abs (n_stepBack s')) (setting_trace_GNThreshold cfg)).
      * inversion H; subst g. split; [tauto | left; tauto].
      * destruct (IH s' g H) as [(_ & ->) | (Hpos & [(E1 & E2 & E3) | Hen])].
        -- split; [tauto | left; tauto].
        -- split; [exact Hpos | left].
           destruct Hs' as (_ & F1 & F2 & F3). repeat split; congruence.
        -- split; [exact Hpos | right; exact Hen].
    + match type of H with
      | (if F.ltb (F.abs (n_stepBack ?s1)) _ then _ else _) = _ =>
          set (s' := s1) in H
      end.
      assert (Hs' : one_step dx dy s'
                    /\ n_bestEnergy s' = g_energy a
                    /\ n_uBak s' = n_bestU s /\ n_vBak s' = n_bestV s)
        by (repeat split; reflexivity).
      destruct Hs' as (Hpos' & F1 & F2 & F3).
      assert (Hen' : gnEnergy p frame aff rot dx dy (n_uBak s') (n_vBak s')
                     = Some (n_bestEnergy s'))
        by (rewrite F1, F2, F3; exact He).
      destruct (F.ltb (F.abs (n_stepBack s')) (setting_trace_GNThreshold cfg)).
      * inversion H; subst g. split; [exact Hpos' | right; exact Hen'].
      * destruct (IH s' g H) as [(_ & ->) | (Hpos & [(E1 & E2 & E3) | Hen])].
        -- split; [exact Hpos' | right; exact Hen'].
        -- split; [exact Hpos | right]. rewrite E1, E2, E3. exact Hen'.
        -- split; [exact Hpos | right; exact Hen].
Qed.

Lemma gnLoop_None (p : ImmaturePoint) (frame : Image) (aff : Vec2f)
    (rot : list Vec2f) (dx dy : float) (n : nat) :
  forall s : GN,
    gnLoop p frame aff rot dx dy n s = None ->
    (0 < n)%nat /\ exists u v : float, gnEnergy p frame aff rot dx dy u v = None.
Proof.
  induction n as [ | n IH]; intros s H; cbn [dso.gnLoop] in H; [discriminate | ].
  split; [lia | ].
  destruct (gnPattern cfg Image getInterpolatedElement33 p frame aff rot dx dy
              (n_bestU s) (n_bestV s) (seq 0 (patternNum cfg))
              (mkGNAcc F.one F.zero F.zero)) as [a | ] eqn:Ha.
  - match type of H with
    | (if F.ltb (F.abs (n_stepBack ?s1)) _ then _ else _) = _ =>
        set (s' := s1) in H
    end.
    destruct (F.ltb (F.abs (n_stepBack s')) (setting_trace_GNThreshold cfg));
      [discriminate | ].
    exact (proj2 (IH s' H)).
  - exists (n_bestU s), (n_bestV s). unfold dso.gnEnergy. rewrite Ha. reflexivity.
Qed.


End GNFacts.

(** ** The frames that leave the window *)

Section MarginalizeFramesFacts.
Variable marginalizeFrame : list FrameHessian -> nat -> list FrameHessian.

Local Abbreviation marginalizeFramesLoop := (marginalizeFramesLoop marginalizeFrame).

(** [marginalizeFrame] takes the frame out of the window and leaves the
    other frames in place, with their flags *)
Local Abbreviation removes_frame :=
  (forall (l : list FrameHessian) (i : nat),
      (i < length l)%nat ->
      map frameTag (marginalizeFrame l i) = delete i (map frameTag l)).

Lemma marginalizeFramesLoop_fuel (n m i : nat) (frames r : list FrameHessian) :
  marginalizeFramesLoop n i frames = Some r -> (n <= m)%nat ->
  marginalizeFramesLoop m i frames = Some r.
Proof.
  revert m i frames. induction n as [ | n IH]; intros m i frames H Hle;
    [discriminate | ].
  destruct m as [ | m]; [lia | ].
  cbn [dso.marginalizeFramesLoop] in *.
  destruct (frames !! i) as [fh | ]; [ | exact H].
  destruct (flaggedForMarginalization fh); apply IH; auto; lia.
Qed.

Lemma unflagged_all (l : list (FrameRef * bool)) :
  Forall (fun t => snd t = false) l -> unflagged l = l.
Proof.
  unfold unflagged. induction 1 as [ | t l Ht Hl IH]; [reflexivity | ].
  rewrite filter_cons_True by exact Ht. f_equal. exact IH.
Qed.

Lemma flagged_count_all (l : list (FrameRef * bool)) :
  Forall (fun t => snd t = false) l ->
  filter (fun t => snd t = true) l = [].
Proof.
  induction 1 as [ | t l Ht Hl IH]; [reflexivity | ].
  rewrite filter_cons_False; [exact IH | ]. rewrite Ht. discriminate.
Qed.

Lemma marginalizeFramesLoop_scan (Hm : removes_frame) (n : nat) :
  forall (frames : list FrameHessian) (pre suf : list (FrameRef * bool)),
    map frameTag frames = pre ++ suf ->
    (1 <= length pre)%nat ->
    Forall (fun t => snd t = false) (tail pre) ->
    (length suf
     + length (filter (fun t => snd t = true) suf) * (length pre + length suf + 1)
     < n)%nat ->
    exists frames',
      marginalizeFramesLoop n (length pre) frames = Some frames'
      /\ map frameTag frames' = pre ++ unflagged suf.
Proof.
  induction n as [ | n IH]; intros frames pre suf Hmap Hpre Htl Hfuel; [lia | ].
  assert (Hlen : length frames = (length pre + length suf)%nat)
    by (rewrite <- (length_map frameTag), Hmap, length_app; reflexivity).
  cbn [dso.marginalizeFramesLoop].
  destruct suf as [ | t suf].
  - rewrite lookup_ge_None_2 by (cbn [length] in Hlen; lia).
    exists frames. split; [reflexivity | ]. exact Hmap.
  - destruct (lookup_lt_is_Some_2 frames (length pre)) as [fh Hfh];
      [cbn [length] in Hlen; lia | ].
    rewrite Hfh.
    assert (Ht : frameTag fh = t).
    { pose proof (list_lookup_fmap frameTag frames (length pre)) as E.
      change (fmap frameTag frames) with (map frameTag frames) in E.
      rewrite Hmap, Hfh, list_lookup_middle in E by reflexivity.
      cbn in E. congruence. }
    destruct (flaggedForMarginalization fh) eqn:Hflag.
    + assert (Hst : snd t = true) by (rewrite <- Ht; exact Hflag).
      destruct pre as [ | p0 pt]; [cbn in Hpre; lia | ].
      cbn [tail] in Htl.
      destruct (IH (marginalizeFrame frames (length (p0 :: pt))) [p0] (pt ++ suf))
        as (frames' & E & Hres).
      * rewrite Hm by (rewrite Hlen; cbn [length]; lia).
        rewrite Hmap, delete_middle. reflexivity.
      * cbn. lia.
      * constructor.
      * rewrite filter_app, flagged_count_all by exact Htl.
        rewrite filter_cons_True in Hfuel by exact Hst.
        cbn [length app] in *. rewrite !length_app. nia.
      * exists frames'. split; [exact E | ].
        rewrite Hres. unfold unflagged.
        rewrite filter_app, filter_cons_False by (rewrite Hst; discriminate).
        fold (unflagged pt). rewrite unflagged_all by exact Htl.
        reflexivity.
    + assert (Hst : snd t = false) by (rewrite <- Ht; exact Hflag).
      destruct (IH frames (pre ++ [t]) suf) as (frames' & E & Hres).
      * rewrite Hmap, <- app_assoc. reflexivity.
      * rewrite length_app. cbn. lia.
      * destruct pre as [ | p0 pt]; [cbn in Hpre; lia | ].
        cbn [tail app] in *. apply Forall_app. split; [exact Htl | ].
        constructor; [exact Hst | constructor].
      * rewrite filter_cons_False in Hfuel by (rewrite Hst; discriminate).
        rewrite length_app. cbn [length] in *. nia.
      * exists frames'. split.
        -- rewrite length_app in E. cbn [length] in E. exact E.
        -- rewrite Hres, <- app_assoc. unfold unflagged.
           rewrite filter_cons_True by exact Hst. reflexivity.
Qed.

Lemma filter_length_le {A : Type} (P : A -> Prop) `{forall x, Decision (P x)}
    (l : list A) :
  (length (filter P l) <= length l)%nat.
Proof.
  induction l as [ | x l IH]; [reflexivity | ].
  rewrite filter_cons. destruct (decide (P x)); cbn [length]; lia.
Qed.

Lemma marginalizeFramesLoop_spec (Hm : removes_frame) (frames : list FrameHessian) :
  exists frames',
    marginalizeFramesLoop ((length frames + 1) * (length frames + 1)) 0 frames
    = Some frames'
    /\ map frameTag frames' = leftInWindow (map frameTag frames).
Proof.
  destruct frames as [ | f0 rest].
  - exists []. split; reflexivity.
  - remember ((length (f0 :: rest) + 1) * (length (f0 :: rest) + 1))%nat as n eqn:Hn.
    destruct n as [ | n]; [cbn [length] in Hn; lia | ].
    cbn [dso.marginalizeFramesLoop]. cbn [lookup list_lookup].
    pose proof (filter_length_le (fun t : FrameRef * bool => snd t = true)
                  (map frameTag rest)) as Hc.
    rewrite length_map in Hc.
    destruct (flaggedForMarginalization f0) eqn:Hflag.
    + assert (Hmap1 : map frameTag (marginalizeFrame (f0 :: rest) 0)
                      = map frameTag rest)
        by (rewrite Hm by (cbn [length]; lia); reflexivity).
      destruct rest as [ | g0 rest'].
      * exists (marginalizeFrame [f0] 0).
        destruct (marginalizeFrame [f0] 0) as [ | x xs] eqn:E; [ | discriminate].
        destruct n as [ | n]; [cbn [length] in Hn; lia | ].
        split; [reflexivity | ].
        cbn [map]. unfold frameTag. rewrite Hflag. reflexivity.
      * destruct (marginalizeFramesLoop_scan Hm n
                    (marginalizeFrame (f0 :: g0 :: rest') 0)
                    [frameTag g0] (map frameTag rest'))
          as (frames' & E & Hres).
        -- exact Hmap1.
        -- cbn. lia.
        -- constructor.
        -- pose proof (filter_length_le (fun t : FrameRef * bool => snd t = true)
                         (map frameTag rest')) as Hc'.
           rewrite length_map in *. cbn [length] in *. nia.
        -- exists frames'. split; [exact E | ].
           rewrite Hres. cbn [map].
           assert (Ht : frameTag f0 = (fh_ref f0, true))
             by (unfold frameTag; rewrite Hflag; reflexivity).
           rewrite Ht. reflexivity.
    + destruct (marginalizeFramesLoop_scan Hm n (f0 :: rest)
                  [frameTag f0] (map frameTag rest))
        as (frames' & E & Hres).
      * reflexivity.
      * cbn. lia.
      * constructor.
      * rewrite length_map. cbn [length] in *. nia.
      * exists frames'. split; [exact E | ].
        rewrite Hres. cbn [map].
        assert (Ht : frameTag f0 = (fh_ref f0, false))
          by (unfold frameTag; rewrite Hflag; reflexivity).
        rewrite Ht. reflexivity.
Qed.

Lemma leftInWindow_tail (l : list (FrameRef * bool)) (i : nat) (t : FrameRef * bool) :
  (1 <= i)%nat -> leftInWindow l !! i = Some t -> snd t = false.
Proof.
  intros Hi H. destruct i as [ | i]; [lia | ].
  assert (Hin : forall rest, unflagged rest !! i = Some t -> snd t = false).
  { intros rest Hl. apply list_elem_of_lookup_2 in Hl.
    unfold unflagged in Hl. apply list_elem_of_filter in Hl. tauto. }
  destruct l as [ | [r [ | ]] l]; cbn [leftInWindow] in H.
  - discriminate.
  - destruct l as [ | t1 rest]; [discriminate | ].
    exact (Hin rest H).
  - exact (Hin l H).
Qed.

(** X19 -- the loop of [makeKeyFrame] that takes the flagged frames out
    of the window, given that [marginalizeFrame] removes the frame it is
    called on and leaves the other frames in place with their flags.  The
    loop ends (within [(size+1)^2] iterations) and leaves no flagged frame
    at an index from 1 on.  But after a removal it goes on at index 1, not
    0: when the first frame of the window is removed, the frame that
    follows it moves to index 0 and is not looked at again.  A flagged frame
    is left in the window exactly when the first two frames were both
    flagged; it is then the second of them, at index 0. *)
Theorem marginalizeFrames_skips_first (frameHessians : list FrameHessian) :
  (forall (l : list FrameHessian) (i : nat),
      (i < length l)%nat ->
      map frameTag (marginalizeFrame l i) = delete i (map frameTag l)) ->
  exists frames' : list FrameHessian,
    (forall n : nat,
        ((length frameHessians + 1) * (length frameHessians + 1) <= n)%nat ->
        marginalizeFramesLoop n 0 frameHessians = Some frames')
    /\ map frameTag frames' = leftInWindow (map frameTag frameHessians)
    /\ (forall (i : nat) (fh : FrameHessian),
           (1 <= i)%nat -> frames' !! i = Some fh ->
           flaggedForMarginalization fh = false)
    /\ (forall fh : FrameHessian,
           frames' !! 0%nat = Some fh -> flaggedForMarginalization fh = true ->
           exists f0 f1 : FrameHessian,
             frameHessians !! 0%nat = Some f0 /\ frameHessians !! 1%nat = Some f1
             /\ flaggedForMarginalization f0 = true
             /\ frameTag f1 = frameTag fh)
    /\ (forall f0 f1 : FrameHessian,
           frameHessians !! 0%nat = Some f0 -> frameHessians !! 1%nat = Some f1 ->
           flaggedForMarginalization f0 = true ->
           flaggedForMarginalization f1 = true ->
           exists fh : FrameHessian,
             frames' !! 0%nat = Some fh
             /\ fh_ref fh = fh_ref f1 /\ flaggedForMarginalization fh = true).
Proof.
  intros Hm.
  destruct (marginalizeFramesLoop_spec Hm frameHessians) as (frames' & E & Hres).
  exists frames'.
  assert (Hlook : forall (i : nat) (fh : FrameHessian),
             frames' !! i = Some fh ->
             leftInWindow (map frameTag frameHessians) !! i = Some (frameTag fh)).
  { intros i fh Hi. rewrite <- Hres.
    change (map frameTag frames') with (fmap frameTag frames').
    rewrite list_lookup_fmap, Hi. reflexivity. }
  split; [ | split; [exact Hres | split; [ | split]]].
  - intros n Hn. exact (marginalizeFramesLoop_fuel _ _ _ _ _ E Hn).
  - intros i fh Hi Hfh.
    exact (leftInWindow_tail _ _ _ Hi (Hlook i fh Hfh)).
  - intros fh Hfh Hflag. apply Hlook in Hfh.
    destruct frameHessians as [ | f0 [ | f1 rest]]; cbn [map] in Hfh.
    + discriminate.
    + unfold frameTag in Hfh at 1. destruct (flaggedForMarginalization f0);
        cbn in Hfh; [discriminate | ].
      inversion Hfh as [[Hr Hf]]. congruence.
    + destruct (flaggedForMarginalization f0) eqn:H0.
      * exists f0, f1. repeat (split; [reflexivity || assumption | ]).
        assert (Ht : frameTag f0 = (fh_ref f0, true))
          by (unfold frameTag; rewrite H0; reflexivity).
        rewrite Ht in Hfh. cbn in Hfh. congruence.
      * assert (Ht : frameTag f0 = (fh_ref f0, false))
          by (unfold frameTag; rewrite H0; reflexivity).
        rewrite Ht in Hfh. cbn in Hfh.
        inversion Hfh as [[Hr Hf]]. congruence.
  - intros f0 f1 H0 H1 Hf0 Hf1.
    destruct frameHessians as [ | g0 [ | g1 rest]]; try discriminate.
    cbn in H0, H1. inversion H0; inversion H1; subst g0 g1.
    assert (Hl : (0 < length frames')%nat).
    { rewrite <- (length_map frameTag), Hres. cbn [map].
      assert (Ht : frameTag f0 = (fh_ref f0, true))
        by (unfold frameTag; rewrite Hf0; reflexivity).
      rewrite Ht. cbn. lia. }
    destruct (lookup_lt_is_Some_2 frames' 0 Hl) as [fh Hfh].
    exists fh. split; [exact Hfh | ].
    apply Hlook in Hfh. cbn [map] in Hfh.
    assert (Ht : frameTag f0 = (fh_ref f0, true))
      by (unfold frameTag; rewrite Hf0; reflexivity).
    rewrite Ht in Hfh. cbn in Hfh.
    assert (Hq : frameTag f1 = frameTag fh) by congruence.
    unfold frameTag in Hq. split; congruence.
Qed.

End MarginalizeFramesFacts.

(** ** The further properties on the concrete scene *)

Lemma makeNonKeyFrames_keep_OOB_witness :
  noNullPoints Scene.window_OOB
  /\ exists frames' h',
       Scene.after_two_frames = Some frames'
       /\ frames' !! 0%nat = Some h'
       /\ immaturePoints h' !! 0%nat = Some (Some Scene.certain_OOB).
Proof.
  assert (H : noNullPoints Scene.window_OOB)
    by (repeat constructor; eexists; reflexivity).
  split; [exact H | ].
  destruct (makeNonKeyFrames_keep_OOB Scene.cfg Scene.Image Scene.sample31
              Scene.sample33 Scene.Image (fun im => im) Scene.hostToFrame
              (fun fh => fh) Scene.window_OOB
              [Scene.uniform (F.of_Z 200); Scene.ramp 1 0] H)
    as (frames' & E & _ & _ & Hpts).
  destruct (Hpts 0%nat Scene.host_OOB 0%nat Scene.certain_OOB eq_refl eq_refl)
    as (h' & p' & Hh & _ & _ & Hp & _ & _ & _ & _ & _ & _ & Hoob).
  exists frames', h'. split; [exact E | ]. split; [exact Hh | ].
  rewrite (Hoob eq_refl) in Hp. exact Hp.
Defined.

Lemma activatePointsMT_survivors_witness :
  last Scene.window = Some Scene.newest
  /\ map fh_ref Scene.activated = map fh_ref Scene.window
  /\ noNullPoints Scene.activated.
Proof.
  assert (H : last Scene.window = Some Scene.newest) by reflexivity.
  split; [exact H | ].
  destruct (activatePointsMT_survivors Scene.cfg unit Scene.makeDistanceMap
              Scene.fwdWarpedIDDistFinal Scene.addIntoDistFinal unit
              Scene.nPoints Scene.insertPoint Scene.insertResidual
              Scene.hostToNew Scene.optimizeImmaturePoint Scene.window
              Scene.newest (F.of_Z 2) tt H) as (Href & _ & Hnn & _).
  split; [exact Href | exact Hnn].
Defined.


Lemma flagPointsForRemoval_kept_witness :
  Scene.keyframes !! 0%nat = Some Scene.keyframe0
  /\ exists b, Scene.flagged !! 0%nat = Some b /\ kf_pointHessians b = [].
Proof.
  assert (H : Scene.keyframes !! 0%nat = Some Scene.keyframe0) by reflexivity.
  split; [exact H | ].
  destruct (flagPointsForRemoval_kept F.zero (F.of_Z 50) unit
              (fun _ _ _ _ => false) (fun _ _ => true)
              (fun _ w => w) (fun _ w => w) (fun _ w => w) (fun _ _ w => w)
              (fun _ _ => true) (fun _ w => w) Scene.keyframes tt 0%nat Scene.keyframe0 H)
    as (b & Hb & Hflag & _).
  exists b. split; [exact Hb | exact (Hflag eq_refl)].
Defined.

Lemma list_map_delete {A B : Type} (f : A -> B) (l : list A) (i : nat) :
  map f (delete i l) = delete i (map f l).
Proof.
  revert i. induction l as [ | x l IH]; intros [ | i]; try reflexivity.
  cbn. f_equal. apply IH.
Qed.

Lemma marginalizeFrames_skips_first_witness :
  (forall (l : list FrameHessian) (i : nat),
      (i < length l)%nat ->
      map frameTag (Scene.marginalizeFrame l i) = delete i (map frameTag l))
  /\ exists frames' fh,
       marginalizeFramesLoop Scene.marginalizeFrame 16 0 Scene.window_flagged
       = Some frames'
       /\ frames' !! 0%nat = Some fh
       /\ fh_ref fh = 1%nat /\ flaggedForMarginalization fh = true.
Proof.
  assert (H : forall (l : list FrameHessian) (i : nat),
             (i < length l)%nat ->
             map frameTag (Scene.marginalizeFrame l i) = delete i (map frameTag l))
    by (intros l i _; apply list_map_delete).
  split; [exact H | ].
  destruct (marginalizeFrames_skips_first Scene.marginalizeFrame
              Scene.window_flagged H) as (frames' & Hn & _ & _ & _ & Hsecond).
  destruct (Hsecond Scene.flagged0 Scene.flagged1 eq_refl eq_refl eq_refl eq_refl)
    as (fh & Hfh & Href & Hflag).
  exists frames', fh.
  split; [apply Hn; cbn; lia | ].
  split; [exact Hfh | ]. split; [exact Href | exact Hflag].
Defined.
